(** * Surxrat: the three obfuscation codecs, embedded and verified

    The repository ships three JavaScript codecs:
    - [lanaVortex]      (methods/lana-vortex.js):      fragment, shuffle, XOR, base64;
    - [lexicalScramble] (methods/lexical-scramble.js): rename identifiers, minify;
    - [stringConceal]   (methods/string-conceal.js):   extract and encrypt literals.

    JavaScript strings are sequences of UTF-16 code units, modelled as
    [list N].  Code that throws returns a [completion]; the ambient
    [Math.random] source is an explicit [World] threaded through a small
    state-and-exception monad.  Built-ins whose behaviour is left to the
    engine ([Array.prototype.sort] under an inconsistent comparator,
    [JSON.parse], the text of native exception messages) are the fields of
    the class [Engine]; a reference instance is given further down. *)

From Stdlib Require Import String Ascii DecimalString.
From Stdlib Require Import ZArith NArith QArith List Bool Lia Permutation Sorted.
From Equations Require Import Equations.
Import ListNotations.
Set Warnings "-register-all,-automation".


Local Open Scope N_scope.
Local Open Scope list_scope.

(** ** JavaScript strings *)

Definition jstring := list N.

(** A string literal of the source, as code units. *)
Definition js (s : string) : jstring := map N_of_ascii (list_ascii_of_string s).

(** The double quote, written by code because a literal cannot hold it. *)
Definition dq : N := 34.
Definition sq : N := 39.
Definition backslash : N := 92.

Definition is_empty (s : jstring) : bool :=
  match s with [] => true | _ => false end.

(** [LineTerminator]: the characters a regular expression's [.] refuses. *)
Definition is_line_terminator (c : N) : bool :=
  (c =? 10) || (c =? 13) || (c =? 8232) || (c =? 8233).

(** [\s], which is also the set [String.prototype.trim] strips. *)
Definition is_white_space (c : N) : bool :=
  (c =? 9) || (c =? 10) || (c =? 11) || (c =? 12) || (c =? 13) || (c =? 32)
  || (c =? 160) || (c =? 5760) || ((8192 <=? c) && (c <=? 8202))
  || (c =? 8232) || (c =? 8233) || (c =? 8239) || (c =? 8287)
  || (c =? 12288) || (c =? 65279).

Fixpoint trim_start (s : jstring) : jstring :=
  match s with
  | c :: r => if is_white_space c then trim_start r else s
  | [] => []
  end.

Definition trim (s : jstring) : jstring :=
  rev (trim_start (rev (trim_start s))).

Fixpoint strip_prefix (p s : jstring) : option jstring :=
  match p, s with
  | [], _ => Some s
  | a :: p', b :: s' => if a =? b then strip_prefix p' s' else None
  | _ :: _, [] => None
  end.

Fixpoint join (sep : jstring) (l : list jstring) : jstring :=
  match l with
  | [] => []
  | [x] => x
  | x :: r => x ++ sep ++ join sep r
  end.

(** [String(n)] for a non-negative integer. *)
Definition decimal (n : nat) : jstring :=
  js (NilZero.string_of_uint (Nat.to_uint n)).

(** ** Regular-expression search

    [search m s] is [s.match(re)] for a regular expression without the [g]
    flag: the leftmost position at which the anchored matcher [m]
    succeeds.  The end of the input is a position too. *)

Fixpoint search {A : Type} (m : jstring -> option A) (s : jstring) : option A :=
  match m s with
  | Some a => Some a
  | None => match s with
            | [] => None
            | _ :: r => search m r
            end
  end.

(** [.*?\]] anchored: the shortest run of non-terminators up to the first
    closing bracket, bracket included. *)
Fixpoint lazy_to_bracket (s : jstring) : option jstring :=
  match s with
  | [] => None
  | c :: r =>
      if c =? 93 then Some [93]
      else if is_line_terminator c then None
      else option_map (cons c) (lazy_to_bracket r)
  end.

(** ** btoa and atob *)

Definition b64_alphabet : jstring :=
  js "ABCDEFGHIJKLMNOPQRSTUVWXYZabcdefghijklmnopqrstuvwxyz0123456789+/".

Definition b64_char (v : N) : N := nth (N.to_nat v) b64_alphabet 0.

Definition b64_index (c : N) : option N :=
  if (65 <=? c) && (c <=? 90) then Some (c - 65)
  else if (97 <=? c) && (c <=? 122) then Some (c - 71)
  else if (48 <=? c) && (c <=? 57) then Some (c + 4)
  else if c =? 43 then Some 62
  else if c =? 47 then Some 63
  else None.

Definition is_b64 (c : N) : bool :=
  match b64_index c with Some _ => true | None => c =? 61 end.

Fixpoint b64_encode (s : list N) : jstring :=
  match s with
  | a :: b :: c :: r =>
      b64_char (a / 4) :: b64_char ((a mod 4) * 16 + b / 16)
      :: b64_char ((b mod 16) * 4 + c / 64) :: b64_char (c mod 64)
      :: b64_encode r
  | [a; b] =>
      [b64_char (a / 4); b64_char ((a mod 4) * 16 + b / 16);
       b64_char ((b mod 16) * 4); 61]
  | [a] => [b64_char (a / 4); b64_char ((a mod 4) * 16); 61; 61]
  | [] => []
  end.

Definition is_latin1 (s : jstring) : bool := forallb (fun c => c <? 256) s.

(** [btoa]: [None] stands for the [InvalidCharacterError] it throws on a
    code unit above 255. *)
Definition btoa (s : jstring) : option jstring :=
  if is_latin1 s then Some (b64_encode s) else None.

Definition is_ascii_whitespace (c : N) : bool :=
  (c =? 9) || (c =? 10) || (c =? 12) || (c =? 13) || (c =? 32).

Definition strip_padding (s : jstring) : jstring :=
  if (length s mod 4 =? 0)%nat then
    match rev s with
    | a :: b :: r =>
        if a =? 61 then if b =? 61 then rev r else rev (b :: r) else s
    | _ => s
    end
  else s.

Fixpoint b64_indices (s : jstring) : option (list N) :=
  match s with
  | [] => Some []
  | c :: r =>
      match b64_index c, b64_indices r with
      | Some v, Some l => Some (v :: l)
      | _, _ => None
      end
  end.

Fixpoint b64_decode (l : list N) : list N :=
  match l with
  | s1 :: s2 :: s3 :: s4 :: r =>
      (s1 * 4 + s2 / 16) :: ((s2 mod 16) * 16 + s3 / 4)
      :: ((s3 mod 4) * 64 + s4) :: b64_decode r
  | [s1; s2; s3] => [s1 * 4 + s2 / 16; (s2 mod 16) * 16 + s3 / 4]
  | [s1; s2] => [s1 * 4 + s2 / 16]
  | _ => []
  end.

(** [atob], the forgiving base64 decoder: ASCII white space is dropped,
    one or two padding signs are removed when the length is a multiple of
    four, a length of 1 modulo 4 or a foreign character fails. *)
Definition atob (s : jstring) : option jstring :=
  let d := strip_padding (filter (fun c => negb (is_ascii_whitespace c)) s) in
  if (length d mod 4 =? 1)%nat then None
  else option_map b64_decode (b64_indices d).

(** ** JSON.stringify, for the shapes the codecs serialise *)

Definition hex_digit (v : N) : N := nth (N.to_nat v) (js "0123456789abcdef") 0.

Definition unicode_escape (c : N) : jstring :=
  js "\u" ++ [hex_digit (c / 4096); hex_digit ((c / 256) mod 16);
              hex_digit ((c / 16) mod 16); hex_digit (c mod 16)].

Definition is_lead_surrogate (c : N) : bool := (55296 <=? c) && (c <=? 56319).
Definition is_trail_surrogate (c : N) : bool := (56320 <=? c) && (c <=? 57343).

Definition json_escape_unit (c : N) : jstring :=
  if c =? 8 then js "\b" else if c =? 9 then js "\t"
  else if c =? 10 then js "\n" else if c =? 12 then js "\f"
  else if c =? 13 then js "\r"
  else if c =? dq then [backslash; dq]
  else if c =? backslash then [backslash; backslash]
  else if c <? 32 then unicode_escape c
  else if is_trail_surrogate c then unicode_escape c
  else [c].

(** [QuoteJSONString] without the enclosing quotes: surrogate pairs stay,
    lone surrogates are escaped. *)
Fixpoint json_quote_body (s : jstring) : jstring :=
  match s with
  | [] => []
  | c :: r =>
      if is_lead_surrogate c then
        match r with
        | d :: r' =>
            if is_trail_surrogate d then c :: d :: json_quote_body r'
            else unicode_escape c ++ json_quote_body r
        | [] => unicode_escape c
        end
      else json_escape_unit c ++ json_quote_body r
  end.

Definition json_quote (s : jstring) : jstring := dq :: json_quote_body s ++ [dq].

(** [JSON.stringify] of an array of strings. *)
Definition JSON_stringify_strings (l : list jstring) : jstring :=
  js "[" ++ join (js ",") (map json_quote l) ++ js "]".

(** [JSON.stringify] of an array of non-negative integers; a hole of a
    sparse array is written [null]. *)
Definition json_number_or_hole (x : option nat) : jstring :=
  match x with Some n => decimal n | None => js "null" end.

Definition JSON_stringify_numbers (l : list (option nat)) : jstring :=
  js "[" ++ join (js ",") (map json_number_or_hole l) ++ js "]".

(** ** Values, exceptions, the world and the monad *)

Inductive JValue : Type :=
| JNull
| JBool (b : bool)
| JNumber (q : Q)
| JString (s : jstring)
| JArray (l : list JValue)
| JObject (members : list (jstring * JValue)).

Inductive native_exn : Type :=
| InvalidCharacterError   (* DOMException of btoa and atob *)
| SyntaxError             (* JSON.parse *)
| TypeError.

Inductive exn : Type :=
| Error (message : jstring)     (* [new Error(message)] *)
| Native (e : native_exn).

Inductive completion (A : Type) : Type :=
| Return (a : A)
| Throw (e : exn).
Arguments Return {A} a.
Arguments Throw {A} e.

(** The ambient state: the strings [Math.random().toString(36)] will
    return, and how many have been drawn. *)
Record World : Type := mkWorld { random_tape : nat -> jstring; drawn : nat }.

Definition M (A : Type) : Type := World -> completion A * World.

Definition ret {A : Type} (a : A) : M A := fun w => (Return a, w).
Definition throw {A : Type} (e : exn) : M A := fun w => (Throw e, w).
Definition bind {A B : Type} (m : M A) (k : A -> M B) : M B :=
  fun w => match m w with
           | (Return a, w') => k a w'
           | (Throw e, w') => (Throw e, w')
           end.
Definition try_catch {A : Type} (body : M A) (handler : exn -> M A) : M A :=
  fun w => match body w with
           | (Throw e, w') => handler e w'
           | r => r
           end.

Notation "x <- m ;; k" := (bind m (fun x => k))
  (at level 61, m at next level, right associativity).

(** [Math.random().toString(36)]. *)
Definition Math_random_base36 : M jstring :=
  fun w => (Return (random_tape w (drawn w)),
            mkWorld (random_tape w) (S (drawn w))).

(** A built-in that throws a native exception on [None]. *)
Definition native {A : Type} (e : native_exn) (o : option A) : M A :=
  match o with Some a => ret a | None => throw (Native e) end.

(** A method of arrays called on a parsed value: a [TypeError] on anything
    else. *)
Definition as_array (v : JValue) : M (list JValue) :=
  match v with
  | JArray l => ret l
  | _ => throw (Native TypeError)
  end.

Definition jstring_eqb (a b : jstring) : bool :=
  if list_eq_dec N.eq_dec a b then true else false.

Fixpoint mapM {A B : Type} (f : A -> M B) (l : list A) : M (list B) :=
  match l with
  | [] => ret []
  | a :: r => b <- f a ;; bs <- mapM f r ;; ret (b :: bs)
  end.

(** Sparse arrays: [a[i] = v] extends the array with holes when [i] is past
    its end. *)
Fixpoint array_set {A : Type} (a : list (option A)) (i : nat) (v : A)
  : list (option A) :=
  match i, a with
  | O, [] => [Some v]
  | O, _ :: r => Some v :: r
  | S i', [] => None :: array_set [] i' v
  | S i', x :: r => x :: array_set r i' v
  end.

(** ** The engine *)

Class Engine : Type := {
  (** [Array.prototype.sort] with a comparator that may be inconsistent
      and may carry state: the order is the engine's, the result is a
      rearrangement of the input. *)
  array_sort : forall St : Type,
      (nat -> nat -> St -> Q * St) -> list nat -> St -> list nat * St;
  array_sort_perm : forall St cmp l st,
      Permutation l (fst (array_sort St cmp l st));
  (** [JSON.parse]; [None] stands for its [SyntaxError]. *)
  JSON_parse : jstring -> option JValue;
  JSON_parse_strings : forall l,
      Forall (fun s => forallb is_b64 s = true) l ->
      JSON_parse (JSON_stringify_strings l) = Some (JArray (map JString l));
  (** [ToString] of a parsed value. *)
  ToString : JValue -> jstring;
  ToString_string : forall s, ToString (JString s) = s;
  (** The [message] of a native exception. *)
  native_message : native_exn -> jstring
}.
Arguments array_sort {Engine St} cmp l st.

Definition exn_message {E : Engine} (e : exn) : jstring :=
  match e with
  | Error m => m
  | Native n => native_message n
  end.

(** ** The position-keyed XOR cipher (both key-based codecs carry a copy) *)

Fixpoint xorCipher_from (i : nat) (text key : jstring) : jstring :=
  match text with
  | [] => []
  | c :: t =>
      N.lxor c (nth (i mod length key) key 0) :: xorCipher_from (S i) t key
  end.

Definition xorCipher (text key : jstring) : jstring := xorCipher_from 0 text key.

(** * methods/lana-vortex.js *)

Module lanaVortex.
Section Codec.
Context {E : Engine}.

(** [hash |= 0] and the result of [<<]: wrap to a signed 32-bit integer. *)
Definition toInt32 (z : Z) : Z :=
  ((z + 2147483648) mod 4294967296 - 2147483648)%Z.

(** [createSeed]: [hash = ((hash << 5) - hash) + char; hash |= 0] over the
    characters of the key, from 0. *)
Definition createSeed (key : jstring) : Z :=
  fold_left
    (fun hash char => toInt32 (toInt32 (Z.shiftl hash 5) - hash + Z.of_N char)%Z)
    key 0%Z.

(** One call of the closure [seededRandom(seed)] returns: the value
    returned and the closure's new [seed].  [%] is the remainder that takes
    the sign of the dividend, [Z.rem].  The products stay below 2^53, so
    the double arithmetic of the source is exact and the quotient is
    modelled by the rational it rounds. *)
Definition seededRandom (seed : Z) : Q * Z :=
  let seed' := Z.rem (seed * 9301 + 49297) 233280 in
  (seed' # 233280, seed').

(** The comparator [() => random() - 0.5]: it ignores both elements. *)
Definition comparator (_ _ : nat) (seed : Z) : Q * Z :=
  let (r, seed') := seededRandom seed in ((r - (1 # 2))%Q, seed').

Definition chunkSize (key : jstring) : nat := Nat.max 2 (length key / 2).

(** The fragmentation loop:
    [for (i = 0; i < code.length; i += chunkSize) push(code.substring(i, i + chunkSize))]. *)
Equations? fragment (key code : jstring) : list jstring by wf (length code) lt :=
  fragment key [] := [];
  fragment key (c :: rest) :=
    firstn (chunkSize key) (c :: rest)
    :: fragment key (skipn (chunkSize key) (c :: rest)).
Proof.
  rewrite length_skipn. unfold chunkSize. cbn [length]. lia.
Qed.

Definition shuffledIndices (key : jstring) (n : nat) : list nat :=
  fst (array_sort comparator (seq 0 n) (createSeed key)).

(** [shuffledIndices.forEach((originalIndex, newIndex) => ...)], the part
    that fills [originalOrderMap]. *)
Fixpoint record_order (shuffled : list nat) (newIndex : nat)
    (orderMap : list (option nat)) : list (option nat) :=
  match shuffled with
  | [] => orderMap
  | originalIndex :: r =>
      record_order r (S newIndex) (array_set orderMap originalIndex newIndex)
  end.

(** [originalOrderMap], from [new Array(fragments.length)]. *)
Definition originalOrderMap (key : jstring) (n : nat) : list (option nat) :=
  record_order (shuffledIndices key n) 0 (repeat None n).

(** [shuffledFragments[newIndex] = fragments[originalIndex]]; an index
    outside [fragments] would read [undefined]. *)
Definition shuffledFragments (key : jstring) (fragments : list jstring)
  : list (option jstring) :=
  map (nth_error fragments) (shuffledIndices key (length fragments)).

(** [frag => btoa(xorCipher(frag, key))]. *)
Definition encrypt (key : jstring) (frag : option jstring) : M jstring :=
  match frag with
  | Some f => native InvalidCharacterError (btoa (xorCipher f key))
  | None => throw (Native TypeError)
  end.

Definition wrapper (payload orderMap decoderKey : jstring) : jstring :=
  js "(function(){var p=" ++ payload ++ js ",m=" ++ orderMap
  ++ js ",k=atob(" ++ [dq] ++ decoderKey ++ [dq]
  ++ js "),x=function(t,k){return t.split('').map(function(c,i){return String.fromCharCode(c.charCodeAt(0)^k.charCodeAt(i%k.length))}).join('')},d=new Array(p.length);p.forEach(function(e,i){var oi=m.indexOf(i);d[oi]=x(atob(e),k)});(new Function(d.join('')))()})();".

Definition msg_encode_empty : jstring :=
  js "Code and key cannot be empty for Lana-Vortex.".
Definition encode_log : jstring :=
  js "Deobfuscation requires the original key. The result is a self-executing script.".

(** The tables [encode] builds before it writes the wrapper: the encrypted
    fragments in shuffled order and the permutation map. *)
Definition encode_tables (code key : jstring)
  : M (list jstring * list (option nat)) :=
  let fragments := fragment key code in
  encryptedFragments <- mapM (encrypt key) (shuffledFragments key fragments) ;;
  ret (encryptedFragments, originalOrderMap key (length fragments)).

Definition encode (code key : jstring) : M (jstring * jstring) :=
  if is_empty code || is_empty key then throw (Error msg_encode_empty)
  else
    tables <- encode_tables code key ;;
    let payload := JSON_stringify_strings (fst tables) in
    let orderMap := JSON_stringify_numbers (snd tables) in
    decoderKey <- native InvalidCharacterError (btoa key) ;;
    ret (trim (wrapper payload orderMap decoderKey), encode_log).

(** [/var p=(\[.*?\])/] and [/var m=(\[.*?\])/], anchored; the value is
    capture group 1. *)
Definition match_var (name : jstring) (s : jstring) : option jstring :=
  match strip_prefix (js "var " ++ name ++ js "=[") s with
  | Some r => option_map (cons 91) (lazy_to_bracket r)
  | None => None
  end.

(** [x === i] for a parsed value [x] and an index [i]. *)
Definition strictly_equals_index (v : JValue) (i : nat) : bool :=
  match v with
  | JNumber q => Qeq_bool q (inject_Z (Z.of_nat i))
  | _ => false
  end.

Fixpoint indexOf_from (pos : nat) (a : list JValue) (i : nat) : option nat :=
  match a with
  | [] => None
  | v :: r =>
      if strictly_equals_index v i then Some pos else indexOf_from (S pos) r i
  end.

Definition msg_decode_required : jstring :=
  js "Encoded code and key are required for decoding.".
Definition msg_invalid_format : jstring :=
  js "Invalid Lana-Vortex format. Cannot find payload or map.".
Definition msg_inconsistent : jstring :=
  js "Map is inconsistent. Cannot find original index.".
Definition msg_decoding_failed : jstring :=
  js "Decoding failed. The key might be incorrect or the code is corrupted. ".
Definition decode_log : jstring :=
  js "Successfully deobfuscated with the provided key.".

(** [decryptedShuffled.forEach((frag, i) => ...)]. *)
Fixpoint reorder (orderMap : list JValue) (decryptedShuffled : list jstring)
    (i : nat) (originalFragments : list (option jstring))
  : M (list (option jstring)) :=
  match decryptedShuffled with
  | [] => ret originalFragments
  | frag :: r =>
      match indexOf_from 0 orderMap i with
      | None => throw (Error msg_inconsistent)
      | Some originalIndex =>
          reorder orderMap r (S i) (array_set originalFragments originalIndex frag)
      end
  end.

(** [a.join('')]: a hole contributes nothing. *)
Definition join_holes (a : list (option jstring)) : jstring :=
  concat (map (fun o => match o with Some s => s | None => [] end) a).

Definition decode (encodedCode key : jstring) : M (jstring * jstring) :=
  if is_empty encodedCode || is_empty key then throw (Error msg_decode_required)
  else
    try_catch
      (match search (match_var (js "p")) encodedCode,
             search (match_var (js "m")) encodedCode with
       | Some payloadText, Some mapText =>
           parsedPayload <- native SyntaxError (JSON_parse payloadText) ;;
           parsedMap <- native SyntaxError (JSON_parse mapText) ;;
           payload <- as_array parsedPayload ;;
           decryptedShuffled <-
             mapM (fun frag =>
                     s <- native InvalidCharacterError (atob (ToString frag)) ;;
                     ret (xorCipher s key)) payload ;;
           (* [orderMap.indexOf] is reached only inside the callback *)
           orderMap <- (match decryptedShuffled with
                        | [] => ret []
                        | _ => as_array parsedMap
                        end) ;;
           originalFragments <-
             reorder orderMap decryptedShuffled 0 (repeat None (length payload)) ;;
           ret (join_holes originalFragments, decode_log)
       | _, _ => throw (Error msg_invalid_format)
       end)
      (fun e => throw (Error (msg_decoding_failed ++ exn_message e))).

End Codec.
End lanaVortex.

(** * A reference engine

    One engine the class admits, used to run the codecs on concrete
    inputs: an insertion sort that asks the comparator once per step, and a
    reader for the JSON texts the codecs write (arrays, objects, strings
    with escapes, integers, literals, white space; a number with a
    fraction or an exponent is outside what it reads). *)

Module Reference.

Fixpoint insert {St : Type} (cmp : nat -> nat -> St -> Q * St) (x : nat)
    (sorted : list nat) (st : St) : list nat * St :=
  match sorted with
  | [] => ([x], st)
  | y :: r =>
      let (v, st1) := cmp x y st in
      if Qle_bool v 0 then (x :: y :: r, st1)
      else let (r', st2) := insert cmp x r st1 in (y :: r', st2)
  end.

Fixpoint sort {St : Type} (cmp : nat -> nat -> St -> Q * St) (l : list nat)
    (st : St) : list nat * St :=
  match l with
  | [] => ([], st)
  | x :: r => let (s, st1) := sort cmp r st in insert cmp x s st1
  end.

Definition json_ws (c : N) : bool :=
  (c =? 32) || (c =? 9) || (c =? 10) || (c =? 13).

Fixpoint skip_ws (s : jstring) : jstring :=
  match s with
  | c :: r => if json_ws c then skip_ws r else s
  | [] => []
  end.

Definition hex_value (c : N) : option N :=
  if (48 <=? c) && (c <=? 57) then Some (c - 48)
  else if (97 <=? c) && (c <=? 102) then Some (c - 87)
  else if (65 <=? c) && (c <=? 70) then Some (c - 55)
  else None.

Definition simple_escape (c : N) : option N :=
  if c =? dq then Some dq
  else if c =? backslash then Some backslash
  else if c =? 47 then Some 47
  else if c =? 98 then Some 8
  else if c =? 102 then Some 12
  else if c =? 110 then Some 10
  else if c =? 114 then Some 13
  else if c =? 116 then Some 9
  else None.

Definition cons_fst {A B : Type} (a : A) (p : option (list A * B))
  : option (list A * B) :=
  match p with Some (l, b) => Some (a :: l, b) | None => None end.

(** After the opening quote: the string's value and the text after the
    closing quote. *)
Fixpoint read_string (s : jstring) : option (jstring * jstring) :=
  match s with
  | [] => None
  | c :: r =>
      if c =? dq then Some ([], r)
      else if c =? backslash then
        match r with
        | e :: r1 =>
            if e =? 117 then
              match r1 with
              | h1 :: h2 :: h3 :: h4 :: r2 =>
                  match hex_value h1, hex_value h2, hex_value h3, hex_value h4 with
                  | Some a, Some b, Some c', Some d =>
                      cons_fst (a * 4096 + b * 256 + c' * 16 + d) (read_string r2)
                  | _, _, _, _ => None
                  end
              | _ => None
              end
            else
              match simple_escape e with
              | Some x => cons_fst x (read_string r1)
              | None => None
              end
        | [] => None
        end
      else if c <? 32 then None
      else cons_fst c (read_string r)
  end.

Definition is_digit (c : N) : bool := (48 <=? c) && (c <=? 57).

Fixpoint read_digits (acc : N) (s : jstring) : N * jstring :=
  match s with
  | c :: r => if is_digit c then read_digits (acc * 10 + (c - 48)) r else (acc, s)
  | [] => (acc, [])
  end.

(** An integer: [-? (0 | [1-9][0-9]* )], not followed by a fraction or an
    exponent. *)
Definition read_integer (s : jstring) : option (Z * jstring) :=
  let (neg, s1) := match s with
                   | c :: r => if c =? 45 then (true, r) else (false, s)
                   | [] => (false, s)
                   end in
  match s1 with
  | d :: r =>
      if is_digit d then
        let (n, rest) := if d =? 48 then (0, r) else read_digits 0 s1 in
        match rest with
        | c :: _ =>
            if is_digit c || (c =? 46) || (c =? 101) || (c =? 69) then None
            else Some (if neg then (- Z.of_N n)%Z else Z.of_N n, rest)
        | [] => Some (if neg then (- Z.of_N n)%Z else Z.of_N n, rest)
        end
      else None
  | [] => None
  end.

(** The elements of an array after its first bracket or a comma. *)
Fixpoint read_elements (value : jstring -> option (JValue * jstring))
    (n : nat) (s : jstring) : option (list JValue * jstring) :=
  match n with
  | O => None
  | S n' =>
      match value s with
      | Some (v, r) =>
          match skip_ws r with
          | c :: r' =>
              if c =? 44 then cons_fst v (read_elements value n' r')
              else if c =? 93 then Some ([v], r')
              else None
          | [] => None
          end
      | None => None
      end
  end.

(** The members of an object after its brace or a comma. *)
Fixpoint read_members (value : jstring -> option (JValue * jstring))
    (n : nat) (s : jstring) : option (list (jstring * JValue) * jstring) :=
  match n with
  | O => None
  | S n' =>
      match skip_ws s with
      | q :: r =>
          if q =? dq then
            match read_string r with
            | Some (k, r1) =>
                match skip_ws r1 with
                | colon :: r2 =>
                    if colon =? 58 then
                      match value r2 with
                      | Some (v, r3) =>
                          match skip_ws r3 with
                          | c :: r4 =>
                              if c =? 44 then cons_fst (k, v) (read_members value n' r4)
                              else if c =? 125 then Some ([(k, v)], r4)
                              else None
                          | [] => None
                          end
                      | None => None
                      end
                    else None
                | [] => None
                end
            | None => None
            end
          else None
      | [] => None
      end
  end.

(** Property order of a parsed object: a repeated key keeps its first
    place and its last value.  (Keys that are array indices, which an
    engine lists first, are not reordered: no rename table has one.) *)
Fixpoint set_member (k : jstring) (v : JValue) (m : list (jstring * JValue))
  : list (jstring * JValue) :=
  match m with
  | [] => [(k, v)]
  | (k', v') :: r =>
      if jstring_eqb k k' then (k, v) :: r else (k', v') :: set_member k v r
  end.

Definition create_object (members : list (jstring * JValue)) : JValue :=
  JObject (fold_left (fun m kv => set_member (fst kv) (snd kv) m) members []).

Fixpoint read_value (fuel : nat) (s : jstring) : option (JValue * jstring) :=
  match fuel with
  | O => None
  | S f =>
      match skip_ws s with
      | [] => None
      | c :: r =>
          if c =? dq then
            match read_string r with
            | Some (x, rest) => Some (JString x, rest)
            | None => None
            end
          else if c =? 91 then
            match skip_ws r with
            | d :: r' =>
                if d =? 93 then Some (JArray [], r')
                else match read_elements (read_value f) (length r) r with
                     | Some (l, rest) => Some (JArray l, rest)
                     | None => None
                     end
            | [] => None
            end
          else if c =? 123 then
            match skip_ws r with
            | d :: r' =>
                if d =? 125 then Some (JObject [], r')
                else match read_members (read_value f) (length r) r with
                     | Some (m, rest) => Some (create_object m, rest)
                     | None => None
                     end
            | [] => None
            end
          else
            match strip_prefix (js "true") (c :: r),
                  strip_prefix (js "false") (c :: r),
                  strip_prefix (js "null") (c :: r) with
            | Some rest, _, _ => Some (JBool true, rest)
            | _, Some rest, _ => Some (JBool false, rest)
            | _, _, Some rest => Some (JNull, rest)
            | _, _, _ =>
                match read_integer (c :: r) with
                | Some (z, rest) => Some (JNumber (inject_Z z), rest)
                | None => None
                end
            end
      end
  end.

Definition JSON_parse (s : jstring) : option JValue :=
  match read_value (S (length s)) s with
  | Some (v, rest) => if is_empty (skip_ws rest) then Some v else None
  | None => None
  end.

Definition signed_decimal (z : Z) : jstring :=
  match z with
  | Zneg p => 45 :: decimal (Pos.to_nat p)
  | _ => decimal (Z.to_nat z)
  end.

Fixpoint ToString (v : JValue) : jstring :=
  match v with
  | JNull => js "null"
  | JBool true => js "true"
  | JBool false => js "false"
  | JNumber q => signed_decimal (Qnum q)
  | JString s => s
  | JArray l =>
      join (js ",")
        (map (fun x => match x with JNull => [] | _ => ToString x end) l)
  | JObject _ => js "[object Object]"
  end.

Definition native_message (e : native_exn) : jstring :=
  match e with
  | InvalidCharacterError => js "The string contains invalid characters."
  | SyntaxError => js "Unexpected token in JSON"
  | TypeError => js "not a function"
  end.

End Reference.

(** * Global replacement

    [s.replace(re, ...)] and the [exec] loop for a regular expression with
    the [g] flag.  An anchored matcher sees the character before the
    position (for [\b]) and the text from the position on, and answers
    with what it captured and how many code units it consumed.  After an
    empty match the next attempt is one position further; the end of the
    input is tried as well. *)

Inductive piece (A : Type) : Type :=
| Kept (c : N)      (* a code unit outside every match *)
| Hit (a : A).      (* a match, with what the matcher captured *)
Arguments Kept {A} c.
Arguments Hit {A} a.

Definition matcher (A : Type) : Type := option N -> jstring -> option (A * nat).

Fixpoint split_matches {A : Type} (m : matcher A) (prev : option N)
    (skip : nat) (s : jstring) : list (piece A) :=
  match s with
  | [] =>
      match skip with
      | O => match m prev [] with
             | Some (a, _) => [Hit a]
             | None => []
             end
      | S _ => []
      end
  | c :: r =>
      match skip with
      | S k => split_matches m (Some c) k r
      | O =>
          match m prev s with
          | Some (a, O) => Hit a :: Kept c :: split_matches m (Some c) 0 r
          | Some (a, S k) => Hit a :: split_matches m (Some c) k r
          | None => Kept c :: split_matches m (Some c) 0 r
          end
      end
  end.

Definition matches {A : Type} (m : matcher A) (s : jstring) : list (piece A) :=
  split_matches m None 0 s.

Definition hits {A : Type} (l : list (piece A)) : list A :=
  flat_map (fun p => match p with Kept _ => [] | Hit a => [a] end) l.

(** [s.replace(re, f)] where [f] maps what was captured to the new text. *)
Definition replace_all {A : Type} (m : matcher A) (f : A -> jstring)
    (s : jstring) : jstring :=
  flat_map (fun p => match p with Kept c => [c] | Hit a => f a end) (matches m s).

Fixpoint take_while (p : N -> bool) (s : jstring) : jstring :=
  match s with
  | c :: r => if p c then c :: take_while p r else []
  | [] => []
  end.

Definition is_letter (c : N) : bool :=
  ((65 <=? c) && (c <=? 90)) || ((97 <=? c) && (c <=? 122)).
Definition is_decimal_digit (c : N) : bool := (48 <=? c) && (c <=? 57).

(** [\w], and the assertion [\b] between the character before and the text
    ahead. *)
Definition is_word (c : N) : bool := is_letter c || is_decimal_digit c || (c =? 95).
Definition word_boundary (prev : option N) (s : jstring) : bool :=
  xorb (match prev with Some c => is_word c | None => false end)
       (match s with c :: _ => is_word c | [] => false end).

Fixpoint mem (x : jstring) (l : list jstring) : bool :=
  match l with
  | [] => false
  | y :: r => if list_eq_dec N.eq_dec x y then true else mem x r
  end.

(** * methods/lexical-scramble.js *)

Module lexicalScramble.

(** [/\/\*[\s\S]*?\*\/|\/\/.*/g]. *)
Fixpoint until_star_slash (s : jstring) : option nat :=
  match s with
  | a :: r =>
      match r with
      | b :: _ =>
          if (a =? 42) && (b =? 47) then Some 2%nat
          else option_map S (until_star_slash r)
      | [] => None
      end
  | [] => None
  end.

Fixpoint rest_of_line (s : jstring) : nat :=
  match s with
  | c :: r => if is_line_terminator c then O else S (rest_of_line r)
  | [] => O
  end.

Definition match_comment : matcher unit := fun _ s =>
  match s with
  | a :: b :: r =>
      if a =? 47 then
        if b =? 42 then option_map (fun n => (tt, 2 + n)%nat) (until_star_slash r)
        else if b =? 47 then Some (tt, (2 + rest_of_line r)%nat)
        else None
      else None
  | _ => None
  end.

(** The string-stripping expression of [getIdentifiers]: group 1 is the
    opening quote (double, single or backtick), the lazy loop
    [(?:(?=(\\?))\2.)] takes a backslash with the character after it, or one
    character, never a line terminator, and the first closing quote met
    (the back-reference to group 1) ends the match. *)
Fixpoint until_quote (q : N) (s : jstring) : option nat :=
  match s with
  | [] => None
  | c :: r =>
      if c =? q then Some 1%nat
      else if c =? backslash then
        match r with
        | d :: r' =>
            if is_line_terminator d then None
            else option_map (fun n => S (S n)) (until_quote q r')
        | [] => None
        end
      else if is_line_terminator c then None
      else option_map S (until_quote q r)
  end.

Definition match_quoted : matcher unit := fun _ s =>
  match s with
  | q :: r =>
      if (q =? dq) || (q =? sq) || (q =? 96)
      then option_map (fun n => (tt, S n)) (until_quote q r)
      else None
  | [] => None
  end.

(** [/[a-zA-Z_$][a-zA-Z0-9_$]*/g]. *)
Definition is_identifier_start (c : N) : bool :=
  is_letter c || (c =? 95) || (c =? 36).
Definition is_identifier_part (c : N) : bool :=
  is_identifier_start c || is_decimal_digit c.

Definition match_identifier : matcher jstring := fun _ s =>
  match s with
  | c :: r =>
      if is_identifier_start c then
        let run := take_while is_identifier_part r in
        Some (c :: run, S (length run))
      else None
  | [] => None
  end.

Definition keywords : list jstring :=
  map js ["break"; "case"; "catch"; "continue"; "debugger"; "default";
          "delete"; "do"; "else"; "finally"; "for"; "function"; "if"; "in";
          "instanceof"; "new"; "return"; "switch"; "this"; "throw"; "try";
          "typeof"; "var"; "let"; "const"; "void"; "while"; "with"; "class";
          "enum"; "export"; "extends"; "import"; "super"; "implements";
          "interface"; "package"; "private"; "protected"; "public"; "static";
          "yield"; "await"; "null"; "true"; "false"; "undefined"; "document";
          "window"; "console"]%string.

Definition erase {A : Type} (_ : A) : jstring := [].

(** The [Set] of identifiers, in insertion order. *)
Definition add_identifier (identifiers : list jstring) (name : jstring)
  : list jstring :=
  if mem name keywords then identifiers
  else if mem name identifiers then identifiers
  else identifiers ++ [name].

Definition getIdentifiers (code : jstring) : list jstring :=
  let cleanCode :=
    replace_all match_quoted erase (replace_all match_comment erase code) in
  fold_left add_identifier (hits (matches match_identifier cleanCode)) [].

Definition alphabet : jstring :=
  js "abcdefghijklmnopqrstuvwxyzABCDEFGHIJKLMNOPQRSTUVWXYZ_".

Definition inspect {A : Type} (a : A) : {b : A | a = b} := exist _ a eq_refl.

(** The body of [generateName]'s [do ... while (n >= 0)] loop, for an index
    [n >= 0]: [n = Math.floor(n / alphabet.length) - 1] is negative exactly
    when the quotient is 0. *)
Equations? generateName_loop (n : nat) (name : jstring) : jstring by wf n lt :=
  generateName_loop n name with inspect (n / length alphabet)%nat := {
    | exist _ O _ => nth (n mod length alphabet) alphabet 0 :: name
    | exist _ (S q) H =>
        generateName_loop q (nth (n mod length alphabet) alphabet 0 :: name) }.
Proof.
  change (fst (Nat.divmod n 52 0 52)) with (n / 53)%nat in H.
  pose proof (Nat.div_mod_eq n 53). lia.
Qed.

Definition generateName (n : nat) : jstring := generateName_loop n [].

(** [identifiers.sort((a, b) => b.length - a.length)]: the comparator is
    consistent, so the result is the stable sort by descending length. *)
Fixpoint insert_longest_first (x : jstring) (sorted : list jstring)
  : list jstring :=
  match sorted with
  | [] => [x]
  | y :: r =>
      if (length x <? length y)%nat then y :: insert_longest_first x r
      else x :: sorted
  end.

Definition sort_longest_first (l : list jstring) : list jstring :=
  fold_right insert_longest_first [] l.

(** [new RegExp(`\\b${name}\\b`, 'g')] for a name made of identifier
    characters: every character stands for itself but [$], which asserts
    the end of the input. *)
Inductive atom : Type :=
| Char (c : N)
| EndOfInput.

Definition pattern_of_name (name : jstring) : list atom :=
  map (fun c => if c =? 36 then EndOfInput else Char c) name.

Fixpoint match_atoms (atoms : list atom) (prev : option N) (s : jstring)
  : option (nat * option N * jstring) :=
  match atoms with
  | [] => Some (O, prev, s)
  | Char c :: atoms' =>
      match s with
      | d :: r =>
          if c =? d then
            match match_atoms atoms' (Some d) r with
            | Some (n, p, rest) => Some (S n, p, rest)
            | None => None
            end
          else None
      | [] => None
      end
  | EndOfInput :: atoms' =>
      match s with
      | [] => match_atoms atoms' prev []
      | _ :: _ => None
      end
  end.

Definition match_name (name : jstring) : matcher unit := fun prev s =>
  if word_boundary prev s then
    match match_atoms (pattern_of_name name) prev s with
    | Some (n, p, rest) => if word_boundary p rest then Some (tt, n) else None
    | None => None
    end
  else None.

(** The replacement text of [replace]: in a name of identifier characters
    only [$$] is a pattern, and stands for one [$]. *)
Fixpoint substitution (name : jstring) : jstring :=
  match name with
  | a :: r =>
      match r with
      | b :: r' =>
          if (a =? 36) && (b =? 36) then 36 :: substitution r'
          else a :: substitution r
      | [] => [a]
      end
  | [] => []
  end.

Definition rename (from to : jstring) (code : jstring) : jstring :=
  replace_all (match_name from) (fun _ => substitution to) code.

(** [identifiers.forEach((oldName, i) => ...)]: the rename table and the
    rewritten code. *)
Fixpoint scramble (identifiers : list jstring) (i : nat)
    (nameMap : list (jstring * jstring)) (scrambledCode : jstring)
  : list (jstring * jstring) * jstring :=
  match identifiers with
  | [] => (nameMap, scrambledCode)
  | oldName :: r =>
      let newName := generateName i in
      scramble r (S i) (nameMap ++ [(oldName, newName)])
               (rename oldName newName scrambledCode)
  end.

(** [/\s+/g]. *)
Definition match_spaces : matcher unit := fun _ s =>
  match take_while is_white_space s with
  | [] => None
  | run => Some (tt, length run)
  end.

Definition minify (code : jstring) : jstring :=
  replace_all match_spaces (fun _ => js " ")
    (replace_all match_comment erase code).

(** [JSON.stringify(Object.fromEntries(nameMap), null, 2)]; the keys are
    distinct identifiers, so the properties keep the order of the map. *)
Definition json_member (kv : jstring * jstring) : jstring :=
  js "  " ++ json_quote (fst kv) ++ js ": " ++ json_quote (snd kv).

Definition JSON_stringify_table (nameMap : list (jstring * jstring)) : jstring :=
  match nameMap with
  | [] => js "{}"
  | _ => js "{" ++ [10] ++ join (js "," ++ [10]) (map json_member nameMap)
         ++ [10] ++ js "}"
  end.

Definition encode (code : jstring) : M (jstring * jstring) :=
  let identifiers := sort_longest_first (getIdentifiers code) in
  let (nameMap, scrambledCode) := scramble identifiers 0 [] code in
  ret (minify scrambledCode, JSON_stringify_table nameMap).

Section Decode.
Context {E : Engine}.

Definition msg_map_required : jstring :=
  js "Deobfuscation map is required for Lexical Scramble.".
Definition msg_failed : jstring := js "Failed to parse map or deobfuscate. ".
Definition decode_log : jstring :=
  js "Successfully deobfuscated using the provided map.".

(** [entries.sort((a, b) => b[1].length - a[1].length)]. *)
Fixpoint insert_longest_value (x : jstring * jstring)
    (sorted : list (jstring * jstring)) : list (jstring * jstring) :=
  match sorted with
  | [] => [x]
  | y :: r =>
      if (length (snd x) <? length (snd y))%nat
      then y :: insert_longest_value x r
      else x :: sorted
  end.

(** [for (const [oldName, newName] of entries) ...]. *)
Fixpoint restore (entries : list (jstring * jstring)) (originalCode : jstring)
  : jstring :=
  match entries with
  | [] => originalCode
  | (oldName, newName) :: r => restore r (rename newName oldName originalCode)
  end.

(** The entries of a parsed table whose names are made of identifier
    characters; other tables build regular expressions outside
    [pattern_of_name]. *)
Fixpoint table_entries (members : list (jstring * JValue))
  : option (list (jstring * jstring)) :=
  match members with
  | [] => Some []
  | (k, JString v) :: r =>
      if forallb is_identifier_part k && forallb is_identifier_part v then
        option_map (cons (k, v)) (table_entries r)
      else None
  | _ => None
  end.

(** [decode]; [None] marks a table outside the modelled fragment. *)
Definition decode (scrambledCode mapJson : jstring)
  : option (M (jstring * jstring)) :=
  if is_empty mapJson then Some (throw (Error msg_map_required))
  else
    match JSON_parse mapJson with
    | None => Some (throw (Error (msg_failed ++ exn_message (Native SyntaxError))))
    | Some JNull => Some (throw (Error (msg_failed ++ exn_message (Native TypeError))))
    | Some (JObject members) =>
        match table_entries members with
        | Some entries =>
            Some (ret (restore (fold_right insert_longest_value [] entries)
                               scrambledCode,
                       decode_log))
        | None => None
        end
    | Some _ => None
    end.

End Decode.
End lexicalScramble.

(** * methods/string-conceal.js *)

Module stringConceal.

(** One alternative of [stringRegex], after its opening quote [q]: the
    greedy loop over [[^q\\]|\\.] and the closing quote.  The value is the
    captured content and the number of code units consumed. *)
Fixpoint until_close (q : N) (s : jstring) : option (jstring * nat) :=
  match s with
  | [] => None
  | c :: r =>
      if c =? q then Some ([], 1%nat)
      else if c =? backslash then
        match r with
        | d :: r' =>
            if is_line_terminator d then None
            else match until_close q r' with
                 | Some (x, n) => Some (c :: d :: x, S (S n))
                 | None => None
                 end
        | [] => None
        end
      else match until_close q r with
           | Some (x, n) => Some (c :: x, S n)
           | None => None
           end
  end.

(** [stringRegex]: a double-quoted or a single-quoted literal; the
    capture is the group that took part, which the callback extracts. *)
Definition match_literal : matcher jstring := fun _ s =>
  match s with
  | c :: r =>
      if (c =? dq) || (c =? sq) then
        match until_close c r with
        | Some (x, n) => Some (x, S n)
        | None => None
        end
      else None
  | [] => None
  end.

Definition placeholder_name : jstring := js "__DECRYPT_PLACEHOLDER__".

(** The callback's return values, [stringIndex] counting the matches. *)
Fixpoint place_holders (pieces : list (piece jstring)) (stringIndex : nat)
  : jstring :=
  match pieces with
  | [] => []
  | Kept c :: r => c :: place_holders r stringIndex
  | Hit _ :: r =>
      placeholder_name ++ js "(" ++ decimal stringIndex ++ js ")"
      ++ place_holders r (S stringIndex)
  end.

(** [.*?\)] anchored: the capture and the code units consumed. *)
Fixpoint lazy_to_paren (s : jstring) : option (jstring * nat) :=
  match s with
  | [] => None
  | c :: r =>
      if c =? 41 then Some ([], 1%nat)
      else if is_line_terminator c then None
      else match lazy_to_paren r with
           | Some (x, n) => Some (c :: x, S n)
           | None => None
           end
  end.

(** [/__DECRYPT_PLACEHOLDER__\((.*?)\)/g]. *)
Definition match_placeholder : matcher jstring := fun _ s =>
  match strip_prefix (placeholder_name ++ js "(") s with
  | Some r =>
      match lazy_to_paren r with
      | Some (x, n) => Some (x, (length placeholder_name + 1 + n)%nat)
      | None => None
      end
  | None => None
  end.

(** [Math.random().toString(36).substring(2, 6)]. *)
Definition random_suffix : M jstring :=
  t <- Math_random_base36 ;; ret (firstn 4 (skipn 2 t)).

Definition msg_key_required : jstring :=
  js "A secret key is required for String Concealment.".
Definition log_no_strings : jstring := js "No strings found to conceal.".

Definition decoderLogic (arrayName funcName encryptedJson encodedKey : jstring)
  : jstring :=
  js "var " ++ arrayName ++ js "=" ++ encryptedJson ++ js ";var " ++ funcName
  ++ js "=function(i){var k=" ++ [dq] ++ encodedKey ++ [dq]
  ++ js ";return atob(" ++ arrayName
  ++ js "[i]).split('').map(function(c,j){return String.fromCharCode(c.charCodeAt(0)^atob(k).charCodeAt(j%atob(k).length))}).join('')};".

Definition encode_log (count : nat) : jstring :=
  js "Concealed " ++ decimal count
  ++ js " strings. Deobfuscation can reveal the strings but not reconstruct the code automatically.".

(** The string literals of the input: what the first pass pushes on
    [strings], in order. *)
Definition literals (code : jstring) : list jstring :=
  hits (matches match_literal code).

(** The replacement text [`${funcName}($1)`]; a name of base-36 digits
    holds no [$] pattern. *)
Definition decoder_call (funcName capture : jstring) : jstring :=
  funcName ++ js "(" ++ capture ++ js ")".

Definition encode (code key : jstring) : M (jstring * jstring) :=
  if is_empty key then throw (Error msg_key_required)
  else
    let pieces := matches match_literal code in
    let strings := hits pieces in
    let codeWithoutStrings := place_holders pieces 0 in
    match strings with
    | [] => ret (code, log_no_strings)
    | _ =>
        encryptedStrings <-
          mapM (fun s => native InvalidCharacterError (btoa (xorCipher s key)))
               strings ;;
        suffixS <- random_suffix ;;
        suffixD <- random_suffix ;;
        let arrayName := js "_S" ++ suffixS in
        let funcName := js "_D" ++ suffixD in
        encodedKey <- native InvalidCharacterError (btoa key) ;;
        ret (decoderLogic arrayName funcName
               (JSON_stringify_strings encryptedStrings) encodedKey
             ++ replace_all match_placeholder (decoder_call funcName)
                  codeWithoutStrings,
             encode_log (length strings))
    end.

Definition is_alphanumeric (c : N) : bool := is_letter c || is_decimal_digit c.

(** [(\[.*?\]);] after the opening bracket: the shortest run of
    non-terminators that ends in a closing bracket followed by a
    semicolon.  The value is the run with its bracket. *)
Fixpoint lazy_to_bracket_semicolon (s : jstring) : option jstring :=
  match s with
  | [] => None
  | c :: r =>
      if (c =? 93) && (match r with d :: _ => d =? 59 | [] => false end)
      then Some [93]
      else if is_line_terminator c then None
      else option_map (cons c) (lazy_to_bracket_semicolon r)
  end.

(** [/var (_S[a-zA-Z0-9]+)=(\[.*?\]);/] anchored; the value is group 2. *)
Definition match_array (s : jstring) : option jstring :=
  match strip_prefix (js "var _S") s with
  | Some r =>
      match take_while is_alphanumeric r with
      | [] => None
      | run =>
          match strip_prefix (js "=[") (skipn (length run) r) with
          | Some r' => option_map (cons 91) (lazy_to_bracket_semicolon r')
          | None => None
          end
      end
  | None => None
  end.

(** [/var k=.([a-zA-Z0-9=]+).;/] anchored, the dots standing for the
    double quotes of the expression; the value is group 1. *)
Definition is_key_char (c : N) : bool := is_alphanumeric c || (c =? 61).

Definition match_key (s : jstring) : option jstring :=
  match strip_prefix (js "var k=" ++ [dq]) s with
  | Some r =>
      match take_while is_key_char r with
      | [] => None
      | run =>
          match strip_prefix [dq; 59] (skipn (length run) r) with
          | Some _ => Some run
          | None => None
          end
      end
  | None => None
  end.

Definition msg_decode_key_required : jstring :=
  js "A secret key is required to reveal strings.".
Definition msg_not_found : jstring :=
  js "Could not find the concealed string array or key in the code.".
Definition msg_incorrect_key : jstring := js "The provided key is incorrect.".
Definition msg_failed : jstring := js "Failed to reveal strings. ".
Definition decode_result : jstring :=
  js "// Code cannot be automatically reconstructed." ++ [10]
  ++ js "// See the map/log for the list of revealed strings.".

(** [decryptedStrings.map((s, i) => ...).join('\n')] under its heading. *)
Fixpoint reveal_lines (i : nat) (l : list jstring) : list jstring :=
  match l with
  | [] => []
  | s :: r => (decimal i ++ js ": " ++ [dq] ++ s ++ [dq]) :: reveal_lines (S i) r
  end.

Definition reveal_log (decryptedStrings : list jstring) : jstring :=
  js "Revealed strings from the concealed array:" ++ [10; 10]
  ++ join [10] (reveal_lines 0 decryptedStrings).

Section Decode.
Context {E : Engine}.

Definition decode (code key : jstring) : M (jstring * jstring) :=
  if is_empty key then throw (Error msg_decode_key_required)
  else
    try_catch
      (match search match_array code, search match_key code with
       | Some arrayText, Some encodedKey =>
           parsed <- native SyntaxError (JSON_parse arrayText) ;;
           ownKey <- native InvalidCharacterError (btoa key) ;;
           if jstring_eqb ownKey encodedKey then
             encryptedStrings <- as_array parsed ;;
             decryptedStrings <-
               mapM (fun s =>
                       t <- native InvalidCharacterError (atob (ToString s)) ;;
                       ret (xorCipher t key)) encryptedStrings ;;
             ret (decode_result, reveal_log decryptedStrings)
           else throw (Error msg_incorrect_key)
       | _, _ => throw (Error msg_not_found)
       end)
      (fun e => throw (Error (msg_failed ++ exn_message e))).

End Decode.
End stringConceal.

(** * main.js

    The script that wires the codecs to the page.  A page is the state of
    the controls the script reads and writes.  A field holds what the
    script last assigned to the property; for the three text panes, whose
    [value] the script reads back, it holds what the control then returns,
    which is the browser's business: see [Document]. *)

Class Document : Type := {
  (** What [pane.value] returns after [pane.value = s].  The panes hold
      programs of several lines, and the control for that returns the text
      with its line breaks normalised: a text without a carriage return
      comes back as it was set. *)
  value_after_set : jstring -> jstring;
  value_after_set_plain : forall s,
      forallb (fun c => negb (c =? 13)) s = true -> value_after_set s = s
}.

(** The control of a text of several lines: in the value it returns,
    every CR LF and every other CR is a LF. *)
Fixpoint normalize_newlines (s : jstring) : jstring :=
  match s with
  | [] => []
  | c :: r =>
      if c =? 13 then
        10 :: match r with
              | d :: r' => if d =? 10 then normalize_newlines r' else normalize_newlines r
              | [] => []
              end
      else c :: normalize_newlines r
  end.

Module main.

(** The keys of [methods]: the selector is taken to offer these values and
    no other. *)
Inductive method : Type :=
| lana_vortex
| lexical_scramble
| string_conceal.

Record method_entry : Type := mkEntry {
  requiresKey : bool;
  canDeobfuscate : bool;
  deobfuscateRequiresMap : bool
}.

Definition methods (m : method) : method_entry :=
  match m with
  | lana_vortex => mkEntry true true false
  | lexical_scramble => mkEntry false true true
  | string_conceal => mkEntry true true false
  end.

Record Page : Type := mkPage {
  methodSelect_value : method;
  secretKeyInput_value : jstring;
  codeInput_value : jstring;
  codeOutput_value : jstring;
  mapOutput_value : jstring;
  mapOutput_placeholder : jstring;
  keyInputContainer_display : jstring;
  deobfuscateBtn_display : jstring;
  notification_textContent : jstring;
  notification_backgroundColor : jstring;
  notification_show : bool;          (* the class [show] *)
  timeouts : nat                     (* callbacks handed to [setTimeout], yet to run *)
}.

Definition updateUI (p : Page) : Page :=
  let selectedMethod := methods (methodSelect_value p) in
  mkPage (methodSelect_value p) (secretKeyInput_value p) (codeInput_value p)
    (codeOutput_value p) (mapOutput_value p)
    (if deobfuscateRequiresMap selectedMethod
     then js "Peta untuk deobfuscation akan muncul di sini. Anda membutuhkannya untuk membalikkan proses."
     else js "Log proses atau informasi tambahan akan muncul di sini.")
    (if requiresKey selectedMethod then js "block" else js "none")
    (if canDeobfuscate selectedMethod then js "inline-flex" else js "none")
    (notification_textContent p) (notification_backgroundColor p)
    (notification_show p) (timeouts p).

Definition showNotification (message : jstring) (isError : bool) (p : Page) : Page :=
  mkPage (methodSelect_value p) (secretKeyInput_value p) (codeInput_value p)
    (codeOutput_value p) (mapOutput_value p) (mapOutput_placeholder p)
    (keyInputContainer_display p) (deobfuscateBtn_display p)
    message
    (if isError then js "#da3633" else js "#238636")
    true
    (S (timeouts p)).

(** The callback of [setTimeout]: [notification.classList.remove('show')]. *)
Definition notification_timeout (p : Page) : Page :=
  mkPage (methodSelect_value p) (secretKeyInput_value p) (codeInput_value p)
    (codeOutput_value p) (mapOutput_value p) (mapOutput_placeholder p)
    (keyInputContainer_display p) (deobfuscateBtn_display p)
    (notification_textContent p) (notification_backgroundColor p)
    false
    (pred (timeouts p)).

Section Handlers.
Context {E : Engine} {D : Document}.

Definition set_codeInput (s : jstring) (p : Page) : Page :=
  mkPage (methodSelect_value p) (secretKeyInput_value p) (value_after_set s)
    (codeOutput_value p) (mapOutput_value p) (mapOutput_placeholder p)
    (keyInputContainer_display p) (deobfuscateBtn_display p)
    (notification_textContent p) (notification_backgroundColor p)
    (notification_show p) (timeouts p).

Definition set_codeOutput (s : jstring) (p : Page) : Page :=
  mkPage (methodSelect_value p) (secretKeyInput_value p) (codeInput_value p)
    (value_after_set s) (mapOutput_value p) (mapOutput_placeholder p)
    (keyInputContainer_display p) (deobfuscateBtn_display p)
    (notification_textContent p) (notification_backgroundColor p)
    (notification_show p) (timeouts p).

Definition set_mapOutput (s : jstring) (p : Page) : Page :=
  mkPage (methodSelect_value p) (secretKeyInput_value p) (codeInput_value p)
    (codeOutput_value p) (value_after_set s) (mapOutput_placeholder p)
    (keyInputContainer_display p) (deobfuscateBtn_display p)
    (notification_textContent p) (notification_backgroundColor p)
    (notification_show p) (timeouts p).

(** [selectedMethod.handler.encode(code, key)]; [lexicalScramble.encode]
    takes the code only. *)
Definition handler_encode (m : method) (code key : jstring) : M (jstring * jstring) :=
  match m with
  | lana_vortex => lanaVortex.encode code key
  | lexical_scramble => lexicalScramble.encode code
  | string_conceal => stringConceal.encode code key
  end.

(** [selectedMethod.handler.decode(code, arg)]; [None] where
    [lexicalScramble.decode] is outside its modelled fragment. *)
Definition handler_decode (m : method) (code arg : jstring)
  : option (M (jstring * jstring)) :=
  match m with
  | lana_vortex => Some (lanaVortex.decode code arg)
  | lexical_scramble => lexicalScramble.decode code arg
  | string_conceal => Some (stringConceal.decode code arg)
  end.

(** [x || fallback] for a string [x]. *)
Definition or_else (x fallback : jstring) : jstring :=
  if is_empty x then fallback else x.

(** The listener of the obfuscate button. *)
Definition obfuscateBtn_click (p : Page) : M Page :=
  let selectedMethod := methodSelect_value p in
  let code := codeInput_value p in
  let key := secretKeyInput_value p in
  if is_empty code
  then ret (showNotification (js "Kode sumber tidak boleh kosong!") true p)
  else
    try_catch
      (r <- handler_encode selectedMethod code key ;;
       let (result, map) := r in
       let p1 := set_codeOutput result p in
       let p2 :=
         set_mapOutput
           (or_else map (js "Tidak ada peta/log yang dihasilkan untuk metode ini."))
           p1 in
       ret (showNotification (js "Kode berhasil di-obfuscate!") false p2))
      (fun e => ret (showNotification (js "Error: " ++ exn_message e) true p)).

(** The listener of the deobfuscate button: it reads the code from the
    output pane and, as the method asks, the map pane or the key. *)
Definition deobfuscateBtn_click (p : Page) : option (M Page) :=
  let selectedMethod := methodSelect_value p in
  let code := codeOutput_value p in
  let key := secretKeyInput_value p in
  let map := mapOutput_value p in
  if is_empty code
  then Some (ret (showNotification (js "Tidak ada output untuk di-deobfuscate!") true p))
  else
    let arg := if deobfuscateRequiresMap (methods selectedMethod) then map else key in
    match handler_decode selectedMethod code arg with
    | None => None
    | Some run =>
        Some
          (try_catch
             (r <- run ;;
              let (result, log) := r in
              let p1 := set_codeInput result p in
              let p2 := set_mapOutput (or_else log (js "Proses deobfuscation selesai.")) p1 in
              ret (showNotification (js "Proses deobfuscate berhasil!") false p2))
             (fun e => ret (showNotification (js "Error: " ++ exn_message e) true p)))
    end.

End Handlers.
End main.

(** * Vocabulary of the statements *)

(** ** The order of generated names, and the recurrence as specified *)

Module NameOrder.
Import lexicalScramble.

(** The recurrence as the specification words it, with 52. *)
Equations? spec_name_loop (n : nat) (name : jstring) : jstring by wf n lt :=
  spec_name_loop n name with inspect (n / 52)%nat := {
    | exist _ O _ => nth (n mod 52) alphabet 0 :: name
    | exist _ (S q) H => spec_name_loop q (nth (n mod 52) alphabet 0 :: name) }.
Proof.
  change (fst (Nat.divmod n 51 0 51)) with (n / 52)%nat in H.
  pose proof (Nat.div_mod_eq n 52). lia.
Qed.

Definition spec_name (n : nat) : jstring := spec_name_loop n [].

(** The place of a character in [alphabet] (53 when it is not there). *)
Fixpoint rank_in (l : jstring) (c : N) : nat :=
  match l with
  | [] => O
  | x :: r => if x =? c then O else S (rank_in r c)
  end.

Definition rank : N -> nat := rank_in alphabet.

(** The order of the generated sequence [a, b, ..., _, aa, ab, ...]:
    shorter names first, names of one length by the alphabet's order. *)
Fixpoint lex_ltb (s t : jstring) : bool :=
  match s, t with
  | c :: s', d :: t' =>
      (rank c <? rank d)%nat || ((rank c =? rank d)%nat && lex_ltb s' t')
  | _, _ => false
  end.

Definition name_ltb (s t : jstring) : bool :=
  (length s <? length t)%nat || ((length s =? length t)%nat && lex_ltb s t).

End NameOrder.

(** ** The renderings of random numbers *)

Definition is_base36_digit (c : N) : bool :=
  is_decimal_digit c || ((97 <=? c) && (c <=? 122)).

(** What [Math.random().toString(36)] can be: [0], or [0.] and base-36
    digits. *)
Definition base36_rendering (t : jstring) : Prop :=
  t = js "0"
  \/ exists d, d <> [] /\ forallb is_base36_digit d = true /\ t = js "0." ++ d.

(** The two draws [stringConceal.encode] makes are renderings, and the
    first (for the array's name) is not of the number 0. *)
Definition random_ok (w : World) : Prop :=
  base36_rendering (random_tape w (drawn w))
  /\ random_tape w (drawn w) <> js "0"
  /\ base36_rendering (random_tape w (S (drawn w))).

(** ** The enumeration of revealed strings *)

(** [log] is the heading followed by one line per string, in order: line
    [i] reads [i: "s"] for the [i]-th string [s]. *)
Definition lists_in_order (log : jstring) (strings : list jstring) : Prop :=
  exists lines,
    log = js "Revealed strings from the concealed array:" ++ [10; 10] ++ join [10] lines
    /\ length lines = length strings
    /\ forall i s, nth_error strings i = Some s ->
                   nth_error lines i = Some (decimal i ++ js ": " ++ [dq] ++ s ++ [dq]).

(** ** Words for the further properties *)

(** The values the closure [seededRandom(seed)] returns on its first [k]
    calls. *)
Fixpoint draws (k : nat) (seed : Z) : list Q :=
  match k with
  | O => []
  | S k' => let (r, seed') := lanaVortex.seededRandom seed in r :: draws k' seed'
  end.

(** The fragments of [code] in the order the shuffle gives them. *)
Definition shuffled {E : Engine} (key code : jstring) : list jstring :=
  map (fun i => nth i (lanaVortex.fragment key code) [])
      (lanaVortex.shuffledIndices key (length (lanaVortex.fragment key code))).

(** What [JSON.parse] makes of an element of a serialised map. *)
Definition number_or_null (x : option nat) : JValue :=
  match x with
  | Some n => JNumber (inject_Z (Z.of_nat n))
  | None => JNull
  end.

(** The exceptions that can reach the [catch] clause of
    [lanaVortex.decode], and of [stringConceal.decode]. *)
Definition decode_cause (e : exn) : Prop :=
  e = Error lanaVortex.msg_invalid_format \/ e = Error lanaVortex.msg_inconsistent
  \/ e = Native SyntaxError \/ e = Native TypeError
  \/ e = Native InvalidCharacterError.

Definition reveal_cause (e : exn) : Prop :=
  e = Error stringConceal.msg_not_found \/ e = Error stringConceal.msg_incorrect_key
  \/ e = Native SyntaxError \/ e = Native TypeError
  \/ e = Native InvalidCharacterError.

(** A name as [identifierRegex] finds it. *)
Definition identifier_shaped (name : jstring) : Prop :=
  exists c r, name = c :: r /\ lexicalScramble.is_identifier_start c = true
              /\ forallb lexicalScramble.is_identifier_part r = true.

(** What [getIdentifiers] scans: the code without comments and strings. *)
Definition cleanCode (code : jstring) : jstring :=
  replace_all lexicalScramble.match_quoted lexicalScramble.erase
    (replace_all lexicalScramble.match_comment lexicalScramble.erase code).

Definition not_shorter (a b : jstring) : Prop := (length b <= length a)%nat.

(** The artifact [stringConceal.encode] writes when every literal and the
    key can be encoded: the two suffixes are
    [Math.random().toString(36).substring(2, 6)] of the next two draws. *)
Definition concealed (code key : jstring) (w : World) : jstring :=
  let arrayName := js "_S" ++ firstn 4 (skipn 2 (random_tape w (drawn w))) in
  let funcName := js "_D" ++ firstn 4 (skipn 2 (random_tape w (S (drawn w)))) in
  stringConceal.decoderLogic arrayName funcName
    (JSON_stringify_strings
       (map (fun s => b64_encode (xorCipher s key)) (stringConceal.literals code)))
    (b64_encode key)
  ++ replace_all stringConceal.match_placeholder (stringConceal.decoder_call funcName)
       (stringConceal.place_holders (matches stringConceal.match_literal code) 0).


(** The text as [\b] sees it: maximal runs of [\w] characters, the words,
    and the characters between them. *)
Inductive token : Type :=
| Word (w : jstring)     (* a maximal run of [\w] characters *)
| Other (c : N).         (* a character outside [\w] *)

Fixpoint tokens (s : jstring) : list token :=
  match s with
  | [] => []
  | c :: r =>
      if is_word c then
        match tokens r with
        | Word w :: t => Word (c :: w) :: t
        | t => Word [c] :: t
        end
      else Other c :: tokens r
  end.

Definition token_text (t : token) : jstring :=
  match t with Word w => w | Other c => [c] end.

Definition untokens (l : list token) : jstring := concat (map token_text l).

(** The words of a text. *)
Definition words (s : jstring) : list jstring :=
  flat_map (fun t => match t with Word w => [w] | Other _ => [] end) (tokens s).

(** A change of the words that leaves the rest of the text alone. *)
Definition map_words (f : jstring -> jstring) (t : token) : token :=
  match t with Word w => Word (f w) | Other c => Other c end.

(** [to] for the word [name], every other word as it is. *)
Definition swap (name to w : jstring) : jstring :=
  if jstring_eqb w name then to else w.

Definition plain_word (w : jstring) : Prop := w <> [] /\ forallb is_word w = true.

(** ** Sample inputs *)

Definition sample_world : World := mkWorld (fun _ => js "0.4fzyo82mvyr") 0.

Definition sample_artifact : jstring :=
  lanaVortex.wrapper
    (JSON_stringify_strings
       (map js ["DQ0="; "Ag0="; "DxE="; "BEw="; "Dg4="; "Bko="; "UEs="]%string))
    (js "[1,2,4,3,0,5,6]") (js "YWI=").

(** [let x = "hi";] *)
Definition sample_code : jstring := js "let x = " ++ [dq] ++ js "hi" ++ [dq] ++ js ";".

Definition sample_concealed : jstring :=
  stringConceal.decoderLogic (js "_S4fzy") (js "_D4fzy")
    (JSON_stringify_strings [js "AwI="]) (js "aw==")
  ++ js "let x = _D4fzy(0);".

Definition sample_world_after : World := mkWorld (fun _ => js "0.4fzyo82mvyr") 2.

(** The tables of [sample_artifact], and a text that declares them the way
    [lanaVortex.decode] looks for them. *)
Definition sample_tables : list jstring * list (option nat) :=
  (map js ["DQ0="; "Ag0="; "DxE="; "BEw="; "Dg4="; "Bko="; "UEs="]%string,
   map Some [1; 2; 4; 3; 0; 5; 6]%nat).

Definition sample_declarations : jstring :=
  js "var p=" ++ JSON_stringify_strings (fst sample_tables)
  ++ js ";var m=" ++ JSON_stringify_numbers (snd sample_tables) ++ js ";".

(** A literal with the euro sign, a code unit above 255. *)
Definition sample_wide_code : jstring :=
  js "let x = " ++ [dq; 8364; dq] ++ js ";".

(** [var  $el\t= 1; // one], written with two blanks and a tab. *)
Definition sample_spaced_code : jstring :=
  js "var  $el" ++ [9] ++ js "= 1; // one".

(** 227 statements [v0;v1; ... v226;], each with a name of its own. *)
Definition sample_many_names : jstring :=
  concat (map (fun i => js "v" ++ decimal i ++ js ";") (seq 0 227)).

(** A function of three names. *)
Definition sample_function : jstring :=
  js "function add(first, second) {" ++ [10] ++ js "  return first + second;" ++ [10] ++ js "}".

(** The page before the first click: a method, a key and a source. *)
Definition sample_page (m : main.method) (key code : jstring) : main.Page :=
  main.mkPage m key code [] [] [] [] [] [] [] false 0.

(** The page after a click on obfuscate with Lana-Vortex, key [ab], on
    [console.log(1)]; and with String Concealment, key [k], on
    [sample_code]. *)
Definition sample_lana_page_after : main.Page :=
  main.mkPage main.lana_vortex (js "ab") (js "console.log(1)")
    sample_artifact lanaVortex.encode_log [] [] []
    (js "Kode berhasil di-obfuscate!") (js "#238636") true 1.

Definition sample_conceal_page_after : main.Page :=
  main.mkPage main.string_conceal (js "k") sample_code
    sample_concealed (stringConceal.encode_log 1) [] [] []
    (js "Kode berhasil di-obfuscate!") (js "#238636") true 1.


(** A world whose first draw is the number 0, rendered [0], and a program
    that declares an array under a name of the concealer's shape:
    [var _Sab=[1234];let x = "hi";]. *)
Definition sample_zero_world : World :=
  mkWorld (fun i => match i with O => js "0" | S _ => js "0.4fzyo82mvyr" end) 0.

Definition sample_array_code : jstring :=
  js "var _Sab=[1234];let x = " ++ [dq] ++ js "hi" ++ [dq] ++ js ";".

Definition sample_world_after_zero : World :=
  mkWorld (fun i => match i with O => js "0" | S _ => js "0.4fzyo82mvyr" end) 2.

(** What [stringConceal.encode] writes for them under the key [k]: the
    array is named [_S]. *)
Definition sample_zero_artifact : jstring :=
  stringConceal.decoderLogic (js "_S") (js "_D4fzy")
    (JSON_stringify_strings [js "AwI="]) (js "aw==")
  ++ js "var _Sab=[1234];let x = _D4fzy(0);".

(** * Proofs *)

(** ** Lists three at a time *)

Lemma list_ind3 {A : Type} (P : list A -> Prop) :
  P [] -> (forall a, P [a]) -> (forall a b, P [a; b]) ->
  (forall a b c r, P r -> P (a :: b :: c :: r)) ->
  forall l, P l.
Proof.
  intros H0 H1 H2 H3.
  assert (H : forall l, P l /\ (forall a, P (a :: l)) /\ (forall a b, P (a :: b :: l))).
  { induction l as [|x l [IH0 [IH1 IH2]]]; repeat split; auto. }
  intro l. apply H.
Qed.

(** ** The XOR cipher *)

Lemma xorCipher_from_involutive (key text : jstring) (i : nat) :
  xorCipher_from i (xorCipher_from i text key) key = text.
Proof.
  revert i. induction text as [|c t IH]; intro i; simpl; [reflexivity|].
  rewrite IH, N.lxor_assoc, N.lxor_nilpotent, N.lxor_0_r. reflexivity.
Qed.

Lemma xorCipher_involutive (text key : jstring) :
  xorCipher (xorCipher text key) key = text.
Proof. apply xorCipher_from_involutive. Qed.

(** ** Base64 *)

Definition sextet_values : list N := map N.of_nat (seq 0 64).

Lemma sextet_in (v : N) : v < 64 -> In v sextet_values.
Proof.
  intro H. unfold sextet_values.
  rewrite <- (N2Nat.id v). apply in_map. apply in_seq. lia.
Qed.

Lemma b64_char_all (P : N -> bool) :
  forallb (fun v => P (b64_char v)) sextet_values = true ->
  forall v, v < 64 -> P (b64_char v) = true.
Proof.
  intros H v Hv. rewrite forallb_forall in H. apply H, sextet_in, Hv.
Qed.

Lemma b64_index_char (v : N) : v < 64 -> b64_index (b64_char v) = Some v.
Proof.
  intro Hv.
  assert (H : forallb (fun v => match b64_index (b64_char v) with
                                | Some w => w =? v
                                | None => false
                                end) sextet_values = true) by (vm_compute; reflexivity).
  rewrite forallb_forall in H. specialize (H v (sextet_in v Hv)).
  destruct (b64_index (b64_char v)); [|discriminate].
  apply N.eqb_eq in H. congruence.
Qed.

Ltac div_mod_lia := zify; Z.to_euclidean_division_equations; lia.

Lemma sextet_bounds (a b c : N) :
  a < 256 -> b < 256 -> c < 256 ->
  a / 4 < 64 /\ (a mod 4) * 16 + b / 16 < 64 /\ (b mod 16) * 4 + c / 64 < 64
  /\ c mod 64 < 64 /\ (a mod 4) * 16 < 64 /\ (b mod 16) * 4 < 64.
Proof. intros. repeat split; div_mod_lia. Qed.

Lemma b64_encode_forallb (P : N -> bool) :
  forallb (fun v => P (b64_char v)) sextet_values = true -> P 61 = true ->
  forall s, is_latin1 s = true -> forallb P (b64_encode s) = true.
Proof.
  intros Hc Hp. pose proof (b64_char_all P Hc) as HP.
  unfold is_latin1.
  induction s as [|a|a b|a b c r IH] using list_ind3; intro H; simpl in *;
    repeat (apply andb_prop in H; destruct H as [?%N.ltb_lt H]).
  - reflexivity.
  - destruct (sextet_bounds a 0 0) as (?&?&?&?&?&?); try lia.
    rewrite !HP, Hp by assumption. reflexivity.
  - destruct (sextet_bounds a b 0) as (?&?&?&?&?&?); try lia.
    rewrite !HP, Hp by assumption. reflexivity.
  - destruct (sextet_bounds a b c) as (?&?&?&?&?&?); try lia.
    rewrite !HP, IH by assumption. reflexivity.
Qed.

(** The sextets of the encoding and its padding, apart. *)
Fixpoint sextets (s : list N) : list N :=
  match s with
  | a :: b :: c :: r =>
      a / 4 :: (a mod 4) * 16 + b / 16 :: (b mod 16) * 4 + c / 64 :: c mod 64
      :: sextets r
  | [a; b] => [a / 4; (a mod 4) * 16 + b / 16; (b mod 16) * 4]
  | [a] => [a / 4; (a mod 4) * 16]
  | [] => []
  end.

Definition padding (s : list N) : jstring :=
  match (length s mod 3)%nat with
  | 1%nat => [61; 61]
  | 2%nat => [61]
  | _ => []
  end.

Lemma padding_step (a b c : N) (r : list N) : padding (a :: b :: c :: r) = padding r.
Proof.
  unfold padding. replace (length (a :: b :: c :: r)) with (length r + 1 * 3)%nat
    by (simpl; lia).
  rewrite Nat.Div0.mod_add. reflexivity.
Qed.

Lemma b64_encode_split (s : list N) :
  b64_encode s = map b64_char (sextets s) ++ padding s.
Proof.
  induction s as [|a|a b|a b c r IH] using list_ind3; try reflexivity.
  rewrite padding_step. cbn [b64_encode sextets map app]. rewrite IH. reflexivity.
Qed.

Lemma sextets_bounded (s : list N) :
  is_latin1 s = true -> Forall (fun v => v < 64) (sextets s).
Proof.
  unfold is_latin1.
  induction s as [|a|a b|a b c r IH] using list_ind3; intro H; simpl in *;
    repeat (apply andb_prop in H; destruct H as [?%N.ltb_lt H]).
  - constructor.
  - destruct (sextet_bounds a 0 0) as (?&?&?&?&?&?); try lia. repeat constructor; assumption.
  - destruct (sextet_bounds a b 0) as (?&?&?&?&?&?); try lia. repeat constructor; assumption.
  - destruct (sextet_bounds a b c) as (?&?&?&?&?&?); try lia. repeat constructor; auto.
Qed.

Lemma b64_decode_sextets (s : list N) :
  is_latin1 s = true -> b64_decode (sextets s) = s.
Proof.
  unfold is_latin1.
  induction s as [|a|a b|a b c r IH] using list_ind3; intro H; simpl in *;
    repeat (apply andb_prop in H; destruct H as [?%N.ltb_lt H]).
  - reflexivity.
  - f_equal. div_mod_lia.
  - f_equal; [div_mod_lia|]. f_equal. div_mod_lia.
  - rewrite IH by assumption.
    f_equal; [div_mod_lia|]. f_equal; [div_mod_lia|]. f_equal. div_mod_lia.
Qed.

Lemma b64_indices_chars (l : list N) :
  Forall (fun v => v < 64) l -> b64_indices (map b64_char l) = Some l.
Proof.
  induction 1 as [|v l Hv _ IH]; simpl; [reflexivity|].
  rewrite b64_index_char, IH by assumption. reflexivity.
Qed.

Lemma filter_all {A : Type} (p : A -> bool) (l : list A) :
  forallb p l = true -> filter p l = l.
Proof.
  induction l as [|x l IH]; simpl; [reflexivity|].
  intro H. apply andb_prop in H. destruct H as [Hx Hl].
  rewrite Hx, IH by assumption. reflexivity.
Qed.

Lemma sextets_length (s : list N) :
  exists k : nat,
    length (sextets s)
    = (4 * k + match (length s mod 3)%nat with
               | 1 => 2 | 2 => 3 | _ => 0 end)%nat
    /\ (length s = 0 -> k = 0)%nat
    /\ ((length s mod 3 = 0)%nat -> length s <> 0%nat -> (0 < k)%nat).
Proof.
  induction s as [|a|a b|a b c r IH] using list_ind3.
  - exists 0%nat. repeat split; simpl; lia.
  - exists 0%nat. repeat split; simpl; try lia; try discriminate.
  - exists 0%nat. repeat split; simpl; try lia; try discriminate.
  - destruct IH as (k & Hk & _). exists (S k).
    replace (length (a :: b :: c :: r)) with (length r + 1 * 3)%nat by (simpl; lia).
    rewrite Nat.Div0.mod_add. cbn [sextets length]. rewrite Hk.
    repeat split; lia.
Qed.

Lemma b64_char_not_padding (v : N) : v < 64 -> (b64_char v =? 61) = false.
Proof.
  intro Hv.
  pose proof (b64_char_all (fun c => negb (c =? 61)) eq_refl v Hv) as H.
  simpl in H. destruct (b64_char v =? 61); [discriminate|reflexivity].
Qed.

Lemma last_char_not_padding (l : list N) (a : N) (r : list N) :
  Forall (fun v => v < 64) l -> rev (map b64_char l) = a :: r -> (a =? 61) = false.
Proof.
  intros Hl Hr.
  assert (Hin : In a (map b64_char l)).
  { apply in_rev. rewrite Hr. left. reflexivity. }
  apply in_map_iff in Hin. destruct Hin as (v & <- & Hv).
  rewrite Forall_forall in Hl. apply b64_char_not_padding, Hl, Hv.
Qed.

Lemma strip_padding_encode (s : list N) :
  is_latin1 s = true ->
  strip_padding (b64_encode s) = map b64_char (sextets s).
Proof.
  intro Hs. rewrite b64_encode_split.
  pose proof (sextets_bounded s Hs) as Hb.
  destruct (sextets_length s) as (k & Hk & Hk0 & Hk1).
  unfold strip_padding, padding.
  rewrite length_app, length_map, Hk.
  remember (length s mod 3)%nat as m eqn:Hm.
  assert (Hm3 : (m < 3)%nat) by (subst m; apply Nat.mod_upper_bound; lia).
  destruct m as [|[|[|m]]]; try lia; cbn [length].
  - rewrite app_nil_r.
    replace (4 * k + 0 + 0)%nat with (0 + k * 4)%nat by lia.
    rewrite Nat.Div0.mod_add. cbn [Nat.modulo Nat.eqb Nat.divmod fst snd Nat.sub].
    destruct (rev (map b64_char (sextets s))) as [|a [|b r]] eqn:Hr; try reflexivity.
    rewrite (last_char_not_padding _ _ _ Hb Hr). reflexivity.
  - replace (4 * k + 2 + 2)%nat with (0 + (k + 1) * 4)%nat by lia.
    rewrite Nat.Div0.mod_add. cbn [Nat.modulo Nat.eqb Nat.divmod fst snd Nat.sub].
    rewrite rev_app_distr. cbn [rev app]. cbn.
    apply rev_involutive.
  - replace (4 * k + 3 + 1)%nat with (0 + (k + 1) * 4)%nat by lia.
    rewrite Nat.Div0.mod_add. cbn [Nat.modulo Nat.eqb Nat.divmod fst snd Nat.sub].
    rewrite rev_app_distr. cbn [rev app].
    destruct (rev (map b64_char (sextets s))) as [|b r] eqn:Hr.
    + apply (f_equal (@length N)) in Hr. rewrite length_rev, length_map, Hk in Hr.
      simpl in Hr. lia.
    + cbn [N.eqb Pos.eqb]. rewrite (last_char_not_padding _ _ _ Hb Hr).
      change (rev r ++ [b]) with (rev (b :: r)).
      rewrite <- Hr. apply rev_involutive.
Qed.

Lemma atob_b64_encode (s : list N) :
  is_latin1 s = true -> atob (b64_encode s) = Some s.
Proof.
  intro Hs. unfold atob.
  rewrite filter_all.
  2:{ apply b64_encode_forallb; [vm_compute; reflexivity|reflexivity|exact Hs]. }
  rewrite strip_padding_encode by exact Hs.
  rewrite length_map.
  destruct (sextets_length s) as (k & Hk & _).
  rewrite Hk.
  assert (Hmod : (((4 * k + match (length s mod 3)%nat with
                             | 1 => 2 | 2 => 3 | _ => 0 end) mod 4) =? 1)%nat = false).
  { apply Nat.eqb_neq.
    rewrite Nat.add_comm, (Nat.mul_comm 4 k), Nat.Div0.mod_add.
    destruct (length s mod 3)%nat as [|[|[|m]]]; cbn; lia. }
  rewrite Hmod, b64_indices_chars by (apply sextets_bounded, Hs).
  simpl. rewrite b64_decode_sextets by exact Hs. reflexivity.
Qed.

Lemma atob_btoa (s t : jstring) : btoa s = Some t -> atob t = Some s.
Proof.
  unfold btoa. destruct (is_latin1 s) eqn:Hs; [|discriminate].
  intros [= <-]. apply atob_b64_encode, Hs.
Qed.

Lemma btoa_injective (s t e : jstring) : btoa s = Some e -> btoa t = Some e -> s = t.
Proof.
  intros Hs Ht. apply atob_btoa in Hs, Ht. congruence.
Qed.

Lemma btoa_chars (P : N -> bool) (s t : jstring) :
  forallb (fun v => P (b64_char v)) sextet_values = true -> P 61 = true ->
  btoa s = Some t -> forallb P t = true.
Proof.
  intros Hc Hp. unfold btoa. destruct (is_latin1 s) eqn:Hs; [|discriminate].
  intros [= <-]. apply b64_encode_forallb; assumption.
Qed.

(** ** Characters of the base64 alphabet in JSON text *)

Ltac cases_on_tests :=
  repeat match goal with
         | |- context [?a <=? ?b] => destruct (N.leb_spec a b)
         | |- context [?a <? ?b] => destruct (N.ltb_spec a b)
         | |- context [?a =? ?b] => destruct (N.eqb_spec a b)
         | H : context [?a <=? ?b] |- _ => destruct (N.leb_spec a b)
         | H : context [?a <? ?b] |- _ => destruct (N.ltb_spec a b)
         | H : context [?a =? ?b] |- _ => destruct (N.eqb_spec a b)
         end;
  simpl in *; try reflexivity; try discriminate; try lia.

Lemma is_b64_range (c : N) :
  is_b64 c = true -> 43 <= c <= 122 /\ c <> 91 /\ c <> 92 /\ c <> 93.
Proof. unfold is_b64, b64_index. cases_on_tests. Qed.

Lemma json_quote_body_b64 (s : jstring) :
  forallb is_b64 s = true -> json_quote_body s = s.
Proof.
  induction s as [|c r IH]; simpl; [reflexivity|].
  intro H. apply andb_prop in H. destruct H as [Hc Hr].
  apply is_b64_range in Hc.
  replace (is_lead_surrogate c) with false
    by (unfold is_lead_surrogate; cases_on_tests).
  replace (json_escape_unit c) with [c].
  - simpl. rewrite IH by assumption. reflexivity.
  - unfold json_escape_unit, is_trail_surrogate, dq, backslash. cases_on_tests.
Qed.

(** ** The reference engine keeps the laws *)

Lemma reference_insert_perm {St : Type} (cmp : nat -> nat -> St -> Q * St)
    (x : nat) (sorted : list nat) (st : St) :
  Permutation (x :: sorted) (fst (Reference.insert cmp x sorted st)).
Proof.
  revert st. induction sorted as [|y r IH]; intro st; simpl; [reflexivity|].
  destruct (cmp x y st) as [v st1]. destruct (Qle_bool v 0); [reflexivity|].
  specialize (IH st1). destruct (Reference.insert cmp x r st1) as [r' st2].
  simpl in *. rewrite perm_swap. apply perm_skip, IH.
Qed.

Lemma reference_sort_perm (St : Type) (cmp : nat -> nat -> St -> Q * St)
    (l : list nat) (st : St) :
  Permutation l (fst (Reference.sort cmp l st)).
Proof.
  revert st. induction l as [|x r IH]; intro st; simpl; [reflexivity|].
  specialize (IH st). destruct (Reference.sort cmp r st) as [s st1]. simpl in IH.
  rewrite <- reference_insert_perm. apply perm_skip, IH.
Qed.

Lemma read_string_b64 (s rest : jstring) :
  forallb is_b64 s = true ->
  Reference.read_string (s ++ dq :: rest) = Some (s, rest).
Proof.
  induction s as [|c r IH]; simpl.
  - intros _. reflexivity.
  - intro H. apply andb_prop in H. destruct H as [Hc Hr].
    apply is_b64_range in Hc. rewrite (IH Hr).
    unfold dq, backslash. cases_on_tests.
Qed.

Lemma read_value_string (f : nat) (s rest : jstring) :
  forallb is_b64 s = true ->
  Reference.read_value (S f) (json_quote s ++ rest) = Some (JString s, rest).
Proof.
  intro H. unfold json_quote. rewrite json_quote_body_b64 by exact H.
  cbn [app]. rewrite <- app_assoc. cbn [app].
  cbn [Reference.read_value Reference.skip_ws].
  change (Reference.json_ws dq) with false. cbn iota.
  change (dq =? dq) with true. cbn iota.
  rewrite read_string_b64 by exact H. reflexivity.
Qed.

Lemma read_elements_strings (f n : nat) (x : jstring) (l : list jstring)
    (rest : jstring) :
  Forall (fun s => forallb is_b64 s = true) (x :: l) -> (length l < n)%nat ->
  Reference.read_elements (Reference.read_value (S f)) n
    (join [44] (map json_quote (x :: l)) ++ 93 :: rest)
  = Some (map JString (x :: l), rest).
Proof.
  revert n x. induction l as [|y l IH]; intros n x Hall Hn.
  - destruct n as [|n]; [lia|]. inversion Hall as [|? ? Hx _]; subst.
    cbn [map join Reference.read_elements].
    rewrite read_value_string by exact Hx. reflexivity.
  - destruct n as [|n]; [simpl in Hn; lia|]. inversion Hall as [|? ? Hx Hl]; subst.
    change (join [44] (map json_quote (x :: y :: l)))
      with (json_quote x ++ [44] ++ join [44] (map json_quote (y :: l))).
    rewrite <- !app_assoc. cbn [Reference.read_elements].
    rewrite read_value_string by exact Hx.
    change ([44] ++ ?t) with (44 :: t).
    change (Reference.skip_ws (44 :: ?t)) with (44 :: t).
    change (44 =? 44) with true. cbn iota.
    rewrite (IH n y Hl) by (simpl in Hn; lia). reflexivity.
Qed.

Lemma read_value_array (f : nat) (r : jstring) (d : N) (r' : jstring) :
  Reference.skip_ws r = d :: r' -> (d =? 93) = false ->
  Reference.read_value (S f) (91 :: r)
  = match Reference.read_elements (Reference.read_value f) (length r) r with
    | Some (l, rest) => Some (JArray l, rest)
    | None => None
    end.
Proof.
  intros Hr Hd. cbn [Reference.read_value Reference.skip_ws].
  change (Reference.json_ws 91) with false. cbn iota.
  change (91 =? dq) with false. change (91 =? 91) with true. cbn iota.
  rewrite Hr, Hd. reflexivity.
Qed.

Lemma join_quote_length (x : jstring) (l : list jstring) :
  (length l < length (join [44%N] (map json_quote (x :: l))))%nat.
Proof.
  revert x. induction l as [|y l IH]; intro x.
  - simpl. lia.
  - change (join [44] (map json_quote (x :: y :: l)))
      with (json_quote x ++ [44] ++ join [44] (map json_quote (y :: l))).
    rewrite !length_app. specialize (IH y). simpl in *. lia.
Qed.

Lemma reference_parse_strings (l : list jstring) :
  Forall (fun s => forallb is_b64 s = true) l ->
  Reference.JSON_parse (JSON_stringify_strings l) = Some (JArray (map JString l)).
Proof.
  intro Hall. unfold Reference.JSON_parse, JSON_stringify_strings.
  change (js "[") with [91]. change (js "]") with [93]. change (js ",") with [44].
  destruct l as [|x l]; [reflexivity|].
  cbn [app length].
  remember (length (join [44] (map json_quote (x :: l)) ++ [93])) as n eqn:Hn.
  assert (Hq : exists t, join [44] (map json_quote (x :: l)) ++ [93] = dq :: t).
  { destruct l; cbn [map join]; unfold json_quote; cbn [app]; eauto. }
  destruct Hq as (t & Ht).
  rewrite (read_value_array (S n) _ dq t); [|rewrite Ht; reflexivity|reflexivity].
  rewrite read_elements_strings.
  - reflexivity.
  - exact Hall.
  - rewrite length_app. pose proof (join_quote_length x l). lia.
Qed.

(** The reference engine. *)
Definition reference_engine : Engine :=
  {| array_sort := @Reference.sort;
     array_sort_perm := reference_sort_perm;
     JSON_parse := Reference.JSON_parse;
     JSON_parse_strings := reference_parse_strings;
     ToString := Reference.ToString;
     ToString_string := fun s => eq_refl;
     native_message := Reference.native_message |}.

(** ** Computations that leave the world alone *)

Definition pure {A : Type} (m : M A) : Prop :=
  exists r : completion A, forall w, m w = (r, w).

Lemma pure_ret {A : Type} (a : A) : pure (ret a).
Proof. exists (Return a). reflexivity. Qed.

Lemma pure_throw {A : Type} (e : exn) : pure (@throw A e).
Proof. exists (Throw e). reflexivity. Qed.

Lemma pure_native {A : Type} (e : native_exn) (o : option A) : pure (native e o).
Proof. destruct o; [apply pure_ret|apply pure_throw]. Qed.

Lemma pure_bind {A B : Type} (m : M A) (k : A -> M B) :
  pure m -> (forall a, pure (k a)) -> pure (bind m k).
Proof.
  intros [r Hr] Hk. destruct r as [a|e].
  - destruct (Hk a) as [r' Hr']. exists r'. intro w. unfold bind.
    rewrite Hr. apply Hr'.
  - exists (Throw e). intro w. unfold bind. rewrite Hr. reflexivity.
Qed.

Lemma pure_mapM {A B : Type} (f : A -> M B) (l : list A) :
  (forall a, pure (f a)) -> pure (mapM f l).
Proof.
  intro Hf. induction l as [|a r IH]; simpl.
  - apply pure_ret.
  - apply pure_bind; [apply Hf|]. intro b.
    apply pure_bind; [exact IH|]. intro bs. apply pure_ret.
Qed.

Lemma pure_try_catch {A : Type} (body : M A) (handler : exn -> M A) :
  pure body -> (forall e, pure (handler e)) -> pure (try_catch body handler).
Proof.
  intros [r Hr] Hh. destruct r as [a|e].
  - exists (Return a). intro w. unfold try_catch. rewrite Hr. reflexivity.
  - destruct (Hh e) as [r' Hr']. exists r'. intro w. unfold try_catch.
    rewrite Hr. apply Hr'.
Qed.

Create HintDb pure.
#[local] Hint Resolve pure_ret pure_throw pure_native pure_bind pure_mapM
  pure_try_catch : pure.

Lemma pure_world {A : Type} (m : M A) (w w' : World) (r : completion A) :
  pure m -> m w = (r, w') -> w' = w.
Proof. intros [r0 H] Hm. rewrite H in Hm. congruence. Qed.

(** What a successful [mapM] returns, element by element. *)
Lemma mapM_Forall2 {A B : Type} (f : A -> M B) (l : list A) (bs : list B)
    (w w' : World) :
  mapM f l w = (Return bs, w') ->
  Forall2 (fun a b => exists w1 w2, f a w1 = (Return b, w2)) l bs.
Proof.
  revert bs w w'. induction l as [|a r IH]; intros bs w w'; simpl.
  - unfold ret. intros [= <- _]. constructor.
  - unfold bind at 1. destruct (f a w) as [[b|e] w1] eqn:Hf; [|discriminate].
    unfold bind at 1. destruct (mapM f r w1) as [[bs'|e] w2] eqn:Hm; [|discriminate].
    unfold ret. intros [= <- _]. constructor; [exists w, w1; exact Hf|].
    apply (IH _ _ _ Hm).
Qed.

(** ** Sparse-array assignment *)

Lemma array_set_length {A : Type} (a : list (option A)) (i : nat) (v : A) :
  (i < length a)%nat -> length (array_set a i v) = length a.
Proof.
  revert a. induction i as [|i IH]; intros [|x a] H; simpl in *; try lia.
  rewrite IH by lia. reflexivity.
Qed.

Lemma array_set_same {A : Type} (a : list (option A)) (i : nat) (v : A) :
  nth_error (array_set a i v) i = Some (Some v).
Proof.
  revert a. induction i as [|i IH]; intros [|x a]; simpl; auto.
Qed.

Lemma array_set_other {A : Type} (a : list (option A)) (i j : nat) (v : A) :
  (i < length a)%nat -> i <> j ->
  nth_error (array_set a i v) j = nth_error a j.
Proof.
  revert a j. induction i as [|i IH]; intros [|x a] [|j] H Hij; simpl in *;
    try lia; try reflexivity.
  apply IH; lia.
Qed.

Lemma all_some {A : Type} (a : list (option A)) :
  (forall x, (x < length a)%nat -> exists v, nth_error a x = Some (Some v)) ->
  exists l, a = map Some l.
Proof.
  induction a as [|o a IH]; intro H.
  - exists []. reflexivity.
  - destruct (H 0%nat) as [v Hv]; [simpl; lia|]. simpl in Hv. injection Hv as ->.
    destruct IH as [l ->].
    + intros x Hx. apply (H (S x)). simpl. lia.
    + exists (v :: l). reflexivity.
Qed.

(** ** Text facts: trimming, joined lists, decimal numbers *)

Lemma trim_wrapped (m : jstring) : trim (40 :: m ++ [59]) = 40 :: m ++ [59].
Proof.
  unfold trim. cbn [trim_start]. change (is_white_space 40) with false. cbn iota.
  cbn [rev]. rewrite rev_app_distr. cbn [rev app trim_start].
  change (is_white_space 59) with false. cbn iota.
  cbn [rev]. rewrite rev_app_distr, rev_involutive. reflexivity.
Qed.

Lemma forallb_join (P : N -> bool) (sep : jstring) (l : list jstring) :
  forallb P sep = true -> Forall (fun x => forallb P x = true) l ->
  forallb P (join sep l) = true.
Proof.
  intros Hsep Hl. induction Hl as [|x r Hx Hr IH]; [reflexivity|].
  destruct r as [|y r]; [exact Hx|].
  change (join sep (x :: y :: r)) with (x ++ sep ++ join sep (y :: r)).
  rewrite !forallb_app, Hx, Hsep, IH. reflexivity.
Qed.

Lemma uint_digits (d : Decimal.uint) :
  forallb is_decimal_digit (js (NilEmpty.string_of_uint d)) = true.
Proof. induction d; simpl; auto. Qed.

Lemma decimal_digits (n : nat) : forallb is_decimal_digit (decimal n) = true.
Proof.
  unfold decimal, NilZero.string_of_uint.
  destruct (Nat.to_uint n) eqn:Hd; try reflexivity; rewrite <- Hd; apply uint_digits.
Qed.

Lemma forallb_impl {A : Type} (P Q : A -> bool) (l : list A) :
  (forall x, P x = true -> Q x = true) -> forallb P l = true -> forallb Q l = true.
Proof.
  intros HPQ. induction l as [|x l IH]; simpl; [reflexivity|].
  intro H. apply andb_prop in H. destruct H as [Hx Hl].
  rewrite (HPQ x Hx), (IH Hl). reflexivity.
Qed.

Lemma strip_prefix_app (p s r : jstring) : strip_prefix p s = Some r -> s = p ++ r.
Proof.
  revert s. induction p as [|a p IH]; intros s; simpl.
  - intros [= ->]. reflexivity.
  - destruct s as [|b s]; [discriminate|].
    destruct (N.eqb_spec a b) as [->|]; [|discriminate].
    intro H. rewrite (IH _ H). reflexivity.
Qed.

(** ** Looking for two adjacent characters

    [pair_scan a b] tells whether [a] is somewhere directly followed by
    [b]; the flag says whether the character before the text was [a]. *)

Fixpoint pair_scan (a b : N) (after_a : bool) (s : jstring) : bool :=
  match s with
  | [] => false
  | c :: r => (after_a && (c =? b)) || pair_scan a b (c =? a) r
  end.

Definition ends_in (a : N) (after_a : bool) (s : jstring) : bool :=
  fold_left (fun _ c => c =? a) s after_a.

Lemma pair_scan_app (a b : N) (p : bool) (x y : jstring) :
  pair_scan a b p (x ++ y)
  = pair_scan a b p x || pair_scan a b (ends_in a p x) y.
Proof.
  revert p. induction x as [|c x IH]; intro p; simpl; [reflexivity|].
  rewrite IH, orb_assoc. reflexivity.
Qed.

Lemma ends_in_app (a : N) (p : bool) (x y : jstring) :
  ends_in a p (x ++ y) = ends_in a (ends_in a p x) y.
Proof. apply fold_left_app. Qed.

Lemma free_of_char (a b : N) (x : jstring) :
  forallb (fun c => negb (c =? a)) x = true ->
  pair_scan a b false x = false /\ ends_in a false x = false.
Proof.
  induction x as [|c x IH] using rev_ind; [auto|].
  rewrite forallb_app. intro H. apply andb_prop in H. destruct H as [Hx Hc].
  simpl in Hc. rewrite andb_true_r in Hc. apply negb_true_iff in Hc.
  destruct (IH Hx) as [H1 H2].
  rewrite pair_scan_app, ends_in_app, H1, H2. simpl. rewrite Hc. auto.
Qed.

Lemma pair_scan_any_state (a b : N) (p : bool) (s : jstring) :
  pair_scan a b false s = true -> pair_scan a b p s = true.
Proof.
  destruct s as [|c r]; simpl; [discriminate|].
  intros ->. apply orb_true_r.
Qed.

Lemma search_pair {A : Type} (m : jstring -> option A) (a b : N) :
  (forall s t, m s = Some t -> pair_scan a b false s = true) ->
  forall s t, search m s = Some t -> pair_scan a b false s = true.
Proof.
  intros Hm. induction s as [|c r IH]; intros t; simpl.
  - destruct (m []) eqn:H0; [|discriminate]. intros _. apply (Hm _ _ H0).
  - destruct (m (c :: r)) eqn:H0.
    + intros _. apply (Hm _ _ H0).
    + intro H. simpl. apply (pair_scan_any_state a b (c =? a) r (IH _ H)).
Qed.

Lemma pair_scan_skip (a b : N) (x y : jstring) :
  pair_scan a b false x = false -> ends_in a false x = false ->
  pair_scan a b false (x ++ y) = pair_scan a b false y.
Proof. intros H1 H2. rewrite pair_scan_app, H1, H2. reflexivity. Qed.

Lemma pair_scan_skip_free (a b : N) (x y : jstring) :
  forallb (fun c => negb (c =? a)) x = true ->
  pair_scan a b false (x ++ y) = pair_scan a b false y.
Proof.
  intro H. destruct (free_of_char a b x H). apply pair_scan_skip; assumption.
Qed.

Lemma stringify_strings_chars (P : N -> bool) (l : list jstring) :
  P 91 = true -> P 93 = true -> P 44 = true -> P dq = true ->
  (forall c, is_b64 c = true -> P c = true) ->
  Forall (fun s => forallb is_b64 s = true) l ->
  forallb P (JSON_stringify_strings l) = true.
Proof.
  intros H91 H93 H44 Hdq Hb Hl. unfold JSON_stringify_strings.
  change (js "[") with [91]. change (js "]") with [93]. change (js ",") with [44].
  rewrite !forallb_app. cbn [forallb]. rewrite H91, H93, forallb_join.
  - reflexivity.
  - simpl. rewrite H44. reflexivity.
  - rewrite Forall_map. eapply Forall_impl; [|exact Hl].
    intros x Hx. unfold json_quote. rewrite json_quote_body_b64 by exact Hx.
    cbn [forallb]. rewrite forallb_app, Hdq, (forallb_impl _ _ _ Hb Hx).
    cbn [forallb]. rewrite Hdq. reflexivity.
Qed.

Lemma stringify_numbers_chars (P : N -> bool) (l : list (option nat)) :
  P 91 = true -> P 93 = true -> P 44 = true ->
  forallb P (js "null") = true ->
  (forall c, is_decimal_digit c = true -> P c = true) ->
  forallb P (JSON_stringify_numbers l) = true.
Proof.
  intros H91 H93 H44 Hnull Hd. unfold JSON_stringify_numbers.
  change (js "[") with [91]. change (js "]") with [93]. change (js ",") with [44].
  rewrite !forallb_app. cbn [forallb]. rewrite H91, H93, forallb_join.
  - reflexivity.
  - simpl. rewrite H44. reflexivity.
  - rewrite Forall_map. apply Forall_forall. intros [n|] _; simpl.
    + apply (forallb_impl _ _ _ Hd), decimal_digits.
    + exact Hnull.
Qed.

Definition not_space (c : N) : bool := negb (c =? 32).

Lemma b64_not_space (c : N) : is_b64 c = true -> not_space c = true.
Proof.
  intro H. apply is_b64_range in H. unfold not_space.
  destruct (N.eqb_spec c 32); [lia|reflexivity].
Qed.

Lemma digit_not_space (c : N) : is_decimal_digit c = true -> not_space c = true.
Proof. unfold is_decimal_digit, not_space. cases_on_tests. Qed.

(** ** The fragment cipher *)

Section LanaVortex.
Context {E : Engine}.
Import lanaVortex.

Lemma pure_encrypt (key : jstring) (frag : option jstring) : pure (encrypt key frag).
Proof. destruct frag; simpl; auto with pure. Qed.

Lemma pure_encode_tables (code key : jstring) : pure (encode_tables code key).
Proof.
  unfold encode_tables. apply pure_bind; [|auto with pure].
  apply pure_mapM, pure_encrypt.
Qed.

Lemma pure_encode (code key : jstring) : pure (encode code key).
Proof.
  unfold encode. destruct (is_empty code || is_empty key); [auto with pure|].
  apply pure_bind; [apply pure_encode_tables|]. intro t.
  apply pure_bind; auto with pure.
Qed.

(** C3.  [lanaVortex.encode] is deterministic: whatever the ambient state
    (the pending [Math.random] results), the same code and key give the
    same completion, the artifact included, and the state is not consumed.
    The shuffle depends on the key through its seed only. *)
Theorem encode_deterministic (code key : jstring) (w1 w2 : World) :
  fst (encode code key w1) = fst (encode code key w2)
  /\ snd (encode code key w1) = w1
  /\ forall key2 n, createSeed key2 = createSeed key ->
                    shuffledIndices key2 n = shuffledIndices key n.
Proof.
  destruct (pure_encode code key) as [r Hr]. rewrite !Hr.
  repeat split. intros key2 n H. unfold shuffledIndices. rewrite H. reflexivity.
Qed.

(** C10.  [lanaVortex.decode] called with an empty artifact or an empty
    key throws its argument error at once: the error is not the one the
    [catch] clause around the parsing builds, and nothing is returned. *)
Theorem decode_rejects_empty (encodedCode key : jstring) (w : World) :
  encodedCode = [] \/ key = [] ->
  decode encodedCode key w = (Throw (Error msg_decode_required), w).
Proof.
  intros [-> | ->]; unfold decode.
  - reflexivity.
  - rewrite orb_true_r. reflexivity.
Qed.

Lemma record_order_spec (shuffled : list nat) (k : nat) (m : list (option nat)) :
  (forall x, In x shuffled -> (x < length m)%nat) -> NoDup shuffled ->
  length (record_order shuffled k m) = length m
  /\ (forall j x, nth_error shuffled j = Some x ->
                 nth_error (record_order shuffled k m) x = Some (Some (k + j)%nat))
  /\ (forall x, ~ In x shuffled ->
               nth_error (record_order shuffled k m) x = nth_error m x).
Proof.
  revert k m. induction shuffled as [|o r IH]; intros k m Hlt Hnd; simpl.
  - repeat split; auto. intros [|j] x; discriminate.
  - inversion Hnd as [|? ? Hnotin Hnd']; subst.
    assert (Ho : (o < length m)%nat) by (apply Hlt; left; reflexivity).
    destruct (IH (S k) (array_set m o k)) as (Hlen & Hhit & Hmiss); auto.
    { intros x Hx. rewrite array_set_length by exact Ho. apply Hlt. right. exact Hx. }
    rewrite array_set_length in Hlen by exact Ho.
    repeat split.
    + exact Hlen.
    + intros [|j] x Hx; simpl in Hx.
      * injection Hx as <-. rewrite Hmiss by exact Hnotin.
        rewrite Nat.add_0_r. apply array_set_same.
      * rewrite (Hhit j x Hx). do 2 f_equal. lia.
    + intros x Hx. rewrite Hmiss by tauto.
      apply array_set_other; [exact Ho|]. intros ->. apply Hx. left. reflexivity.
Qed.

Lemma shuffledIndices_perm (key : jstring) (n : nat) :
  Permutation (seq 0 n) (shuffledIndices key n).
Proof. apply array_sort_perm. Qed.

(** The permutation map is total and inverts the shuffle. *)
Lemma originalOrderMap_spec (key : jstring) (n : nat) :
  exists pi : list nat,
    originalOrderMap key n = map Some pi
    /\ length pi = n
    /\ Permutation pi (seq 0 n)
    /\ forall newIndex originalIndex,
         nth_error (shuffledIndices key n) newIndex = Some originalIndex ->
         nth_error pi originalIndex = Some newIndex.
Proof.
  pose proof (shuffledIndices_perm key n) as Hperm.
  set (L := shuffledIndices key n) in *.
  assert (Hin : forall x, In x L <-> (x < n)%nat).
  { intro x. split; intro H.
    - apply (Permutation_in _ (Permutation_sym Hperm)) in H. apply in_seq in H. lia.
    - apply (Permutation_in _ Hperm). apply in_seq. lia. }
  assert (Hnd : NoDup L) by (apply (Permutation_NoDup Hperm), seq_NoDup).
  assert (HlenL : length L = n).
  { rewrite <- (Permutation_length Hperm). apply length_seq. }
  destruct (record_order_spec L 0 (repeat None n)) as (Hlen & Hhit & _).
  { intros x Hx. rewrite repeat_length. apply Hin, Hx. }
  { exact Hnd. }
  rewrite repeat_length in Hlen.
  change (record_order L 0 (repeat None n)) with (originalOrderMap key n) in *.
  destruct (all_some (originalOrderMap key n)) as [pi Hpi].
  { intros x Hx. rewrite Hlen in Hx. apply Hin in Hx.
    apply In_nth_error in Hx. destruct Hx as [j Hj]. eauto. }
  assert (Hlenpi : length pi = n).
  { rewrite <- Hlen, Hpi. symmetry. apply length_map. }
  assert (Hinv : forall j x, nth_error L j = Some x -> nth_error pi x = Some j).
  { intros j x Hj. specialize (Hhit j x Hj). rewrite Hpi, nth_error_map in Hhit.
    destruct (nth_error pi x); simpl in Hhit; congruence. }
  exists pi. repeat split; auto.
  apply NoDup_Permutation_bis.
  - apply NoDup_nth_error. intros x y Hx Hxy.
    rewrite Hlenpi in Hx. apply Hin, In_nth_error in Hx. destruct Hx as [j Hj].
    pose proof (Hinv j x Hj) as Hpx. rewrite Hpx in Hxy. symmetry in Hxy.
    assert (Hy : (y < n)%nat).
    { rewrite <- Hlenpi. apply nth_error_Some. congruence. }
    apply Hin, In_nth_error in Hy. destruct Hy as [j' Hj'].
    pose proof (Hinv j' y Hj') as Hpy. rewrite Hpy in Hxy. congruence.
  - rewrite length_seq. lia.
  - intros v Hv. apply In_nth_error in Hv. destruct Hv as [x Hx].
    assert (Hxn : (x < n)%nat).
    { rewrite <- Hlenpi. apply nth_error_Some. congruence. }
    apply Hin, In_nth_error in Hxn. destruct Hxn as [j Hj].
    pose proof (Hinv j x Hj) as Hpx. rewrite Hpx in Hx. injection Hx as <-.
    apply in_seq. split; [lia|]. simpl. rewrite <- HlenL.
    apply nth_error_Some. congruence.
Qed.

Lemma wrapper_shape (payload orderMap decoderKey : jstring) :
  exists m, wrapper payload orderMap decoderKey = 40 :: m ++ [59].
Proof.
  unfold wrapper.
  match goal with
  | |- context [[dq] ++ decoderKey ++ [dq] ++ js ?t] =>
      set (tail := js t);
      assert (Ht : tail = removelast tail ++ [59]) by (vm_compute; reflexivity)
  end.
  exists (tl (js "(function(){var p=") ++ payload ++ js ",m=" ++ orderMap
          ++ js ",k=atob(" ++ [dq] ++ decoderKey ++ [dq] ++ removelast tail).
  rewrite Ht at 1. rewrite <- !app_assoc. reflexivity.
Qed.

Lemma trim_wrapper (payload orderMap decoderKey : jstring) :
  trim (wrapper payload orderMap decoderKey) = wrapper payload orderMap decoderKey.
Proof.
  destruct (wrapper_shape payload orderMap decoderKey) as [m ->].
  apply trim_wrapped.
Qed.

Lemma wrapper_not_empty (payload orderMap decoderKey : jstring) :
  is_empty (wrapper payload orderMap decoderKey) = false.
Proof.
  destruct (wrapper_shape payload orderMap decoderKey) as [m ->]. reflexivity.
Qed.

(** What a successful [encode] has computed. *)
Lemma encode_success (code key artifact log : jstring) (w w' : World) :
  encode code key w = (Return (artifact, log), w') ->
  exists encryptedFragments decoderKey,
    code <> [] /\ key <> []
    /\ mapM (encrypt key) (shuffledFragments key (fragment key code)) w
       = (Return encryptedFragments, w)
    /\ btoa key = Some decoderKey
    /\ artifact = wrapper (JSON_stringify_strings encryptedFragments)
                          (JSON_stringify_numbers
                             (originalOrderMap key (length (fragment key code))))
                          decoderKey
    /\ w' = w.
Proof.
  unfold encode.
  destruct code as [|c code]; [discriminate|].
  destruct key as [|k key]; [discriminate|].
  cbn [is_empty orb]. unfold encode_tables, bind at 1.
  set (frags := fragment (k :: key) (c :: code)).
  unfold bind at 1.
  destruct (mapM (encrypt (k :: key)) (shuffledFragments (k :: key) frags) w)
    as [[enc|e] w1] eqn:Hm; [|discriminate].
  assert (w1 = w) as ->
    by (apply (pure_world _ _ _ _ (pure_mapM _ _ (pure_encrypt (k :: key))) Hm)).
  unfold ret at 1. cbn [fst snd]. unfold bind.
  destruct (btoa (k :: key)) as [dk|] eqn:Hk; cbn [native]; [|discriminate].
  unfold ret. rewrite trim_wrapper. intros [= <- _ <-].
  exists enc, dk. repeat split; try discriminate; auto.
Qed.

Lemma encrypted_b64 (key : jstring) (frags : list (option jstring))
    (enc : list jstring) (w w' : World) :
  mapM (encrypt key) frags w = (Return enc, w') ->
  Forall (fun s => forallb is_b64 s = true) enc.
Proof.
  intro H. apply mapM_Forall2 in H.
  induction H as [|frag e frags enc (w1 & w2 & He) _ IH]; constructor; [|exact IH].
  destruct frag as [f|]; simpl in He; [|discriminate].
  destruct (btoa (xorCipher f key)) as [t|] eqn:Hb; simpl in He; [|discriminate].
  injection He as <- _.
  apply (btoa_chars is_b64 _ _ eq_refl eq_refl Hb).
Qed.

(** C6.  When [lanaVortex.encode] succeeds on [n] fragments, the map the
    artifact embeds is an array of length [n], a rearrangement of
    [0 .. n-1], and it sends the original index of every fragment to the
    position the shuffle gave it: [map[originalIndex] = newIndex]. *)
Theorem permutation_map_bijection (code key artifact log : jstring) (w w' : World) :
  encode code key w = (Return (artifact, log), w') ->
  exists (payload decoderKey : jstring) (map : list nat),
    artifact = wrapper payload (JSON_stringify_numbers (List.map Some map)) decoderKey
    /\ length map = length (fragment key code)
    /\ Permutation map (seq 0 (length (fragment key code)))
    /\ forall newIndex originalIndex,
         nth_error (shuffledIndices key (length (fragment key code))) newIndex
         = Some originalIndex ->
         nth_error (shuffledFragments key (fragment key code)) newIndex
         = Some (nth_error (fragment key code) originalIndex)
         /\ nth_error map originalIndex = Some newIndex.
Proof.
  intro H. apply encode_success in H.
  destruct H as (enc & dk & _ & _ & _ & _ & -> & _).
  destruct (originalOrderMap_spec key (length (fragment key code)))
    as (pi & Hpi & Hlen & Hperm & Hinv).
  exists (JSON_stringify_strings enc), dk, pi. rewrite Hpi.
  repeat split; auto.
  unfold shuffledFragments. rewrite nth_error_map, H. reflexivity.
Qed.

(** The wrapper never holds the text [var m=]: its only blanks are those
    of its fixed parts, and none of them is followed by [m]. *)
Lemma wrapper_has_no_var_m (payload orderMap decoderKey : jstring) :
  forallb not_space payload = true -> forallb not_space orderMap = true ->
  forallb not_space decoderKey = true ->
  search (match_var (js "m")) (wrapper payload orderMap decoderKey) = None.
Proof.
  intros Hp Ho Hk.
  destruct (search (match_var (js "m")) (wrapper payload orderMap decoderKey))
    as [t|] eqn:Hs; [|reflexivity].
  apply (search_pair _ 32 109) in Hs.
  - unfold wrapper in Hs.
    rewrite (pair_scan_skip 32 109 (js "(function(){var p=")) in Hs by reflexivity.
    rewrite (pair_scan_skip_free 32 109 payload) in Hs by exact Hp.
    rewrite (pair_scan_skip 32 109 (js ",m=")) in Hs by reflexivity.
    rewrite (pair_scan_skip_free 32 109 orderMap) in Hs by exact Ho.
    rewrite (pair_scan_skip 32 109 (js ",k=atob(")) in Hs by reflexivity.
    rewrite (pair_scan_skip 32 109 [dq]) in Hs by reflexivity.
    rewrite (pair_scan_skip_free 32 109 decoderKey) in Hs by exact Hk.
    rewrite (pair_scan_skip 32 109 [dq]) in Hs by reflexivity.
    vm_compute in Hs. discriminate.
  - clear. intros s t. unfold match_var.
    destruct (strip_prefix (js "var " ++ js "m" ++ js "=[") s) as [r|] eqn:Hr;
      [|discriminate].
    intros _. apply strip_prefix_app in Hr. subst s. reflexivity.
Qed.

(** C1, as the code behaves.  [lanaVortex.decode] never accepts an artifact
    of [lanaVortex.encode]: the wrapper declares the map as [,m=[...]]
    inside one [var] statement, and [decode] searches for [var m=[...]].
    The round trip therefore ends in the format error, wrapped by the
    [catch] clause, for every code and key. *)
Theorem decode_of_encode_fails (code key artifact log : jstring) (w w' : World) :
  encode code key w = (Return (artifact, log), w') ->
  decode artifact key w'
  = (Throw (Error (msg_decoding_failed ++ msg_invalid_format)), w').
Proof.
  intro H. apply encode_success in H.
  destruct H as (enc & dk & _ & Hkey & Hm & Hdk & -> & ->).
  apply encrypted_b64 in Hm.
  unfold decode. rewrite wrapper_not_empty.
  destruct key as [|k key]; [congruence|].
  cbn [is_empty orb]. unfold try_catch.
  rewrite wrapper_has_no_var_m.
  - destruct (search (match_var (js "p")) _); reflexivity.
  - apply stringify_strings_chars; auto using b64_not_space.
  - apply stringify_numbers_chars; auto using digit_not_space.
  - apply (btoa_chars not_space _ _ eq_refl eq_refl Hdk).
Qed.

End LanaVortex.

(** *** Concrete runs of the fragment cipher *)

(** The round trip of the specification's scenario A, on the reference
    engine. *)
Lemma decode_of_encode_fails_witness :
  lanaVortex.decode (E := reference_engine) sample_artifact (js "ab") sample_world
  = (Throw (Error (lanaVortex.msg_decoding_failed ++ lanaVortex.msg_invalid_format)),
     sample_world).
Proof.
  apply (decode_of_encode_fails (E := reference_engine)
           (js "console.log(1)") (js "ab") sample_artifact
           lanaVortex.encode_log sample_world sample_world).
  vm_compute. reflexivity.
Defined.

(** The permutation map of the same run. *)
Lemma permutation_map_bijection_witness :
  exists (payload decoderKey : jstring) (map : list nat),
    sample_artifact
    = lanaVortex.wrapper payload (JSON_stringify_numbers (List.map Some map))
        decoderKey
    /\ length map = length (lanaVortex.fragment (js "ab") (js "console.log(1)"))
    /\ Permutation map
         (seq 0 (length (lanaVortex.fragment (js "ab") (js "console.log(1)"))))
    /\ forall newIndex originalIndex,
         nth_error
           (lanaVortex.shuffledIndices (E := reference_engine) (js "ab")
              (length (lanaVortex.fragment (js "ab") (js "console.log(1)"))))
           newIndex
         = Some originalIndex ->
         nth_error
           (lanaVortex.shuffledFragments (E := reference_engine) (js "ab")
              (lanaVortex.fragment (js "ab") (js "console.log(1)"))) newIndex
         = Some (nth_error (lanaVortex.fragment (js "ab") (js "console.log(1)"))
                   originalIndex)
         /\ nth_error map originalIndex = Some newIndex.
Proof.
  apply (permutation_map_bijection (E := reference_engine)
           (js "console.log(1)") (js "ab") sample_artifact
           lanaVortex.encode_log sample_world sample_world).
  vm_compute. reflexivity.
Defined.

(** An empty artifact with a key. *)
Lemma decode_rejects_empty_witness :
  lanaVortex.decode (E := reference_engine) [] (js "k") sample_world
  = (Throw (Error lanaVortex.msg_decode_required), sample_world).
Proof.
  apply (decode_rejects_empty (E := reference_engine) [] (js "k") sample_world).
  left. reflexivity.
Defined.

(** A draw from a state that is not negative lies in [[0, 1)]. *)
Lemma seededRandom_range (seed : Z) :
  (0 <= seed)%Z ->
  (0 <= fst (lanaVortex.seededRandom seed) /\ fst (lanaVortex.seededRandom seed) < 1)%Q
  /\ (0 <= snd (lanaVortex.seededRandom seed) < 233280)%Z.
Proof.
  intro H. unfold lanaVortex.seededRandom. cbn [fst snd].
  assert (Hr : (0 <= Z.rem (seed * 9301 + 49297) 233280 < 233280)%Z).
  { rewrite Z.rem_mod_nonneg by lia. apply Z.mod_pos_bound. lia. }
  unfold Qle, Qlt. cbn [Qnum Qden]. lia.
Qed.

(** C2, where the code leaves the claim.  The seed hash of the key
    [secret123] is negative, the remainder keeps the sign of the dividend,
    and the first draw is -113797/233280: the state is updated as the claim
    says, the value returned is below 0. *)
Theorem seeded_draw_negative :
  let seed := lanaVortex.createSeed (js "secret123") in
  seed = (-739593854)%Z
  /\ snd (lanaVortex.seededRandom seed) = Z.rem (seed * 9301 + 49297) 233280
  /\ fst (lanaVortex.seededRandom seed) = (-113797 # 233280)%Q
  /\ (fst (lanaVortex.seededRandom seed) < 0)%Q.
Proof.
  cbv zeta. repeat split.
Qed.

(** ** The name generator *)

Module NameFacts.
Import lexicalScramble NameOrder.

(** The number a name stands for in bijective base 53. *)
Definition step (acc : nat) (c : N) : nat := (acc * 53 + rank c + 1)%nat.
Definition value_from (acc : nat) (s : jstring) : nat := fold_left step s acc.

Definition valid (s : jstring) : Prop := Forall (fun c => (rank c < 53)%nat) s.

Lemma generateName_loop_unfold (n : nat) (name : jstring) :
  generateName_loop n name
  = match (n / 53)%nat with
    | O => nth (n mod 53) alphabet 0 :: name
    | S q => generateName_loop q (nth (n mod 53) alphabet 0 :: name)
    end.
Proof.
  funelim (generateName_loop n name);
    match goal with
    | Hq : (_ / length alphabet)%nat = _ |- _ =>
        change (length alphabet) with 53%nat in Hq; rewrite Hq
    end; try reflexivity.
Qed.

Lemma generateName_loop_app (n : nat) (name : jstring) :
  generateName_loop n name = generateName n ++ name.
Proof.
  revert name. induction n as [n IH] using lt_wf_ind. intro name.
  unfold generateName. rewrite (generateName_loop_unfold n name),
    (generateName_loop_unfold n []).
  destruct (n / 53)%nat as [|q] eqn:Hq; [reflexivity|].
  assert (Hlt : (q < n)%nat) by (pose proof (Nat.div_mod_eq n 53); lia).
  rewrite (IH q Hlt), (IH q Hlt [_]). rewrite <- app_assoc. reflexivity.
Qed.

Lemma generateName_unfold (n : nat) :
  generateName n
  = match (n / 53)%nat with
    | O => [nth (n mod 53) alphabet 0]
    | S q => generateName q ++ [nth (n mod 53) alphabet 0]
    end.
Proof.
  unfold generateName at 1. rewrite generateName_loop_unfold.
  destruct (n / 53)%nat; [reflexivity|apply generateName_loop_app].
Qed.

Lemma rank_nth (d : nat) : (d < 53)%nat -> rank (nth d alphabet 0) = d.
Proof.
  intro H.
  assert (Hall : forallb (fun d => Nat.eqb (rank (nth d alphabet 0%N)) d) (seq 0 53) = true)
    by (vm_compute; reflexivity).
  rewrite forallb_forall in Hall. apply Nat.eqb_eq, Hall, in_seq. lia.
Qed.

Lemma generateName_valid (n : nat) : valid (generateName n).
Proof.
  induction n as [n IH] using lt_wf_ind. rewrite generateName_unfold.
  assert (Hr : (rank (nth (n mod 53) alphabet 0%N) < 53)%nat).
  { rewrite rank_nth; apply Nat.mod_upper_bound; lia. }
  destruct (n / 53)%nat as [|q] eqn:Hq.
  - constructor; [exact Hr|constructor].
  - apply Forall_app. split; [|constructor; [exact Hr|constructor]].
    apply IH. pose proof (Nat.div_mod_eq n 53). lia.
Qed.

Lemma generateName_value (n : nat) : value_from 0 (generateName n) = S n.
Proof.
  induction n as [n IH] using lt_wf_ind. rewrite generateName_unfold.
  pose proof (Nat.div_mod_eq n 53) as Hn.
  pose proof (Nat.mod_upper_bound n 53 ltac:(lia)) as Hm.
  destruct (n / 53)%nat as [|q] eqn:Hq.
  - unfold value_from. cbn [fold_left]. unfold step.
    rewrite rank_nth by exact Hm. lia.
  - unfold value_from. rewrite fold_left_app.
    fold (value_from 0 (generateName q)). rewrite IH by lia.
    cbn [fold_left]. unfold step. rewrite rank_nth by exact Hm. lia.
Qed.

(** [step] keeps a strict order between accumulators, whatever the digits. *)
Lemma value_from_lt (s t : jstring) (a b : nat) :
  length s = length t -> valid s -> valid t -> (a < b)%nat ->
  (value_from a s < value_from b t)%nat.
Proof.
  revert t a b. induction s as [|c s IH]; intros [|d t] a b Hlen Hs Ht Hab;
    try discriminate; simpl in *; [exact Hab|].
  inversion Hs; inversion Ht; subst.
  apply IH; auto. unfold step. lia.
Qed.

Lemma lex_value (s t : jstring) (a : nat) :
  length s = length t -> valid s -> valid t -> lex_ltb s t = true ->
  (value_from a s < value_from a t)%nat.
Proof.
  revert t a. induction s as [|c s IH]; intros [|d t] a Hlen Hs Ht Hlex;
    try discriminate; simpl in *.
  inversion Hs; inversion Ht; subst.
  apply orb_prop in Hlex. destruct Hlex as [Hlt|Heq].
  - apply Nat.ltb_lt in Hlt. apply value_from_lt; auto. unfold step. lia.
  - apply andb_prop in Heq. destruct Heq as [Heq Hlex]. apply Nat.eqb_eq in Heq.
    unfold step. rewrite Heq. apply IH; auto.
Qed.

Lemma value_from_pos (s : jstring) (a : nat) :
  s <> [] -> (0 < value_from a s)%nat.
Proof.
  induction s as [|c s IH] using rev_ind; [congruence|]. intros _.
  unfold value_from. rewrite fold_left_app. cbn [fold_left]. unfold step. lia.
Qed.

Lemma name_value (s t : jstring) :
  valid s -> valid t -> name_ltb s t = true ->
  (value_from 0 s < value_from 0 t)%nat.
Proof.
  intros Hs Ht H. unfold name_ltb in H. apply orb_prop in H.
  destruct H as [Hlen|Heq].
  - apply Nat.ltb_lt in Hlen.
    rewrite <- (firstn_skipn (length t - length s) t).
    unfold value_from at 2. rewrite fold_left_app.
    apply value_from_lt.
    + rewrite length_skipn. lia.
    + exact Hs.
    + unfold valid in *. rewrite <- (firstn_skipn (length t - length s) t) in Ht.
      apply Forall_app in Ht. apply Ht.
    + apply value_from_pos. intro Hnil.
      apply (f_equal (@length N)) in Hnil. rewrite length_firstn in Hnil.
      simpl in Hnil. lia.
  - apply andb_prop in Heq. destruct Heq as [Hlen Hlex]. apply Nat.eqb_eq in Hlen.
    apply lex_value; auto.
Qed.

Lemma lex_total (s t : jstring) (a : nat) :
  length s = length t -> lex_ltb s t = false -> lex_ltb t s = false ->
  value_from a s = value_from a t.
Proof.
  revert t a. induction s as [|c s IH]; intros [|d t] a Hlen Hst Hts;
    try discriminate; [reflexivity|].
  cbn [lex_ltb] in Hst, Hts.
  apply orb_false_elim in Hst, Hts. destruct Hst as [H1 H2], Hts as [H3 H4].
  apply Nat.ltb_ge in H1, H3. assert (Heq : rank c = rank d) by lia.
  rewrite Heq, Nat.eqb_refl in H2. rewrite Heq, Nat.eqb_refl in H4.
  cbn [andb] in H2, H4.
  change (value_from (step a c) s = value_from (step a d) t).
  replace (step a c) with (step a d) by (unfold step; lia).
  apply IH; auto.
Qed.

Lemma name_total (s t : jstring) :
  name_ltb s t = false -> name_ltb t s = false ->
  value_from 0 s = value_from 0 t.
Proof.
  unfold name_ltb. intros Hst Hts.
  apply orb_false_elim in Hst, Hts. destruct Hst as [H1 H2], Hts as [H3 H4].
  apply Nat.ltb_ge in H1, H3. assert (Hlen : length s = length t) by lia.
  rewrite Hlen, Nat.eqb_refl in *. simpl in *. apply lex_total; auto.
Qed.

End NameFacts.

(** C5, amended to the code.  The alphabet [a..z A..Z _] has 53 characters
    and [generateName] divides by its length: each round prepends
    [alphabet[n mod 53]] and goes on with [floor(n / 53) - 1] while that is
    not negative.  The names of successive indices are strictly increasing
    (shorter first, then by the alphabet's order), so the generator is
    injective. *)
Theorem generateName_base53 :
  length lexicalScramble.alphabet = 53%nat
  /\ (forall n name,
        lexicalScramble.generateName_loop n name
        = let name' := nth (n mod 53) lexicalScramble.alphabet 0 :: name in
          if (n / 53 =? 0)%nat then name'
          else lexicalScramble.generateName_loop (n / 53 - 1) name')
  /\ (forall n m, (n < m)%nat ->
        NameOrder.name_ltb (lexicalScramble.generateName n)
                           (lexicalScramble.generateName m) = true)
  /\ (forall n m, lexicalScramble.generateName n = lexicalScramble.generateName m ->
        n = m).
Proof.
  split; [reflexivity|]. split; [|split].
  - intros n name. cbv zeta. rewrite NameFacts.generateName_loop_unfold.
    destruct (n / 53)%nat; [reflexivity|].
    cbn [Nat.eqb Nat.sub]. rewrite Nat.sub_0_r. reflexivity.
  - intros n m Hnm.
    destruct (NameOrder.name_ltb (lexicalScramble.generateName n)
                (lexicalScramble.generateName m)) eqn:Hlt; [reflexivity|].
    destruct (NameOrder.name_ltb (lexicalScramble.generateName m)
                (lexicalScramble.generateName n)) eqn:Hgt.
    + apply NameFacts.name_value in Hgt; try apply NameFacts.generateName_valid.
      rewrite !NameFacts.generateName_value in Hgt. lia.
    + pose proof (NameFacts.name_total _ _ Hlt Hgt) as Heq.
      rewrite !NameFacts.generateName_value in Heq. lia.
  - intros n m H. apply (f_equal (NameFacts.value_from 0)) in H.
    rewrite !NameFacts.generateName_value in H. lia.
Qed.

(** C5 as the specification words it fails at index 52: with modulus 52
    the name would be [aa], the code returns [_]. *)
Lemma generateName_is_not_base52 :
  NameOrder.spec_name 52 = js "aa"
  /\ lexicalScramble.generateName 52 = js "_"
  /\ lexicalScramble.generateName 52 <> NameOrder.spec_name 52.
Proof.
  repeat split. vm_compute. discriminate.
Qed.

(** ** Matchers that ignore the context and always consume something *)

Definition context_free {A : Type} (m : matcher A) : Prop :=
  forall p q s, m p s = m q s.

Definition progressing {A : Type} (m : matcher A) : Prop :=
  forall p s a n, m p s = Some (a, n) -> (0 < n <= length s)%nat.

Lemma list_length_ind {A : Type} (P : list A -> Prop) :
  (forall s, (forall t, (length t < length s)%nat -> P t) -> P s) -> forall s, P s.
Proof.
  intros H s. remember (length s) as n eqn:Hn. revert s Hn.
  induction n as [n IH] using lt_wf_ind. intros s ->.
  apply H. intros t Ht. apply (IH (length t) Ht t eq_refl).
Qed.

Lemma split_matches_prev {A : Type} (m : matcher A) (p q : option N) (k : nat)
    (s : jstring) :
  context_free m -> split_matches m p k s = split_matches m q k s.
Proof.
  intro Hm. destruct s as [|c r]; destruct k as [|k]; simpl; try reflexivity;
    rewrite (Hm p q); reflexivity.
Qed.

Lemma split_matches_skip {A : Type} (m : matcher A) (p : option N) (k : nat)
    (s : jstring) :
  context_free m -> (k <= length s)%nat ->
  split_matches m p k s = matches m (skipn k s).
Proof.
  intros Hm. revert p s. induction k as [|k IH]; intros p s Hk.
  - apply split_matches_prev, Hm.
  - destruct s as [|c r]; [simpl in Hk; lia|]. simpl. apply IH. simpl in Hk. lia.
Qed.

Lemma matches_nil {A : Type} (m : matcher A) :
  progressing m -> matches m [] = [].
Proof.
  intro Hm. unfold matches. simpl. destruct (m None []) as [[a n]|] eqn:H;
    [|reflexivity].
  apply Hm in H. simpl in H. lia.
Qed.

Lemma matches_cons {A : Type} (m : matcher A) (c : N) (r : jstring) :
  context_free m -> progressing m ->
  matches m (c :: r)
  = match m None (c :: r) with
    | Some (a, n) => Hit a :: matches m (skipn n (c :: r))
    | None => Kept c :: matches m r
    end.
Proof.
  intros Hc Hp. unfold matches at 1. cbn [split_matches].
  destruct (m None (c :: r)) as [[a n]|] eqn:H.
  - pose proof (Hp _ _ _ _ H) as Hn. destruct n as [|n]; [lia|].
    rewrite split_matches_skip by (simpl in Hn; auto; lia). reflexivity.
  - rewrite (split_matches_prev m (Some c) None) by exact Hc. reflexivity.
Qed.

(** A pattern that no position matches leaves nothing found. *)
Lemma hits_nil_no_match {A : Type} (m : matcher A) (s : jstring) :
  context_free m -> progressing m -> hits (matches m s) = [] ->
  forall k, m None (skipn k s) = None.
Proof.
  intros Hc Hp. induction s as [|c r IH]; intros H k.
  - rewrite skipn_nil. destruct (m None []) as [[a n]|] eqn:H0; [|reflexivity].
    apply Hp in H0. simpl in H0. lia.
  - rewrite matches_cons in H by assumption.
    destruct (m None (c :: r)) as [[a n]|] eqn:H0; [discriminate|].
    destruct k as [|k]; [exact H0|]. simpl. apply IH. exact H.
Qed.

Lemma search_none {A : Type} (m : jstring -> option A) (s : jstring) :
  (forall k, m (skipn k s) = None) -> search m s = None.
Proof.
  induction s as [|c r IH]; intro H; simpl.
  - pose proof (H 0%nat) as H0. simpl in H0. rewrite H0. reflexivity.
  - pose proof (H 0%nat) as H0. simpl in H0. rewrite H0.
    apply IH. intro k. apply (H (S k)).
Qed.

Lemma search_some {A : Type} (m : jstring -> option A) (s : jstring) (a : A) :
  search m s = Some a -> exists k, m (skipn k s) = Some a.
Proof.
  induction s as [|c r IH]; simpl.
  - destruct (m []) eqn:H; [|discriminate]. intros [= <-]. exists 0%nat. exact H.
  - destruct (m (c :: r)) eqn:H.
    + intros [= <-]. exists 0%nat. exact H.
    + intro Hs. destruct (IH Hs) as [k Hk]. exists (S k). exact Hk.
Qed.

Lemma search_app_none {A : Type} (m : jstring -> option A) (x y : jstring) :
  (forall x1 c x2, x = x1 ++ c :: x2 -> m (c :: x2 ++ y) = None) ->
  search m (x ++ y) = search m y.
Proof.
  induction x as [|c x IH]; intro H; [reflexivity|].
  cbn [app search]. rewrite (H [] c x eq_refl). apply IH.
  intros x1 d x2 ->. apply (H (c :: x1) d x2). reflexivity.
Qed.

Lemma search_head {A : Type} (m : jstring -> option A) (s : jstring) (a : A) :
  m s = Some a -> search m s = Some a.
Proof. intro H. destruct s; simpl; rewrite H; reflexivity. Qed.

Lemma take_while_app (p : N -> bool) (x y : jstring) :
  forallb p x = true -> (match y with c :: _ => p c = false | [] => True end) ->
  take_while p (x ++ y) = x.
Proof.
  intros Hx Hy. induction x as [|c x IH]; simpl in *.
  - destruct y as [|c y]; [reflexivity|]. simpl. rewrite Hy. reflexivity.
  - apply andb_prop in Hx. destruct Hx as [Hc Hx]. rewrite Hc, IH by exact Hx.
    reflexivity.
Qed.

Lemma strip_prefix_exact (p r : jstring) : strip_prefix p (p ++ r) = Some r.
Proof.
  induction p as [|a p IH]; simpl; [reflexivity|]. rewrite N.eqb_refl. exact IH.
Qed.

Lemma skipn_length_app {A : Type} (x y : list A) : skipn (length x) (x ++ y) = y.
Proof. induction x; simpl; auto. Qed.

Lemma pair_scan_weaken (a b : N) (p : bool) (s : jstring) :
  pair_scan a b p s = false -> pair_scan a b false s = false.
Proof.
  destruct s as [|c r]; simpl; [reflexivity|].
  intro H. apply orb_false_elim in H. apply H.
Qed.

Lemma pair_scan_suffix (a b : N) (x z : jstring) :
  pair_scan a b false (x ++ z) = false -> pair_scan a b false z = false.
Proof.
  rewrite pair_scan_app. intro H. apply orb_false_elim in H.
  destruct H as [_ H]. apply (pair_scan_weaken _ _ _ _ H).
Qed.

Lemma pair_scan_prefix (a b : N) (p : bool) (x z : jstring) :
  pair_scan a b p (x ++ z) = false -> pair_scan a b p x = false.
Proof.
  rewrite pair_scan_app. intro H. apply orb_false_elim in H. apply H.
Qed.

(** ** The string concealer *)

Definition suffix_at (w : World) (i : nat) : jstring :=
  firstn 4 (skipn 2 (random_tape w (drawn w + i))).

Lemma base36_alphanumeric (c : N) :
  is_base36_digit c = true -> stringConceal.is_alphanumeric c = true.
Proof.
  unfold is_base36_digit, stringConceal.is_alphanumeric, is_letter, is_decimal_digit.
  cases_on_tests.
Qed.

Lemma forallb_firstn {A : Type} (p : A -> bool) (n : nat) (l : list A) :
  forallb p l = true -> forallb p (firstn n l) = true.
Proof.
  revert n. induction l as [|x l IH]; intros [|n] H; simpl in *; auto.
  apply andb_prop in H. destruct H as [Hx Hl]. rewrite Hx, IH; auto.
Qed.

Lemma suffix_of_rendering (t : jstring) :
  base36_rendering t ->
  forallb stringConceal.is_alphanumeric (firstn 4 (skipn 2 t)) = true
  /\ (t <> js "0" -> firstn 4 (skipn 2 t) <> []).
Proof.
  intros [-> | (d & Hd & Hall & ->)].
  - split; [reflexivity|congruence].
  - change (skipn 2 (js "0." ++ d)) with d. split.
    + apply forallb_firstn. apply (forallb_impl _ _ _ base36_alphanumeric Hall).
    + intros _. destruct d; [congruence|discriminate].
Qed.

Section StringConceal.
Context {E : Engine}.
Import stringConceal.

Lemma mapM_btoa (key : jstring) (strings enc : list jstring) (w w' : World) :
  mapM (fun s => native InvalidCharacterError (btoa (xorCipher s key))) strings w
  = (Return enc, w') ->
  w' = w /\ Forall2 (fun s e => btoa (xorCipher s key) = Some e) strings enc.
Proof.
  intro H. split.
  - apply (pure_world _ _ _ _ (pure_mapM _ _ (fun s => pure_native _ _)) H).
  - apply mapM_Forall2 in H.
    induction H as [|s e strings enc (w1 & w2 & He) _ IH]; constructor; [|exact IH].
    destruct (btoa (xorCipher s key)); simpl in He; [|discriminate].
    injection He as <- _. reflexivity.
Qed.

(** What a successful [encode] has computed. *)
Lemma conceal_success (code key artifact log : jstring) (w w' : World) :
  encode code key w = (Return (artifact, log), w') ->
  key <> []
  /\ ((literals code = [] /\ artifact = code /\ log = log_no_strings /\ w' = w)
      \/ exists enc ek,
           literals code <> []
           /\ Forall2 (fun s e => btoa (xorCipher s key) = Some e) (literals code) enc
           /\ btoa key = Some ek
           /\ artifact
              = decoderLogic (js "_S" ++ suffix_at w 0) (js "_D" ++ suffix_at w 1)
                  (JSON_stringify_strings enc) ek
                ++ replace_all match_placeholder
                     (decoder_call (js "_D" ++ suffix_at w 1))
                     (place_holders (matches match_literal code) 0)).
Proof.
  intro H. unfold encode in H. destruct key as [|k key]; [discriminate|].
  cbn [is_empty] in H. split; [discriminate|].
  fold (literals code) in H.
  destruct (literals code) as [|l ls] eqn:Hlit.
  - unfold ret in H. injection H as <- <- <-. left. auto.
  - right. rewrite <- Hlit in *.
    assert (Hne : literals code <> []) by (rewrite Hlit; discriminate).
    clear Hlit.
    unfold bind at 1 in H.
    destruct (mapM _ (literals code) w) as [[enc|e] w1] eqn:Hm; [|discriminate].
    apply mapM_btoa in Hm. destruct Hm as [-> Henc].
    unfold random_suffix, Math_random_base36, bind, ret in H.
    cbn [random_tape drawn] in H.
    destruct (btoa (k :: key)) as [ek|] eqn:Hk; cbn [native] in H; [|discriminate].
    unfold ret in H. injection H as <- _ _.
    exists enc, ek. unfold suffix_at. rewrite Nat.add_0_r, Nat.add_1_r. auto.
Qed.


Definition plain_json_char (c : N) : bool :=
  negb (c =? 93) && negb (is_line_terminator c) && not_space c.

Lemma lazy_semicolon_spec (body rest : jstring) :
  forallb plain_json_char body = true ->
  lazy_to_bracket_semicolon (body ++ 93 :: 59 :: rest) = Some (body ++ [93]).
Proof.
  induction body as [|c body IH]; intro H.
  - reflexivity.
  - simpl in H. apply andb_prop in H. destruct H as [Hc Hb].
    unfold plain_json_char in Hc.
    apply andb_prop in Hc. destruct Hc as [Hc _].
    apply andb_prop in Hc. destruct Hc as [H93 Hlt].
    apply negb_true_iff in H93, Hlt.
    cbn [app lazy_to_bracket_semicolon]. rewrite H93, Hlt, (IH Hb). reflexivity.
Qed.

Lemma b64_plain (c : N) : is_b64 c = true -> plain_json_char c = true.
Proof.
  intro H. apply is_b64_range in H.
  unfold plain_json_char, is_line_terminator, not_space. cases_on_tests.
Qed.

(** The serialised array: a bracket, a body without brackets, line
    terminators or blanks, a bracket. *)
Lemma stringify_strings_shape (enc : list jstring) :
  Forall (fun s => forallb is_b64 s = true) enc ->
  exists body,
    JSON_stringify_strings enc = 91 :: body ++ [93]
    /\ forallb plain_json_char body = true.
Proof.
  intro H. exists (join (js ",") (map json_quote enc)). split; [reflexivity|].
  apply forallb_join; [reflexivity|].
  rewrite Forall_map. eapply Forall_impl; [|exact H].
  intros x Hx. unfold json_quote. rewrite json_quote_body_b64 by exact Hx.
  cbn [forallb]. rewrite forallb_app, (forallb_impl _ _ _ b64_plain Hx).
  reflexivity.
Qed.

Lemma plain_not_space (s : jstring) :
  forallb plain_json_char s = true -> forallb not_space s = true.
Proof.
  apply forallb_impl. intros c H. unfold plain_json_char in H.
  apply andb_prop in H. apply H.
Qed.

Lemma alphanumeric_not_space (s : jstring) :
  forallb is_alphanumeric s = true -> forallb not_space s = true.
Proof.
  apply forallb_impl. intro c.
  unfold is_alphanumeric, is_letter, is_decimal_digit, not_space. cases_on_tests.
Qed.

Lemma encoded_b64 (key : jstring) (strings enc : list jstring) :
  Forall2 (fun s e => btoa (xorCipher s key) = Some e) strings enc ->
  Forall (fun s => forallb is_b64 s = true) enc.
Proof.
  induction 1 as [|s e strings enc He _ IH]; constructor; [|exact IH].
  apply (btoa_chars is_b64 _ _ eq_refl eq_refl He).
Qed.

Lemma match_array_prelude (s1 f body ek rest : jstring) :
  s1 <> [] -> forallb is_alphanumeric s1 = true ->
  forallb plain_json_char body = true ->
  match_array (decoderLogic (js "_S" ++ s1) f (91 :: body ++ [93]) ek ++ rest)
  = Some (91 :: body ++ [93]).
Proof.
  intros Hne Hs1 Hbody. unfold decoderLogic, match_array.
  rewrite <- !app_assoc.
  change (js "var " ++ js "_S" ++ ?t) with (js "var _S" ++ t).
  rewrite strip_prefix_exact.
  rewrite take_while_app by (auto; reflexivity).
  destruct s1 as [|c s1]; [congruence|].
  rewrite skipn_length_app.
  change (js "=" ++ (91 :: ?a) ++ ?b) with (js "=[" ++ a ++ b).
  rewrite strip_prefix_exact. rewrite <- !app_assoc.
  change ([93] ++ js ";var " ++ ?t) with (93 :: 59 :: js "var " ++ t).
  rewrite lazy_semicolon_spec by exact Hbody. reflexivity.
Qed.

Lemma firstn_long_app {A : Type} (n : nat) (x y : list A) :
  (n <= length x)%nat -> firstn n (x ++ y) = firstn n x.
Proof.
  intro H. rewrite firstn_app. replace (n - length x)%nat with 0%nat by lia.
  simpl. apply app_nil_r.
Qed.

(** No match of the key pattern starts in a text where no blank is
    followed by [k], even when the statement [var k=...] comes next. *)
Lemma no_key_before (x y : jstring) :
  pair_scan 32 107 false (x ++ js "var ") = false ->
  forall x1 c x2, x = x1 ++ c :: x2 -> match_key (c :: x2 ++ js "var " ++ y) = None.
Proof.
  intros Hx x1 c x2 ->.
  destruct (match_key (c :: x2 ++ js "var " ++ y)) as [ek|] eqn:Hm; [|reflexivity].
  exfalso. unfold match_key in Hm.
  destruct (strip_prefix (js "var k=" ++ [dq]) (c :: x2 ++ js "var " ++ y))
    as [r|] eqn:Hr; [|discriminate].
  apply strip_prefix_app in Hr.
  rewrite <- app_assoc in Hx. apply pair_scan_suffix in Hx.
  set (L := (c :: x2) ++ js "var ") in *.
  assert (HL : (5 <= length L)%nat).
  { unfold L. rewrite length_app. simpl. lia. }
  assert (H5 : firstn 5 L = js "var k").
  { rewrite <- (firstn_long_app 5 L y HL). unfold L. rewrite <- app_assoc.
    cbn [app] in Hr |- *. rewrite Hr. reflexivity. }
  rewrite <- (firstn_skipn 5 L), H5 in Hx.
  apply pair_scan_prefix in Hx. discriminate.
Qed.

Lemma match_key_here (ek rest : jstring) :
  ek <> [] -> forallb is_key_char ek = true ->
  match_key (js "var k=" ++ [dq] ++ ek ++ [dq] ++ js ";" ++ rest) = Some ek.
Proof.
  intros Hne Hek. unfold match_key.
  change (js "var k=" ++ [dq] ++ ?t) with ((js "var k=" ++ [dq]) ++ t).
  rewrite strip_prefix_exact.
  rewrite take_while_app by (auto; reflexivity).
  destruct ek as [|c ek]; [congruence|].
  rewrite skipn_length_app. reflexivity.
Qed.

Definition prelude_tail (arrayName : jstring) : jstring :=
  js ";return atob(" ++ arrayName
  ++ js "[i]).split('').map(function(c,j){return String.fromCharCode(c.charCodeAt(0)^atob(k).charCodeAt(j%atob(k).length))}).join('')};".

Lemma decoderLogic_split (a f json ek rest : jstring) :
  decoderLogic a f json ek ++ rest
  = (js "var " ++ a ++ js "=" ++ json ++ js ";var " ++ f ++ js "=function(i){")
    ++ js "var " ++ js "k=" ++ [dq] ++ ek ++ [dq] ++ prelude_tail a ++ rest.
Proof.
  unfold decoderLogic, prelude_tail.
  change (js "=function(i){var k=")
    with (js "=function(i){" ++ js "var " ++ js "k=").
  rewrite <- !app_assoc. reflexivity.
Qed.

Lemma search_key_prelude (s1 s2 json ek rest : jstring) :
  forallb not_space s1 = true -> forallb not_space s2 = true ->
  forallb not_space json = true ->
  search match_key
    (decoderLogic (js "_S" ++ s1) (js "_D" ++ s2) json ek ++ rest)
  = search match_key
      (js "var k=" ++ [dq] ++ ek ++ [dq] ++ prelude_tail (js "_S" ++ s1) ++ rest).
Proof.
  intros Hs1 Hs2 Hjson. rewrite decoderLogic_split.
  rewrite search_app_none; [reflexivity|].
  apply no_key_before.
  rewrite <- !app_assoc.
  change (js "var " ++ js "_S" ++ ?t) with (js "var _S" ++ t).
  change (js ";var " ++ js "_D" ++ ?t) with (js ";var _D" ++ t).
  rewrite (pair_scan_skip 32 107 (js "var _S")) by reflexivity.
  rewrite (pair_scan_skip_free 32 107 s1) by exact Hs1.
  rewrite (pair_scan_skip 32 107 (js "=")) by reflexivity.
  rewrite (pair_scan_skip_free 32 107 json) by exact Hjson.
  rewrite (pair_scan_skip 32 107 (js ";var _D")) by reflexivity.
  rewrite (pair_scan_skip_free 32 107 s2) by exact Hs2.
  reflexivity.
Qed.

Lemma jstring_eqb_neq (a b : jstring) : a <> b -> jstring_eqb a b = false.
Proof. intro H. unfold jstring_eqb. destruct (list_eq_dec N.eq_dec a b); tauto. Qed.

Lemma jstring_eqb_eq (a b : jstring) : jstring_eqb a b = true -> a = b.
Proof. unfold jstring_eqb. destruct (list_eq_dec N.eq_dec a b); [auto|discriminate]. Qed.

Lemma btoa_not_empty (key ek : jstring) : key <> [] -> btoa key = Some ek -> ek <> [].
Proof.
  intros Hk Hb ->. apply atob_btoa in Hb. vm_compute in Hb. congruence.
Qed.

(** C7, amended to the code.  Take an artifact in which [encode] concealed
    at least one literal, under a key whose base64 form is made of
    letters, digits and [=] only, the random draws being renderings with a
    non-empty suffix for the array's name.  Then [decode] with a key that
    is not empty and whose base64 form differs from the embedded one fails
    with the wrapped mismatch error.  (An empty key is refused earlier,
    with the key-required error.) *)
Theorem decode_wrong_key (code key key' artifact log ek ek' : jstring)
    (w w' w2 : World) :
  encode code key w = (Return (artifact, log), w') ->
  literals code <> [] ->
  random_ok w ->
  btoa key = Some ek -> forallb is_key_char ek = true ->
  key' <> [] -> btoa key' = Some ek' -> ek' <> ek ->
  decode artifact key' w2 = (Throw (Error (msg_failed ++ msg_incorrect_key)), w2)
  /\ decode artifact [] w2 = (Throw (Error msg_decode_key_required), w2).
Proof.
  intros Henc Hlit (Hr1 & Hnz & Hr2) Hek Hchars Hk' Hek' Hdiff.
  split; [|reflexivity].
  apply conceal_success in Henc. destruct Henc as [Hk [(Hnil & _)|Henc]]; [congruence|].
  destruct Henc as (enc & ek0 & _ & Henc & Hek0 & ->).
  assert (ek0 = ek) as -> by congruence.
  pose proof (encoded_b64 _ _ _ Henc) as Hb64.
  destruct (stringify_strings_shape enc Hb64) as (body & Hjson & Hbody).
  unfold suffix_at in *. rewrite Nat.add_0_r, Nat.add_1_r in *.
  destruct (suffix_of_rendering _ Hr1) as [Ha1 Hne1]. specialize (Hne1 Hnz).
  destruct (suffix_of_rendering _ Hr2) as [Ha2 _].
  unfold decode. destruct key' as [|c key']; [congruence|]. cbn [is_empty].
  unfold try_catch.
  rewrite Hjson.
  rewrite search_key_prelude; auto using alphanumeric_not_space.
  2:{ cbn [forallb]. rewrite forallb_app, (plain_not_space _ Hbody).
      reflexivity. }
  rewrite (search_head _ _ _ (match_array_prelude _ _ _ _ _ Hne1 Ha1 Hbody)).
  unfold prelude_tail. rewrite <- !app_assoc.
  rewrite (search_head _ _ ek).
  2:{ apply (match_key_here ek); [apply (btoa_not_empty key); auto|exact Hchars]. }
  rewrite <- Hjson, (JSON_parse_strings enc Hb64).
  unfold bind, native, ret. rewrite Hek'. rewrite (jstring_eqb_neq _ _ Hdiff).
  reflexivity.
Qed.


(** *** Quoted runs of key characters

    [dq_free] reads a text and refuses it when a double quote is followed,
    after key characters only, by another double quote: the shape
    [match_key] needs.  The flag says whether such a run is open. *)

Fixpoint dq_free (open : bool) (s : jstring) : bool :=
  match s with
  | [] => true
  | c :: r =>
      if c =? dq then negb open && dq_free true r
      else dq_free (open && is_key_char c) r
  end.

Definition dq_state (open : bool) (s : jstring) : bool :=
  fold_left (fun o c => (c =? dq) || (o && is_key_char c)) s open.

Definition no_dq (c : N) : bool := negb (c =? dq).

Lemma dq_free_app (o : bool) (x y : jstring) :
  dq_free o (x ++ y) = dq_free o x && dq_free (dq_state o x) y.
Proof.
  revert o. induction x as [|c x IH]; intro o; [reflexivity|].
  cbn [app dq_free dq_state fold_left]. fold (dq_state ((c =? dq) || o && is_key_char c) x).
  destruct (c =? dq) eqn:Hc.
  - rewrite IH, andb_assoc. reflexivity.
  - rewrite IH. reflexivity.
Qed.

Lemma dq_free_plain (o : bool) (x : jstring) :
  forallb no_dq x = true ->
  dq_free o x = true /\ dq_state o x = o && forallb is_key_char x.
Proof.
  revert o. induction x as [|c x IH]; intros o H.
  - split; [reflexivity|]. simpl. rewrite andb_true_r. reflexivity.
  - cbn [forallb] in H. apply andb_prop in H. destruct H as [Hc Hx].
    unfold no_dq in Hc. apply negb_true_iff in Hc.
    cbn [dq_free dq_state fold_left forallb]. rewrite Hc.
    fold (dq_state (false || o && is_key_char c) x). cbn [orb].
    destruct (IH (o && is_key_char c) Hx) as [H1 H2].
    rewrite H1, H2, andb_assoc. auto.
Qed.

(** A text that is plain and closes any run: the state after it is closed. *)
Lemma dq_free_skip (o : bool) (x y : jstring) :
  forallb no_dq x = true -> forallb is_key_char x = false ->
  dq_free o (x ++ y) = dq_free false y.
Proof.
  intros Hx Hk. rewrite dq_free_app. destruct (dq_free_plain o x Hx) as [-> ->].
  rewrite Hk, andb_false_r. reflexivity.
Qed.

Lemma take_while_split (p : N -> bool) (s : jstring) :
  s = take_while p s ++ skipn (length (take_while p s)) s
  /\ forallb p (take_while p s) = true.
Proof.
  induction s as [|c s [IH1 IH2]]; [auto|]. simpl.
  destruct (p c) eqn:Hc; simpl; [|auto].
  rewrite Hc, IH2, <- IH1. auto.
Qed.

Lemma key_char_no_dq (s : jstring) :
  forallb is_key_char s = true -> forallb no_dq s = true.
Proof.
  apply forallb_impl. intro c.
  unfold is_key_char, is_alphanumeric, is_letter, is_decimal_digit, no_dq, dq.
  cases_on_tests.
Qed.

Lemma match_key_shape (s ek : jstring) :
  match_key s = Some ek ->
  exists rest, s = js "var k=" ++ [dq] ++ ek ++ dq :: rest
               /\ forallb is_key_char ek = true.
Proof.
  unfold match_key.
  destruct (strip_prefix (js "var k=" ++ [dq]) s) as [r|] eqn:Hr; [|discriminate].
  apply strip_prefix_app in Hr.
  destruct (take_while_split is_key_char r) as [Hsplit Hall].
  destruct (take_while is_key_char r) as [|c run] eqn:Hrun; [discriminate|].
  destruct (strip_prefix [dq; 59] (skipn (length (c :: run)) r)) as [t|] eqn:Ht;
    [|discriminate].
  apply strip_prefix_app in Ht. intros [= <-].
  exists (59 :: t). split; [|exact Hall].
  rewrite Hr, Hsplit at 1. rewrite Ht, <- app_assoc. reflexivity.
Qed.

Lemma match_key_not_dq_free (s ek : jstring) (o : bool) :
  match_key s = Some ek -> dq_free o s = false.
Proof.
  intro H. apply match_key_shape in H. destruct H as (rest & -> & Hek).
  rewrite (dq_free_skip o (js "var k=")) by reflexivity.
  cbn [app dq_free]. change (dq =? dq) with true. cbn [negb andb].
  rewrite dq_free_app.
  destruct (dq_free_plain true ek (key_char_no_dq _ Hek)) as [-> ->].
  rewrite Hek. reflexivity.
Qed.

Lemma dq_free_search (o : bool) (z : jstring) :
  dq_free o z = true -> search match_key z = None.
Proof.
  intro H. apply search_none. intro k.
  destruct (match_key (skipn k z)) as [ek|] eqn:Hm; [|reflexivity].
  rewrite <- (firstn_skipn k z), dq_free_app in H.
  apply andb_prop in H. destruct H as [_ H].
  rewrite (match_key_not_dq_free _ _ _ Hm) in H. discriminate.
Qed.


(** *** The first pass: literals out, placeholders in *)

Lemma until_close_length (q : N) (s x : jstring) (n : nat) :
  until_close q s = Some (x, n) -> (0 < n <= length s)%nat.
Proof.
  revert x n. induction s as [s IH] using list_length_ind. intros x n.
  destruct s as [|c r]; [discriminate|]. cbn [until_close].
  destruct (c =? q); [intros [= <- <-]; simpl; lia|].
  destruct (c =? backslash).
  - destruct r as [|d r']; [discriminate|].
    destruct (is_line_terminator d); [discriminate|].
    destruct (until_close q r') as [[y k]|] eqn:Hu; [|discriminate].
    intros [= <- <-]. apply IH in Hu; simpl in *; lia.
  - destruct (until_close q r) as [[y k]|] eqn:Hu; [|discriminate].
    intros [= <- <-]. apply IH in Hu; simpl in *; lia.
Qed.

Lemma match_literal_context_free : context_free match_literal.
Proof. intros p q s. reflexivity. Qed.

Lemma match_literal_progressing : progressing match_literal.
Proof.
  intros p s a n. unfold match_literal. destruct s as [|c r]; [discriminate|].
  destruct ((c =? dq) || (c =? sq)); [|discriminate].
  destruct (until_close c r) as [[x k]|] eqn:Hu; [|discriminate].
  intros [= <- <-]. apply until_close_length in Hu. simpl. lia.
Qed.

Definition placeholder_text (i : nat) : jstring :=
  placeholder_name ++ js "(" ++ decimal i ++ js ")".

Lemma digit_no_dq (s : jstring) :
  forallb is_decimal_digit s = true -> forallb no_dq s = true.
Proof.
  apply forallb_impl. intro c. unfold is_decimal_digit, no_dq, dq. cases_on_tests.
Qed.

Lemma placeholder_text_closes (o : bool) (i : nat) (y : jstring) :
  dq_free o (placeholder_name ++ js "(" ++ decimal i ++ js ")" ++ y)
  = dq_free false y.
Proof.
  replace (placeholder_name ++ js "(" ++ decimal i ++ js ")" ++ y)
    with (placeholder_text i ++ y)
    by (unfold placeholder_text; rewrite <- !app_assoc; reflexivity).
  apply dq_free_skip; [|reflexivity].
  unfold placeholder_text. rewrite !forallb_app, (digit_no_dq _ (decimal_digits i)).
  reflexivity.
Qed.

Lemma key_char_not_backslash (c : N) :
  is_key_char c = true -> (c =? backslash) = false.
Proof.
  unfold is_key_char, is_alphanumeric, is_letter, is_decimal_digit, backslash.
  cases_on_tests.
Qed.

Lemma first_pass_dq_free (s : jstring) :
  forall (o : bool) (i : nat),
    (o = true -> until_close dq s = None) ->
    dq_free o (place_holders (matches match_literal s) i) = true.
Proof.
  induction s as [s IH] using list_length_ind. intros o i Ho.
  destruct s as [|c r].
  - rewrite matches_nil by exact match_literal_progressing. reflexivity.
  - rewrite matches_cons
      by (exact match_literal_context_free || exact match_literal_progressing).
    destruct (match_literal None (c :: r)) as [[x n]|] eqn:Hm.
    + cbn [place_holders]. rewrite placeholder_text_closes.
      apply IH; [|discriminate].
      apply match_literal_progressing in Hm. rewrite length_skipn. lia.
    + cbn [place_holders dq_free]. cbn [match_literal] in Hm.
      destruct (c =? dq) eqn:Hc.
      * apply N.eqb_eq in Hc. subst c. cbn [orb] in Hm.
        destruct (until_close dq r) as [[x n]|] eqn:Hu; [discriminate|].
        destruct o.
        -- specialize (Ho eq_refl). cbn [until_close] in Ho.
           rewrite N.eqb_refl in Ho. discriminate.
        -- cbn [negb andb]. apply IH; [simpl; lia|]. intros _. exact Hu.
      * apply IH; [simpl; lia|]. intro Hk.
        apply andb_prop in Hk. destruct Hk as [-> Hk]. specialize (Ho eq_refl).
        cbn [until_close] in Ho. rewrite Hc in Ho.
        rewrite (key_char_not_backslash c Hk) in Ho. destruct (until_close dq r) as [[x n]|]; [discriminate|].
        reflexivity.
Qed.

Lemma no_hits_no_change (s : jstring) (i : nat) :
  hits (matches match_literal s) = [] ->
  place_holders (matches match_literal s) i = s.
Proof.
  induction s as [|c r IH]; intro H.
  - rewrite matches_nil by exact match_literal_progressing. reflexivity.
  - rewrite matches_cons in H |- *
      by (exact match_literal_context_free || exact match_literal_progressing).
    destruct (match_literal None (c :: r)) as [[x n]|]; [discriminate|].
    cbn [place_holders]. rewrite IH by exact H. reflexivity.
Qed.

(** *** The second pass: placeholders to decoder calls *)

Lemma lazy_to_paren_shape (s x : jstring) (n : nat) :
  lazy_to_paren s = Some (x, n) -> s = x ++ 41 :: skipn n s /\ n = S (length x).
Proof.
  revert x n. induction s as [|c r IH]; intros x n; [discriminate|].
  cbn [lazy_to_paren]. destruct (c =? 41) eqn:Hc.
  - apply N.eqb_eq in Hc. subst c. intros [= <- <-]. auto.
  - destruct (is_line_terminator c); [discriminate|].
    destruct (lazy_to_paren r) as [[y k]|] eqn:Hl; [|discriminate].
    intros [= <- <-]. destruct (IH _ _ eq_refl) as [H1 H2].
    cbn [skipn app length]. rewrite <- H1, H2. auto.
Qed.

Lemma skipn_prefix_plus {A : Type} (p r : list A) (k : nat) :
  skipn (length p + k) (p ++ r) = skipn k r.
Proof. induction p; simpl; auto. Qed.

Lemma match_placeholder_shape (p : option N) (s x : jstring) (n : nat) :
  match_placeholder p s = Some (x, n) ->
  s = (placeholder_name ++ js "(") ++ x ++ 41 :: skipn n s
  /\ (0 < n <= length s)%nat.
Proof.
  unfold match_placeholder.
  destruct (strip_prefix (placeholder_name ++ js "(") s) as [r|] eqn:Hr;
    [|discriminate].
  apply strip_prefix_app in Hr.
  destruct (lazy_to_paren r) as [[y k]|] eqn:Hl; [|discriminate].
  intros [= Hy Hn]. subst y. apply lazy_to_paren_shape in Hl. destruct Hl as [Hl Hk].
  assert (Hn' : n = (length (placeholder_name ++ js "(") + k)%nat)
    by (rewrite <- Hn; reflexivity).
  clear Hn. subst n.
  rewrite Hr at 2. rewrite skipn_prefix_plus. split.
  - rewrite Hr at 1. rewrite Hl at 1. reflexivity.
  - rewrite Hr, Hl, !length_app. cbn [length]. lia.
Qed.

Lemma match_placeholder_context_free : context_free match_placeholder.
Proof. intros p q s. reflexivity. Qed.

Lemma match_placeholder_progressing : progressing match_placeholder.
Proof. intros p s a n H. apply match_placeholder_shape in H. apply H. Qed.

Lemma replace_all_cons {A : Type} (m : matcher A) (g : A -> jstring) (c : N)
    (r : jstring) :
  context_free m -> progressing m ->
  replace_all m g (c :: r)
  = match m None (c :: r) with
    | Some (a, n) => g a ++ replace_all m g (skipn n (c :: r))
    | None => c :: replace_all m g r
    end.
Proof.
  intros Hc Hp. unfold replace_all. rewrite matches_cons by assumption.
  destruct (m None (c :: r)) as [[a n]|]; reflexivity.
Qed.

Lemma second_pass_dq_free (f : jstring) (z : jstring) :
  forallb no_dq f = true -> forallb is_key_char f = false ->
  forall o, dq_free o z = true ->
            dq_free o (replace_all match_placeholder (decoder_call f) z) = true.
Proof.
  intros Hf Hfk. induction z as [z IH] using list_length_ind. intros o Hz.
  destruct z as [|c r].
  - unfold replace_all. rewrite matches_nil by exact match_placeholder_progressing.
    reflexivity.
  - rewrite replace_all_cons
      by (exact match_placeholder_context_free || exact match_placeholder_progressing).
    destruct (match_placeholder None (c :: r)) as [[x n]|] eqn:Hm.
    + apply match_placeholder_shape in Hm. destruct Hm as [Hshape Hn].
      set (rest := skipn n (c :: r)) in *.
      rewrite Hshape in Hz.
      rewrite (dq_free_skip o (placeholder_name ++ js "(")) in Hz by reflexivity.
      rewrite dq_free_app in Hz. apply andb_prop in Hz. destruct Hz as [Hx Hrest].
      cbn [dq_free] in Hrest. change (41 =? dq) with false in Hrest.
      change (is_key_char 41) with false in Hrest. rewrite andb_false_r in Hrest.
      unfold decoder_call. rewrite <- !app_assoc.
      rewrite dq_free_skip by assumption.
      change (js "(" ++ x ++ js ")" ++ ?t) with (js "(" ++ x ++ 41 :: t).
      rewrite (dq_free_skip false (js "(")) by reflexivity.
      rewrite dq_free_app, Hx. cbn [andb dq_free]. change (41 =? dq) with false.
      change (is_key_char 41) with false. rewrite andb_false_r.
      apply IH; [|exact Hrest]. unfold rest. rewrite length_skipn. lia.
    + cbn [dq_free] in Hz |- *. destruct (c =? dq).
      * apply andb_prop in Hz. destruct Hz as [-> Hz]. cbn [andb].
        apply IH; [simpl; lia|exact Hz].
      * apply IH; [simpl; lia|exact Hz].
Qed.


Lemma alphanumeric_no_dq (s : jstring) :
  forallb is_alphanumeric s = true -> forallb no_dq s = true.
Proof.
  apply forallb_impl. intro c.
  unfold is_alphanumeric, is_letter, is_decimal_digit, no_dq, dq. cases_on_tests.
Qed.

Lemma b64_no_dq (s : jstring) : forallb is_b64 s = true -> forallb no_dq s = true.
Proof.
  apply forallb_impl. intros c H. apply is_b64_range in H.
  unfold no_dq, dq. destruct (N.eqb_spec c 34); [lia|reflexivity].
Qed.

(** The rewritten code holds no quoted run of key characters: every
    double quote the first pass keeps is one whose literal does not close. *)
Lemma rewritten_code_dq_free (code s2 : jstring) :
  forallb is_alphanumeric s2 = true ->
  dq_free false
    (replace_all match_placeholder (decoder_call (js "_D" ++ s2))
       (place_holders (matches match_literal code) 0)) = true.
Proof.
  intro Hs2. apply second_pass_dq_free.
  - rewrite forallb_app, (alphanumeric_no_dq _ Hs2). reflexivity.
  - reflexivity.
  - apply first_pass_dq_free. discriminate.
Qed.

Lemma no_literals_no_key (code : jstring) :
  literals code = [] -> search match_key code = None.
Proof.
  intro H. apply (dq_free_search false).
  rewrite <- (no_hits_no_change code 0 H). apply first_pass_dq_free. discriminate.
Qed.

(** An encoded key that holds [+] or [/] is not found by [match_key],
    neither where the prelude writes it nor further on. *)
Lemma hidden_key_not_found (s1 ek rest : jstring) :
  forallb is_alphanumeric s1 = true ->
  forallb no_dq ek = true -> forallb is_key_char ek = false ->
  dq_free false rest = true ->
  search match_key
    (js "var k=" ++ [dq] ++ ek ++ [dq] ++ prelude_tail (js "_S" ++ s1) ++ rest)
  = None.
Proof.
  intros Hs1 Hek Hk Hrest. apply (dq_free_search false).
  rewrite (dq_free_skip false (js "var k=")) by reflexivity.
  cbn [app dq_free]. change (dq =? dq) with true. cbn [negb andb].
  rewrite (dq_free_skip true ek) by assumption.
  cbn [dq_free]. change (dq =? dq) with true. cbn [negb andb].
  rewrite (dq_free_skip true (prelude_tail (js "_S" ++ s1))); [exact Hrest| |reflexivity].
  unfold prelude_tail. rewrite !forallb_app, (alphanumeric_no_dq _ Hs1). reflexivity.
Qed.

Lemma reveal_all (key : jstring) (strings enc : list jstring) (w : World) :
  Forall2 (fun s e => btoa (xorCipher s key) = Some e) strings enc ->
  mapM (fun s => t <- native InvalidCharacterError (atob (ToString s)) ;;
                 ret (xorCipher t key))
       (map JString enc) w
  = (Return strings, w).
Proof.
  induction 1 as [|s e strings enc He _ IH]; [reflexivity|].
  cbn [map mapM]. unfold bind in IH |- *.
  rewrite ToString_string, (atob_btoa _ _ He). cbn [native]. unfold ret at 1 2.
  rewrite IH. unfold ret. rewrite xorCipher_involutive. reflexivity.
Qed.

(** The log of [decode] has one line per string, numbered from 0. *)
Lemma reveal_lines_nth (l : list jstring) (k i : nat) (s : jstring) :
  nth_error l i = Some s ->
  nth_error (reveal_lines k l) i = Some (decimal (k + i) ++ js ": " ++ [dq] ++ s ++ [dq]).
Proof.
  revert k i. induction l as [|x l IH]; intros k [|i] H; try discriminate.
  - injection H as ->. cbn [reveal_lines nth_error]. rewrite Nat.add_0_r. reflexivity.
  - cbn [reveal_lines nth_error] in *. rewrite (IH (S k) i H).
    replace (S k + i)%nat with (k + S i)%nat by lia. reflexivity.
Qed.

Lemma reveal_lines_length (l : list jstring) (k : nat) :
  length (reveal_lines k l) = length l.
Proof.
  revert k. induction l as [|x l IH]; intro k; [reflexivity|].
  cbn [reveal_lines length]. rewrite IH. reflexivity.
Qed.

Lemma reveal_log_lists (l : list jstring) : lists_in_order (reveal_log l) l.
Proof.
  exists (reveal_lines 0 l). split; [reflexivity|].
  split; [apply reveal_lines_length|].
  intros i s H. apply (reveal_lines_nth l 0 i s H).
Qed.

(** X25.  Whenever [stringConceal.decode] succeeds on an artifact of
    [stringConceal.encode] (the random draws being renderings with a
    non-empty suffix for the array's name), what it returns as text is the
    fixed note, never the program given to [encode], and its log lists, in
    order, exactly the string literals of that program, line [i] reading
    [i: "s"] for the [i]-th literal [s]; it succeeds only with the key of
    the [encode] call. *)
Theorem decode_reveals_literals (code key key' artifact log result log2 : jstring)
    (w w' w2 w3 : World) :
  encode code key w = (Return (artifact, log), w') ->
  random_ok w ->
  decode artifact key' w2 = (Return (result, log2), w3) ->
  result <> code
  /\ result = decode_result
  /\ log2 = reveal_log (literals code)
  /\ lists_in_order log2 (literals code)
  /\ key' = key.
Proof.
  intros Henc (Hr1 & Hnz & Hr2) Hdec.
  apply conceal_success in Henc. destruct Henc as [Hk [(Hnil & -> & _)|Henc]].
  - exfalso. unfold decode in Hdec. destruct key' as [|c key']; [discriminate|].
    cbn [is_empty] in Hdec. unfold try_catch in Hdec.
    rewrite (no_literals_no_key code Hnil) in Hdec.
    destruct (search match_array code); discriminate.
  - destruct Henc as (enc & ek & Hlit & Henc & Hek & ->).
    pose proof (encoded_b64 _ _ _ Henc) as Hb64.
    destruct (stringify_strings_shape enc Hb64) as (body & Hjson & Hbody).
    unfold suffix_at in *. rewrite Nat.add_0_r, Nat.add_1_r in *.
    destruct (suffix_of_rendering _ Hr1) as [Ha1 Hne1]. specialize (Hne1 Hnz).
    destruct (suffix_of_rendering _ Hr2) as [Ha2 _].
    unfold decode in Hdec. destruct key' as [|c key']; [discriminate|].
    cbn [is_empty] in Hdec. unfold try_catch in Hdec.
    rewrite Hjson in Hdec.
    rewrite search_key_prelude in Hdec; auto using alphanumeric_not_space.
    2:{ cbn [forallb]. rewrite forallb_app, (plain_not_space _ Hbody). reflexivity. }
    rewrite (search_head _ _ _ (match_array_prelude _ _ _ _ _ Hne1 Ha1 Hbody)) in Hdec.
    destruct (forallb is_key_char ek) eqn:Hchars.
    + unfold prelude_tail in Hdec. rewrite <- !app_assoc in Hdec.
      rewrite (search_head _ _ ek) in Hdec.
      2:{ apply (match_key_here ek); [apply (btoa_not_empty key); auto|exact Hchars]. }
      rewrite <- Hjson, (JSON_parse_strings enc Hb64) in Hdec.
      unfold bind at 1, native at 1, ret at 1 in Hdec.
      unfold bind at 1 in Hdec.
      destruct (btoa (c :: key')) as [ek'|] eqn:Hek'; cbn [native] in Hdec;
        [|discriminate].
      unfold ret at 1 in Hdec.
      destruct (jstring_eqb ek' ek) eqn:Heq; [|discriminate].
      apply jstring_eqb_eq in Heq. subst ek'.
      assert (Hsame : c :: key' = key) by (apply (btoa_injective _ _ _ Hek' Hek)).
      rewrite Hsame in Hdec.
      pose proof (reveal_all key _ _ w2 Henc) as Hrev.
      unfold bind, as_array in Hdec, Hrev. unfold ret at 1 in Hdec.
      rewrite Hrev in Hdec.
      unfold ret in Hdec. injection Hdec as <- <- _.
      split; [intros <-; apply Hlit; reflexivity|].
      split; [reflexivity|]. split; [reflexivity|].
      split; [apply reveal_log_lists|exact Hsame].
    + exfalso.
      rewrite hidden_key_not_found in Hdec; auto.
      * discriminate.
      * apply b64_no_dq, (btoa_chars is_b64 _ _ eq_refl eq_refl Hek).
      * apply rewritten_code_dq_free, Ha2.
Qed.

(** C8, where the code leaves the claim.  When the draw that names the
    array is the number 0, [encode] names it [_S], with no suffix, and the
    pattern of [decode], [_S[a-zA-Z0-9]+], passes over it.  On the program
    [var _Sab=[1234];let x = "hi";], whose only string literal is [hi],
    [decode] with the key of [encode] then takes the program's own array
    for the concealed one and succeeds: its log has the single entry
    [atob("1234")] XOR-ed with the key, the code units 188, 6, 147, and
    does not list the literal.  The engine is any that reads [[1234]] as
    the array of the number 1234 and writes that number [1234]. *)
Theorem zero_draw_reveals_no_literal (w2 : World) :
  JSON_parse (js "[1234]") = Some (JArray [JNumber (inject_Z 1234)]) ->
  ToString (JNumber (inject_Z 1234)) = js "1234" ->
  encode sample_array_code (js "k") sample_zero_world
  = (Return (sample_zero_artifact, encode_log 1), sample_world_after_zero)
  /\ literals sample_array_code = [js "hi"]
  /\ exists log2,
       decode sample_zero_artifact (js "k") w2 = (Return (decode_result, log2), w2)
       /\ log2 = js "Revealed strings from the concealed array:" ++ [10; 10]
                 ++ js "0: " ++ [dq; 188; 6; 147; dq]
       /\ ~ lists_in_order log2 (literals sample_array_code).
Proof.
  intros Hparse Hstring.
  assert (Harray : search match_array sample_zero_artifact = Some (js "[1234]"))
    by (vm_compute; reflexivity).
  assert (Hkey : search match_key sample_zero_artifact = Some (js "aw=="))
    by (vm_compute; reflexivity).
  split; [vm_compute; reflexivity|]. split; [vm_compute; reflexivity|].
  eexists. split; [|split; [reflexivity|]].
  - unfold decode. change (is_empty (js "k")) with false. cbv iota.
    unfold try_catch. rewrite Harray, Hkey, Hparse.
    unfold bind, native, ret.
    replace (btoa (js "k")) with (Some (js "aw==")) by (vm_compute; reflexivity).
    replace (jstring_eqb (js "aw==") (js "aw==")) with true by (vm_compute; reflexivity).
    unfold as_array, ret. cbn [mapM]. unfold bind, native, ret. rewrite Hstring.
    replace (atob (js "1234")) with (Some [215; 109; 248]) by (vm_compute; reflexivity).
    vm_compute. reflexivity.
  - intros (lines & Hlog & Hlen & Hnth).
    replace (literals sample_array_code) with [js "hi"] in Hlen, Hnth
      by (vm_compute; reflexivity).
    destruct lines as [|x [|y lines]]; try discriminate.
    specialize (Hnth 0%nat (js "hi") eq_refl). injection Hnth as ->.
    vm_compute in Hlog. discriminate.
Qed.

End StringConceal.

(** *** Concrete runs of the string concealer *)

Lemma sample_world_ok : random_ok sample_world.
Proof.
  assert (H : base36_rendering (js "0.4fzyo82mvyr")).
  { right. exists (js "4fzyo82mvyr"). repeat split. discriminate. }
  repeat split; try exact H. discriminate.
Qed.

(** The run that produces [sample_concealed]. *)
Lemma sample_concealed_run :
  stringConceal.encode sample_code (js "k") sample_world
  = (Return (sample_concealed, stringConceal.encode_log 1), sample_world_after).
Proof. vm_compute. reflexivity. Qed.

(** C4: both key-based codecs guard their [encode], but not alike.  The
    fragment cipher refuses an empty code and an empty key; the string
    concealer refuses an empty key only, and with a key an empty code is
    returned as it came, under the log that no string was found.  In each
    case nothing has been transformed and the ambient state is untouched. *)
Theorem encode_input_guards {E : Engine} (code key : jstring) (w : World) :
  (code = [] \/ key = [] ->
   lanaVortex.encode code key w = (Throw (Error lanaVortex.msg_encode_empty), w))
  /\ (key = [] ->
      stringConceal.encode code key w
      = (Throw (Error stringConceal.msg_key_required), w))
  /\ (code = [] -> key <> [] ->
      stringConceal.encode code key w
      = (Return ([], stringConceal.log_no_strings), w)).
Proof.
  repeat split.
  - intros [-> | ->]; unfold lanaVortex.encode; [reflexivity|].
    rewrite orb_true_r. reflexivity.
  - intros ->. reflexivity.
  - intros -> Hk. destruct key as [|k key]; [congruence|]. reflexivity.
Qed.

(** C4 as stated fails: the string concealer accepts an empty code. *)
Lemma conceal_accepts_empty_code :
  stringConceal.encode [] (js "k") sample_world
  = (Return ([], stringConceal.log_no_strings), sample_world)
  /\ stringConceal.encode [] (js "k") sample_world
     <> (Throw (Error stringConceal.msg_key_required), sample_world).
Proof. split; [reflexivity|discriminate]. Qed.

(** The artifact of [let x = "hi";] under the key [k], read with [z]. *)
Lemma decode_wrong_key_witness :
  stringConceal.decode (E := reference_engine) sample_concealed (js "z") sample_world
  = (Throw (Error (stringConceal.msg_failed ++ stringConceal.msg_incorrect_key)),
     sample_world)
  /\ stringConceal.decode (E := reference_engine) sample_concealed [] sample_world
     = (Throw (Error stringConceal.msg_decode_key_required), sample_world).
Proof.
  apply (decode_wrong_key (E := reference_engine) sample_code (js "k") (js "z")
           sample_concealed (stringConceal.encode_log 1) (js "aw==") (js "eg==")
           sample_world sample_world_after sample_world).
  - exact sample_concealed_run.
  - vm_compute. discriminate.
  - exact sample_world_ok.
  - reflexivity.
  - reflexivity.
  - discriminate.
  - reflexivity.
  - vm_compute. discriminate.
Defined.

(** C7 as stated fails for the empty key: its base64 form, the empty
    string, differs from the embedded [aw==], and [decode] answers with the
    key-required error, not with the mismatch. *)
Lemma empty_key_is_not_a_mismatch :
  stringConceal.encode sample_code (js "k") sample_world
  = (Return (sample_concealed, stringConceal.encode_log 1), sample_world_after)
  /\ btoa (js "k") = Some (js "aw==")
  /\ btoa [] = Some []
  /\ stringConceal.decode (E := reference_engine) sample_concealed [] sample_world
     = (Throw (Error stringConceal.msg_decode_key_required), sample_world)
  /\ stringConceal.msg_decode_key_required
     <> stringConceal.msg_failed ++ stringConceal.msg_incorrect_key.
Proof.
  split; [exact sample_concealed_run|]. repeat split. vm_compute. discriminate.
Qed.

(** The slip beside C7: the key [>>>] has the base64 form [Pj4+], which the
    key pattern of [decode] cannot read; even the right key is answered
    with the not-found error. *)
Lemma plus_in_encoded_key_hides_it :
  btoa (js ">>>") = Some (js "Pj4+")
  /\ exists artifact log w',
       stringConceal.encode sample_code (js ">>>") sample_world
       = (Return (artifact, log), w')
       /\ stringConceal.decode (E := reference_engine) artifact (js ">>>") sample_world
          = (Throw (Error (stringConceal.msg_failed ++ stringConceal.msg_not_found)),
             sample_world).
Proof.
  split; [reflexivity|]. do 3 eexists. split; vm_compute; reflexivity.
Qed.

(** The same artifact read with its own key. *)
Lemma decode_reveals_literals_witness :
  stringConceal.decode_result <> sample_code
  /\ stringConceal.decode_result = stringConceal.decode_result
  /\ stringConceal.reveal_log [js "hi"]
     = stringConceal.reveal_log (stringConceal.literals sample_code)
  /\ lists_in_order (stringConceal.reveal_log [js "hi"])
       (stringConceal.literals sample_code)
  /\ js "k" = js "k".
Proof.
  apply (decode_reveals_literals (E := reference_engine) sample_code (js "k") (js "k")
           sample_concealed (stringConceal.encode_log 1)
           stringConceal.decode_result (stringConceal.reveal_log [js "hi"])
           sample_world sample_world_after sample_world sample_world).
  - exact sample_concealed_run.
  - exact sample_world_ok.
  - vm_compute. reflexivity.
Defined.

(** The zero draw, on the reference engine. *)
Lemma zero_draw_reveals_no_literal_witness :
  stringConceal.encode sample_array_code (js "k") sample_zero_world
  = (Return (sample_zero_artifact, stringConceal.encode_log 1), sample_world_after_zero)
  /\ stringConceal.literals sample_array_code = [js "hi"]
  /\ exists log2,
       stringConceal.decode (E := reference_engine) sample_zero_artifact (js "k")
         sample_world
       = (Return (stringConceal.decode_result, log2), sample_world)
       /\ log2 = js "Revealed strings from the concealed array:" ++ [10; 10]
                 ++ js "0: " ++ [dq; 188; 6; 147; dq]
       /\ ~ lists_in_order log2 (stringConceal.literals sample_array_code).
Proof.
  apply (zero_draw_reveals_no_literal (E := reference_engine) sample_world).
  - vm_compute. reflexivity.
  - vm_compute. reflexivity.
Defined.

(** *** A concrete run of the identifier renamer *)

(** C9, where the code leaves the claim.  In [var b = a;] the identifier
    [b] is renamed to [a], then every [a], the new one included, to [b]:
    the artifact is [var b = b;].  Restoring with the table gives
    [var a = a;], which is not the minified input [var b = a;]. *)
Theorem rename_round_trip_fails :
  let code := js "var b = a;" in
  let table := lexicalScramble.JSON_stringify_table [(js "b", js "a"); (js "a", js "b")] in
  lexicalScramble.encode code sample_world
  = (Return (js "var b = b;", table), sample_world)
  /\ option_map (fun m => m sample_world)
       (lexicalScramble.decode (E := reference_engine) (js "var b = b;") table)
     = Some (Return (js "var a = a;", lexicalScramble.decode_log), sample_world)
  /\ lexicalScramble.minify code = code
  /\ js "var a = a;" <> lexicalScramble.minify code.
Proof.
  cbv zeta. repeat split; try (vm_compute; reflexivity). vm_compute. discriminate.
Qed.

(** * Further properties of the code

    Properties of the functions around the claims: what the helper
    functions guarantee, when the codecs succeed and how they fail, and the
    round trips the decoders do support. *)

(** ** methods/lana-vortex.js *)

(** *** The seed *)

Lemma toInt32_range (z : Z) :
  (-2147483648 <= lanaVortex.toInt32 z < 2147483648)%Z.
Proof.
  unfold lanaVortex.toInt32.
  pose proof (Z.mod_pos_bound (z + 2147483648) 4294967296). lia.
Qed.

Lemma toInt32_step (h c : Z) :
  lanaVortex.toInt32 (lanaVortex.toInt32 (Z.shiftl h 5) - h + c)
  = lanaVortex.toInt32 (31 * h + c).
Proof.
  rewrite Z.shiftl_mul_pow2 by lia. change (2 ^ 5)%Z with 32%Z.
  unfold lanaVortex.toInt32. f_equal.
  Z.to_euclidean_division_equations. lia.
Qed.

Lemma toInt32_congr (a b : Z) :
  ((a - b) mod 4294967296 = 0)%Z -> lanaVortex.toInt32 a = lanaVortex.toInt32 b.
Proof.
  intro H. unfold lanaVortex.toInt32. f_equal.
  Z.to_euclidean_division_equations. lia.
Qed.

Lemma toInt32_mod (a : Z) : ((lanaVortex.toInt32 a - a) mod 4294967296 = 0)%Z.
Proof. unfold lanaVortex.toInt32. Z.to_euclidean_division_equations. lia. Qed.

Lemma createSeed_app (p s : jstring) :
  lanaVortex.createSeed (p ++ s)
  = fold_left
      (fun hash char =>
         lanaVortex.toInt32
           (lanaVortex.toInt32 (Z.shiftl hash 5) - hash + Z.of_N char)%Z)
      s (lanaVortex.createSeed p).
Proof. unfold lanaVortex.createSeed. apply fold_left_app. Qed.

Lemma createSeed_snoc (key : jstring) (c : N) :
  lanaVortex.createSeed (key ++ [c])
  = lanaVortex.toInt32 (31 * lanaVortex.createSeed key + Z.of_N c).
Proof. rewrite createSeed_app. cbn [fold_left]. apply toInt32_step. Qed.

(** X1.  [createSeed] is the polynomial hash with multiplier 31, wrapped
    to a signed 32-bit integer after every character: the seed of a key
    always lies in [-2^31, 2^31), appending a character [c] to a key of
    seed [h] gives the wrapped [31 * h + c], and so two keys that differ
    by +1 in one character and -31 in the next have the same seed (as
    [BB] and [Aa] do), hence the same shuffle. *)
Theorem createSeed_polynomial_hash (key : jstring) :
  (-2147483648 <= lanaVortex.createSeed key < 2147483648)%Z
  /\ (forall c, lanaVortex.createSeed (key ++ [c])
                = lanaVortex.toInt32 (31 * lanaVortex.createSeed key + Z.of_N c))
  /\ (forall a b rest,
        lanaVortex.createSeed (key ++ [a + 1; b] ++ rest)
        = lanaVortex.createSeed (key ++ [a; b + 31] ++ rest)).
Proof.
  split; [|split].
  - induction key as [|c key _] using rev_ind.
    + unfold lanaVortex.createSeed. simpl. lia.
    + rewrite createSeed_snoc. apply toInt32_range.
  - apply createSeed_snoc.
  - intros a b rest. rewrite !createSeed_app, !fold_left_app. f_equal.
    cbn [fold_left]. rewrite !toInt32_step.
    apply toInt32_congr.
    pose proof (toInt32_mod (31 * lanaVortex.createSeed key + Z.of_N (a + 1))).
    pose proof (toInt32_mod (31 * lanaVortex.createSeed key + Z.of_N a)).
    Z.to_euclidean_division_equations. lia.
Qed.

(** *** The generator *)

Lemma seededRandom_step (seed : Z) :
  let (r, seed') := lanaVortex.seededRandom seed in
  (-233280 < seed' < 233280)%Z /\ r = (seed' # 233280)%Q
  /\ ((0 <= seed)%Z -> (0 <= seed')%Z).
Proof.
  unfold lanaVortex.seededRandom. cbv zeta.
  pose proof (Z.rem_bound_abs (seed * 9301 + 49297) 233280 ltac:(lia)) as Hb.
  repeat split; try lia.
  intro H. apply Z.rem_nonneg; lia.
Qed.

(** X2.  However many numbers are drawn from the generator, each lies
    strictly between -1 and 1; and from a seed that is not negative the
    state never becomes negative, so every draw lies in [[0, 1)], as the
    generator's documentation says.  (Negative values come from negative
    seeds only.) *)
Theorem seededRandom_draws (seed : Z) (k : nat) :
  Forall (fun r => (-1 < r /\ r < 1)%Q) (draws k seed)
  /\ ((0 <= seed)%Z -> Forall (fun r => (0 <= r /\ r < 1)%Q) (draws k seed)).
Proof.
  revert seed. induction k as [|k IH]; intro seed; cbn [draws].
  - split; constructor.
  - pose proof (seededRandom_step seed) as Hs.
    destruct (lanaVortex.seededRandom seed) as [r seed'].
    destruct Hs as (Hb & -> & Hpos). destruct (IH seed') as [IH1 IH2].
    split.
    + constructor; [|exact IH1]. unfold Qlt. cbn [Qnum Qden]. lia.
    + intro H. specialize (Hpos H). constructor; [|exact (IH2 Hpos)].
      unfold Qle, Qlt. cbn [Qnum Qden]. lia.
Qed.

(** *** The cipher *)

Lemma xorCipher_from_length (text key : jstring) (i : nat) :
  length (xorCipher_from i text key) = length text.
Proof.
  revert i. induction text as [|c t IH]; intro i; simpl; [reflexivity|].
  rewrite IH. reflexivity.
Qed.

Lemma xorCipher_from_empty_key (text : jstring) (i : nat) :
  xorCipher_from i text [] = text.
Proof.
  revert i. induction text as [|c t IH]; intro i; simpl; [reflexivity|].
  rewrite IH. destruct i; rewrite N.lxor_0_r; reflexivity.
Qed.

Lemma lxor_latin1 (a b : N) : a < 256 -> b < 256 -> N.lxor a b < 256.
Proof.
  intros Ha Hb.
  destruct (N.eq_dec (N.lxor a b) 0) as [->|Hz]; [lia|].
  change 256 with (2 ^ 8). apply N.log2_lt_pow2; [lia|].
  pose proof (N.log2_lxor a b) as Hl.
  assert (N.log2 a < 8).
  { destruct (N.eq_dec a 0) as [->|]; [reflexivity|]. apply N.log2_lt_pow2; lia. }
  assert (N.log2 b < 8).
  { destruct (N.eq_dec b 0) as [->|]; [reflexivity|]. apply N.log2_lt_pow2; lia. }
  lia.
Qed.

Lemma lxor_wide (a b : N) : 256 <= a -> b < 256 -> 256 <= N.lxor a b.
Proof.
  intros Ha Hb.
  assert (H : N.lxor a b / 256 = a / 256).
  { change 256 with (2 ^ 8). rewrite <- !N.shiftr_div_pow2, N.shiftr_lxor.
    rewrite (N.shiftr_div_pow2 b), (N.div_small b) by exact Hb.
    apply N.lxor_0_r. }
  assert (1 <= a / 256) by (apply N.div_le_lower_bound; lia).
  destruct (N.lt_ge_cases (N.lxor a b) 256) as [Hlt|]; [|assumption].
  rewrite (N.div_small _ _ Hlt) in H. lia.
Qed.

Lemma nth_latin1 (key : jstring) (i : nat) :
  is_latin1 key = true -> nth i key 0 < 256.
Proof.
  unfold is_latin1. revert i. induction key as [|k key IH]; intros [|i] H; simpl in *;
    try lia; apply andb_prop in H; destruct H as [Hk H].
  - apply N.ltb_lt, Hk.
  - apply IH, H.
Qed.

Lemma xorCipher_from_latin1 (text key : jstring) (i : nat) :
  is_latin1 key = true ->
  is_latin1 (xorCipher_from i text key) = is_latin1 text.
Proof.
  intro Hk. revert i. unfold is_latin1.
  induction text as [|c t IH]; intro i; [reflexivity|].
  cbn [xorCipher_from forallb]. rewrite IH. f_equal.
  pose proof (nth_latin1 key (i mod length key) Hk) as Hn.
  destruct (N.ltb_spec c 256) as [Hc|Hc].
  - apply N.ltb_lt, lxor_latin1; assumption.
  - apply N.ltb_ge, lxor_wide; assumption.
Qed.

(** X3.  [xorCipher], of which both key-based codecs carry a copy, undoes
    itself under the same key and keeps the length of the text; with an
    empty key it returns the text as it is; and under a key of code units
    below 256 the result has a code unit above 255 exactly when the text
    has one (which is what decides whether [btoa] accepts it). *)
Theorem xorCipher_involution (text key : jstring) :
  xorCipher (xorCipher text key) key = text
  /\ length (xorCipher text key) = length text
  /\ xorCipher text [] = text
  /\ (is_latin1 key = true -> is_latin1 (xorCipher text key) = is_latin1 text).
Proof.
  unfold xorCipher. repeat split.
  - apply xorCipher_from_involutive.
  - apply xorCipher_from_length.
  - apply xorCipher_from_empty_key.
  - intro H. apply xorCipher_from_latin1, H.
Qed.

(** *** Fragments *)

Lemma chunkSize_min (key : jstring) : (2 <= lanaVortex.chunkSize key)%nat.
Proof. unfold lanaVortex.chunkSize. lia. Qed.

Lemma fragment_cons (key : jstring) (c : N) (rest : jstring) :
  lanaVortex.fragment key (c :: rest)
  = firstn (lanaVortex.chunkSize key) (c :: rest)
    :: lanaVortex.fragment key (skipn (lanaVortex.chunkSize key) (c :: rest)).
Proof. simp fragment. reflexivity. Qed.

Lemma fragment_nil (key : jstring) : lanaVortex.fragment key [] = [].
Proof. simp fragment. reflexivity. Qed.

Lemma fragment_spec (key code : jstring) :
  concat (lanaVortex.fragment key code) = code
  /\ Forall (fun f => (0 < length f <= lanaVortex.chunkSize key)%nat)
       (lanaVortex.fragment key code)
  /\ (length (lanaVortex.fragment key code) * lanaVortex.chunkSize key
      < length code + lanaVortex.chunkSize key)%nat
  /\ (length code
      <= length (lanaVortex.fragment key code) * lanaVortex.chunkSize key)%nat
  /\ (forall i, (S i < length (lanaVortex.fragment key code))%nat ->
        length (nth i (lanaVortex.fragment key code) []) = lanaVortex.chunkSize key).
Proof.
  pose proof (chunkSize_min key) as Hc.
  induction code as [code IH] using list_length_ind.
  destruct code as [|c rest].
  - rewrite fragment_nil. repeat split; simpl; try lia. constructor.
  - rewrite fragment_cons.
    set (s := c :: rest) in *.
    assert (Hlen : (length (skipn (lanaVortex.chunkSize key) s) < length s)%nat).
    { rewrite length_skipn. unfold s. cbn [length]. lia. }
    destruct (IH _ Hlen) as (H1 & H2 & H3 & H4 & H5).
    cbn [concat length]. rewrite H1, firstn_skipn.
    rewrite length_skipn in H3, H4.
    assert (Hs : (0 < length s)%nat) by (unfold s; cbn [length]; lia).
    repeat split.
    + constructor; [|exact H2]. rewrite length_firstn. unfold s. cbn [length]. lia.
    + destruct (Nat.le_gt_cases (length s) (lanaVortex.chunkSize key)) as [Hle|Hgt].
      * destruct (length (lanaVortex.fragment key
                            (skipn (lanaVortex.chunkSize key) s))); [lia|nia].
      * lia.
    + lia.
    + intros [|i] Hi; cbn [nth].
      * rewrite length_firstn.
        destruct (lanaVortex.fragment key (skipn (lanaVortex.chunkSize key) s))
          as [|f fs] eqn:Hf; [simpl in Hi; lia|].
        destruct (skipn (lanaVortex.chunkSize key) s) as [|d t] eqn:Hskip.
        { rewrite fragment_nil in Hf. discriminate. }
        apply (f_equal (@length N)) in Hskip. rewrite length_skipn in Hskip.
        cbn [length] in Hskip. lia.
      * apply H5. lia.
Qed.

(** X4.  The fragmentation of [encode] cuts the code into consecutive
    pieces: glued together again they are the code, no piece is empty,
    every piece but the last has exactly the chunk size (which is
    [max 2 (floor (key.length / 2))], so at least 2), and there are as
    many pieces as the chunk size needs to cover the code. *)
Theorem fragment_partition (key code : jstring) :
  let size := lanaVortex.chunkSize key in
  let fragments := lanaVortex.fragment key code in
  concat fragments = code
  /\ (2 <= size)%nat
  /\ Forall (fun f => (0 < length f <= size)%nat) fragments
  /\ (forall i, (S i < length fragments)%nat -> length (nth i fragments []) = size)
  /\ (length code <= length fragments * size < length code + size)%nat.
Proof.
  cbv zeta. destruct (fragment_spec key code) as (H1 & H2 & H3 & H4 & H5).
  repeat split; auto using chunkSize_min.
Qed.

(** *** When [encode] succeeds *)

Lemma is_latin1_concat (l : list jstring) :
  is_latin1 (concat l) = forallb is_latin1 l.
Proof.
  unfold is_latin1. induction l as [|x l IH]; [reflexivity|].
  cbn [concat forallb]. rewrite forallb_app, IH. reflexivity.
Qed.

Lemma forallb_false {A : Type} (p : A -> bool) (l : list A) :
  forallb p l = false -> exists x, In x l /\ p x = false.
Proof.
  induction l as [|a l IH]; [discriminate|]. cbn [forallb].
  destruct (p a) eqn:Ha.
  - intro H. destruct (IH H) as (x & Hx & Hp). exists x. split; [right|]; assumption.
  - intros _. exists a. split; [left; reflexivity|exact Ha].
Qed.

Lemma mapM_map {A B C : Type} (g : A -> B) (f : B -> M C) (l : list A) :
  mapM f (map g l) = mapM (fun a => f (g a)) l.
Proof.
  induction l as [|a l IH]; [reflexivity|]. cbn [map mapM]. rewrite IH. reflexivity.
Qed.

(** [mapM] over a built-in that throws one native exception. *)
Lemma mapM_native_all {A B : Type} (e : native_exn) (f : A -> option B) (g : A -> B)
    (l : list A) (w : World) :
  Forall (fun a => f a = Some (g a)) l ->
  mapM (fun a => native e (f a)) l w = (Return (map g l), w).
Proof.
  induction 1 as [|a l Ha _ IH]; [reflexivity|].
  cbn [mapM map]. unfold bind. rewrite Ha. cbn [native].
  change (ret (g a) w) with (Return (g a), w). cbn iota.
  rewrite IH. reflexivity.
Qed.

Lemma mapM_native_outcome {A B : Type} (e : native_exn) (f : A -> option B)
    (l : list A) (w : World) :
  (exists bs, mapM (fun a => native e (f a)) l w = (Return bs, w)
              /\ Forall (fun a => f a <> None) l)
  \/ (mapM (fun a => native e (f a)) l w = (Throw (Native e), w)
      /\ Exists (fun a => f a = None) l).
Proof.
  induction l as [|a l IH].
  - left. exists []. split; [reflexivity|constructor].
  - cbn [mapM]. unfold bind. destruct (f a) as [b|] eqn:Ha; cbn [native].
    + change (ret b w) with (Return b, w).
      destruct IH as [(bs & Hm & Hall)|[Hm Hex]]; rewrite Hm.
      * left. exists (b :: bs). split; [reflexivity|].
        constructor; [congruence|exact Hall].
      * right. split; [reflexivity|]. apply Exists_cons_tl, Hex.
    + right. split; [reflexivity|]. apply Exists_cons_hd, Ha.
Qed.

Lemma btoa_xor (key f : jstring) :
  is_latin1 key = true ->
  btoa (xorCipher f key)
  = if is_latin1 f then Some (b64_encode (xorCipher f key)) else None.
Proof.
  intro Hk. unfold btoa, xorCipher. rewrite xorCipher_from_latin1 by exact Hk.
  reflexivity.
Qed.

Section LanaVortexMore.
Context {E : Engine}.
Import lanaVortex.

Lemma shuffledIndices_in (key : jstring) (n i : nat) :
  In i (shuffledIndices key n) <-> (i < n)%nat.
Proof.
  pose proof (shuffledIndices_perm key n) as Hperm. split; intro H.
  - apply (Permutation_in _ (Permutation_sym Hperm)) in H. apply in_seq in H. lia.
  - apply (Permutation_in _ Hperm). apply in_seq. lia.
Qed.

Lemma shuffledFragments_some (key code : jstring) :
  shuffledFragments key (fragment key code) = map Some (shuffled key code).
Proof.
  unfold shuffledFragments, shuffled. rewrite map_map. apply map_ext_in.
  intros i Hi. apply shuffledIndices_in in Hi.
  apply nth_error_nth'. exact Hi.
Qed.

Lemma encrypt_native (key : jstring) (l : list jstring) :
  mapM (encrypt key) (map Some l)
  = mapM (fun f => native InvalidCharacterError (btoa (xorCipher f key))) l.
Proof. exact (mapM_map Some (encrypt key) l). Qed.

Lemma shuffled_in (key code f : jstring) :
  In f (shuffled key code) <-> In f (fragment key code).
Proof.
  unfold shuffled. rewrite in_map_iff. split.
  - intros (i & <- & Hi). apply shuffledIndices_in in Hi. apply nth_In, Hi.
  - intro H. apply (In_nth _ _ []) in H. destruct H as (i & Hi & <-).
    exists i. split; [reflexivity|]. apply shuffledIndices_in, Hi.
Qed.

(** X5.  [lanaVortex.encode] succeeds on every code and key that are not
    empty and hold no code unit above 255, and the artifact is the wrapper
    around the base64 form of each fragment, XOR-ed with the key, in
    shuffled order, the permutation map and the base64 form of the key.
    The pending [Math.random] results are not touched. *)
Theorem encode_latin1 (code key : jstring) (w : World) :
  code <> [] -> key <> [] -> is_latin1 code = true -> is_latin1 key = true ->
  encode code key w
  = (Return
       (wrapper
          (JSON_stringify_strings
             (map (fun f => b64_encode (xorCipher f key)) (shuffled key code)))
          (JSON_stringify_numbers
             (originalOrderMap key (length (fragment key code))))
          (b64_encode key),
        encode_log), w).
Proof.
  intros Hc Hk Hlc Hlk. unfold encode.
  destruct code as [|c code]; [congruence|]. destruct key as [|k key]; [congruence|].
  cbn [is_empty orb]. set (code' := c :: code) in *. set (key' := k :: key) in *.
  unfold encode_tables, bind at 1.
  rewrite shuffledFragments_some, encrypt_native.
  unfold bind at 1.
  rewrite (mapM_native_all _ _ (fun f => b64_encode (xorCipher f key'))).
  - unfold ret at 1. cbn [fst snd]. unfold bind, btoa. rewrite Hlk. cbn [native].
    unfold ret. rewrite trim_wrapper. reflexivity.
  - apply Forall_forall. intros f Hf. rewrite btoa_xor by exact Hlk.
    apply shuffled_in in Hf.
    destruct (fragment_spec key' code') as (Hcat & _).
    rewrite <- Hcat, is_latin1_concat in Hlc.
    rewrite forallb_forall in Hlc. rewrite (Hlc f Hf). reflexivity.
Qed.

(** X6.  On any other code and key that are not empty, when the code or the key
    holds a code unit above 255 (a euro sign, a letter outside Latin-1, an
    emoji), [lanaVortex.encode] throws the [InvalidCharacterError] of
    [btoa]: it does not catch it, and nothing is returned. *)
Theorem encode_rejects_wide_characters (code key : jstring) (w : World) :
  code <> [] -> key <> [] -> is_latin1 code = false \/ is_latin1 key = false ->
  encode code key w = (Throw (Native InvalidCharacterError), w).
Proof.
  intros Hc Hk Hwide. unfold encode.
  destruct code as [|c code]; [congruence|]. destruct key as [|k key]; [congruence|].
  cbn [is_empty orb]. set (code' := c :: code) in *. set (key' := k :: key) in *.
  unfold encode_tables, bind at 1.
  rewrite shuffledFragments_some, encrypt_native.
  unfold bind at 1.
  destruct (mapM_native_outcome InvalidCharacterError
              (fun f => btoa (xorCipher f key')) (shuffled key' code') w)
    as [(bs & -> & Hall)|[-> _]]; [|reflexivity].
  unfold ret at 1. cbn [fst snd]. unfold bind.
  destruct (is_latin1 key') eqn:Hlk.
  - exfalso. destruct Hwide as [Hlc|]; [|discriminate].
    destruct (fragment_spec key' code') as (Hcat & _).
    rewrite <- Hcat, is_latin1_concat in Hlc.
    apply forallb_false in Hlc. destruct Hlc as (f & Hf & Hwide).
    apply shuffled_in in Hf. rewrite Forall_forall in Hall.
    apply (Hall f Hf). rewrite btoa_xor, Hwide by exact Hlk. reflexivity.
  - unfold btoa. rewrite Hlk. reflexivity.
Qed.

(** *** What [decode] finds in an artifact *)

Lemma lazy_bracket_spec (body rest : jstring) :
  forallb plain_json_char body = true ->
  lazy_to_bracket (body ++ 93 :: rest) = Some (body ++ [93]).
Proof.
  induction body as [|c body IH]; intro H.
  - reflexivity.
  - simpl in H. apply andb_prop in H. destruct H as [Hc Hb].
    unfold plain_json_char in Hc.
    apply andb_prop in Hc. destruct Hc as [Hc _].
    apply andb_prop in Hc. destruct Hc as [H93 Hlt].
    apply negb_true_iff in H93, Hlt.
    cbn [app lazy_to_bracket]. rewrite H93, Hlt, (IH Hb). reflexivity.
Qed.

Lemma match_var_needs_v (name : jstring) (c : N) (s : jstring) :
  (c =? 118) = false -> match_var name (c :: s) = None.
Proof.
  intro H. unfold match_var. cbn [js list_ascii_of_string map app strip_prefix].
  change (N_of_ascii "v") with 118. rewrite N.eqb_sym, H. reflexivity.
Qed.

Lemma match_var_here (name body rest : jstring) :
  forallb plain_json_char body = true ->
  match_var name (js "var " ++ name ++ js "=" ++ (91 :: body ++ [93]) ++ rest)
  = Some (91 :: body ++ [93]).
Proof.
  intro H. unfold match_var.
  replace (js "var " ++ name ++ js "=" ++ (91 :: body ++ [93]) ++ rest)
    with ((js "var " ++ name ++ js "=[") ++ body ++ 93 :: rest).
  - rewrite strip_prefix_exact, lazy_bracket_spec by exact H. reflexivity.
  - rewrite <- !app_assoc. cbn [app]. rewrite <- app_assoc. reflexivity.
Qed.

Lemma search_skip_no_v (name x y : jstring) :
  forallb (fun c => negb (c =? 118)) x = true ->
  search (match_var name) (x ++ y) = search (match_var name) y.
Proof.
  intro H. apply search_app_none. intros x1 c x2 ->.
  rewrite forallb_app in H. apply andb_prop in H. destruct H as [_ H].
  cbn [forallb] in H. apply andb_prop in H. destruct H as [Hc _].
  apply negb_true_iff in Hc. apply match_var_needs_v, Hc.
Qed.

(** X7.  In every artifact of [lanaVortex.encode] the payload pattern of
    [decode], [/var p=(\[.*?\])/], finds exactly the serialised array of
    encrypted fragments that [encode] wrote, one string per fragment, and
    [JSON.parse] reads it back: of the two searches [decode] makes, the
    one for the payload succeeds. *)
Theorem artifact_payload_found (code key artifact log : jstring) (w w' : World) :
  encode code key w = (Return (artifact, log), w') ->
  exists encryptedFragments : list jstring,
    search (match_var (js "p")) artifact
    = Some (JSON_stringify_strings encryptedFragments)
    /\ length encryptedFragments = length (fragment key code)
    /\ JSON_parse (JSON_stringify_strings encryptedFragments)
       = Some (JArray (map JString encryptedFragments)).
Proof.
  intro H. apply encode_success in H.
  destruct H as (enc & dk & _ & _ & Hm & _ & -> & _).
  exists enc. pose proof (encrypted_b64 _ _ _ _ _ Hm) as Hb64.
  split; [|split].
  - destruct (stringify_strings_shape enc Hb64) as (body & Hjson & Hbody).
    rewrite Hjson. unfold wrapper.
    change (js "(function(){var p=")
      with (js "(function(){" ++ js "var " ++ js "p" ++ js "=").
    rewrite <- !app_assoc.
    rewrite search_skip_no_v by reflexivity.
    apply search_head.
    apply (match_var_here (js "p") body), Hbody.
  - apply mapM_Forall2, Forall2_length in Hm. rewrite <- Hm.
    unfold shuffledFragments. rewrite length_map.
    rewrite <- (Permutation_length (shuffledIndices_perm key _)).
    apply length_seq.
  - apply JSON_parse_strings, Hb64.
Qed.

(** *** What [decode] restores *)

Lemma join_holes_some (l : list jstring) : join_holes (map Some l) = concat l.
Proof. unfold join_holes. rewrite map_map, map_id. reflexivity. Qed.

Lemma encode_tables_success (code key : jstring) (enc : list jstring)
    (om : list (option nat)) (w w' : World) :
  encode_tables code key w = (Return (enc, om), w') ->
  Forall2 (fun f e => btoa (xorCipher f key) = Some e) (shuffled key code) enc
  /\ om = originalOrderMap key (length (fragment key code))
  /\ w' = w.
Proof.
  unfold encode_tables, bind.
  rewrite shuffledFragments_some, encrypt_native.
  destruct (mapM _ (shuffled key code) w) as [[bs|e] w1] eqn:Hm; [|discriminate].
  apply mapM_btoa in Hm. destruct Hm as [-> H].
  unfold ret. intros [= <- <- <-]. auto.
Qed.

Lemma decrypt_all (key key' : jstring) (strings enc : list jstring) (w : World) :
  Forall2 (fun s e => btoa (xorCipher s key) = Some e) strings enc ->
  mapM (fun frag => s <- native InvalidCharacterError (atob (ToString frag)) ;;
                    ret (xorCipher s key'))
       (map JString enc) w
  = (Return (map (fun s => xorCipher (xorCipher s key) key') strings), w).
Proof.
  induction 1 as [|s e strings enc He _ IH]; [reflexivity|].
  cbn [map mapM]. unfold bind in IH |- *.
  rewrite ToString_string, (atob_btoa _ _ He). cbn [native]. unfold ret at 1 2.
  rewrite IH. reflexivity.
Qed.

Lemma strictly_equals_number (a i : nat) :
  strictly_equals_index (number_or_null (Some a)) i = Nat.eqb a i.
Proof.
  cbn [strictly_equals_index number_or_null]. unfold Qeq_bool, inject_Z.
  cbn [Qnum Qden]. rewrite !Z.mul_1_r.
  destruct (Nat.eqb_spec a i) as [->|Hne].
  - apply Z.eqb_refl.
  - apply Z.eqb_neq. lia.
Qed.

Lemma indexOf_from_numbers (inv : list nat) (pos x i : nat) :
  NoDup inv -> nth_error inv x = Some i ->
  indexOf_from pos (map number_or_null (map Some inv)) i = Some (pos + x)%nat.
Proof.
  revert pos x. induction inv as [|a inv IH]; intros pos x Hnd Hx.
  - destruct x; discriminate.
  - inversion Hnd as [|? ? Hnotin Hnd']; subst.
    cbn [map indexOf_from]. rewrite strictly_equals_number.
    destruct x as [|x]; cbn [nth_error] in Hx.
    + injection Hx as ->. rewrite Nat.eqb_refl. f_equal. lia.
    + destruct (Nat.eqb_spec a i) as [->|_].
      * exfalso. apply Hnotin. apply (nth_error_In _ _ Hx).
      * rewrite (IH (S pos) x Hnd' Hx). f_equal. lia.
Qed.

(** The loop that puts the fragments back, for a map that sends the
    position [k + j] to the [j]-th index of [pi]. *)
Lemma reorder_spec (orderMap : list JValue) (pi : list nat) (ds : list jstring)
    (k : nat) (a : list (option jstring)) (w : World) :
  (forall j x, nth_error pi j = Some x -> indexOf_from 0 orderMap (k + j) = Some x) ->
  length ds = length pi ->
  (forall x, In x pi -> (x < length a)%nat) -> NoDup pi ->
  exists a',
    reorder orderMap ds k a w = (Return a', w)
    /\ length a' = length a
    /\ (forall j x, nth_error pi j = Some x ->
                    nth_error a' x = option_map Some (nth_error ds j))
    /\ (forall x, ~ In x pi -> nth_error a' x = nth_error a x).
Proof.
  revert ds k a. induction pi as [|o pi IH]; intros ds k a Hidx Hlen Hlt Hnd.
  - destruct ds; [|discriminate]. exists a. repeat split; auto.
    intros [|j] x; discriminate.
  - destruct ds as [|d ds]; [discriminate|].
    inversion Hnd as [|? ? Hnotin Hnd']; subst.
    assert (Ho : (o < length a)%nat) by (apply Hlt; left; reflexivity).
    cbn [reorder]. pose proof (Hidx 0%nat o eq_refl) as H0.
    rewrite Nat.add_0_r in H0. rewrite H0.
    destruct (IH ds (S k) (array_set a o d)) as (a' & Hrun & Hlen' & Hhit & Hmiss).
    + intros j x Hj. rewrite <- (Hidx (S j) x Hj). f_equal. lia.
    + simpl in Hlen. lia.
    + intros x Hx. rewrite array_set_length by exact Ho. apply Hlt. right. exact Hx.
    + exact Hnd'.
    + exists a'. rewrite array_set_length in Hlen' by exact Ho.
      repeat split; auto.
      * intros [|j] x Hj; cbn [nth_error] in Hj |- *.
        -- injection Hj as <-. rewrite (Hmiss o Hnotin). apply array_set_same.
        -- apply (Hhit j x Hj).
      * intros x Hx. rewrite Hmiss by (intro; apply Hx; right; assumption).
        apply array_set_other; [exact Ho|]. intros ->. apply Hx. left. reflexivity.
Qed.

Lemma xor_twice (key : jstring) (l : list jstring) :
  map (fun f => xorCipher (xorCipher f key) key) l = l.
Proof.
  rewrite <- (map_id l) at 2. apply map_ext. intro f. apply xorCipher_involutive.
Qed.

(** X8.  [lanaVortex.decode] does invert the tables of [encode] when it
    is given them the way it looks for them.  Let [encode] have built the
    encrypted fragments and the permutation map for a code and a key, and
    take any text in which the patterns [var p=[...]] and [var m=[...]]
    find the two serialised tables (the engine reading the numbers of the
    map back as it must).  Then [decode] succeeds under every key that is
    not empty: it checks no key, returns every fragment XOR-ed with both
    keys in the original order, and that is the code exactly when the key
    is the one of [encode]. *)
Theorem decode_restores_tables (code key key' text : jstring) (enc : list jstring)
    (om : list (option nat)) (w w' w2 : World) :
  encode_tables code key w = (Return (enc, om), w') ->
  search (match_var (js "p")) text = Some (JSON_stringify_strings enc) ->
  search (match_var (js "m")) text = Some (JSON_stringify_numbers om) ->
  JSON_parse (JSON_stringify_numbers om) = Some (JArray (map number_or_null om)) ->
  key' <> [] ->
  decode text key' w2
  = (Return (concat (map (fun f => xorCipher (xorCipher f key) key')
                         (fragment key code)),
             decode_log), w2)
  /\ (key' = key -> decode text key' w2 = (Return (code, decode_log), w2)).
Proof.
  intros Htab Hp Hm Hparse Hk'.
  assert (Hgen : decode text key' w2
            = (Return (concat (map (fun f => xorCipher (xorCipher f key) key')
                                   (fragment key code)), decode_log), w2)).
  2:{ split; [exact Hgen|]. intros ->. rewrite Hgen, xor_twice.
      destruct (fragment_spec key code) as [-> _]. reflexivity. }
  apply encode_tables_success in Htab. destruct Htab as (Henc & -> & _).
  set (frags := fragment key code) in *. set (n := length frags) in *.
  destruct (originalOrderMap_spec key n) as (inv & Hom & Hlen & Hperm & Hinv).
  assert (Hb64 : Forall (fun s => forallb is_b64 s = true) enc)
    by (apply (encoded_b64 _ _ _ Henc)).
  unfold decode.
  destruct text as [|c text]; [destruct key'; discriminate|].
  destruct key' as [|k key']; [congruence|]. cbn [is_empty orb].
  set (txt := c :: text) in *. set (key2 := k :: key') in *.
  unfold try_catch. rewrite Hp, Hm, (JSON_parse_strings enc Hb64), Hparse.
  unfold bind at 1, native at 1, ret at 1.
  unfold bind at 1, native at 1, ret at 1.
  unfold bind at 1, as_array at 1, ret at 1.
  unfold bind at 1. rewrite (decrypt_all key key2 _ _ w2 Henc).
  set (g := fun f => xorCipher (xorCipher f key) key2).
  set (pi := shuffledIndices key n) in *.
  assert (Hpi : Permutation (seq 0 n) pi) by apply shuffledIndices_perm.
  assert (Hnd : NoDup pi) by (apply (Permutation_NoDup Hpi), seq_NoDup).
  assert (Hndinv : NoDup inv).
  { apply (Permutation_NoDup (Permutation_sym Hperm)), seq_NoDup. }
  assert (Hin : forall x, In x pi <-> (x < n)%nat) by (intro; apply shuffledIndices_in).
  assert (Hlenpi : length pi = n).
  { rewrite <- (Permutation_length Hpi). apply length_seq. }
  assert (Hom' : (match map g (shuffled key code) with
                  | [] => ret []
                  | _ :: _ => as_array (JArray (map number_or_null (originalOrderMap key n)))
                  end) w2
                 = (Return (match map g (shuffled key code) with
                            | [] => []
                            | _ :: _ => map number_or_null (originalOrderMap key n)
                            end), w2)).
  { destruct (map g (shuffled key code)); reflexivity. }
  unfold bind at 1. rewrite Hom'. clear Hom'.
  destruct (reorder_spec
              (match map g (shuffled key code) with
               | [] => []
               | _ :: _ => map number_or_null (originalOrderMap key n)
               end)
              pi (map g (shuffled key code)) 0 (repeat None (length (map JString enc))) w2)
    as (a' & Hrun & Hlen' & Hhit & _).
  - intros j x Hj. cbn [Nat.add].
    assert (Hne : map g (shuffled key code) <> []).
    { unfold shuffled. fold frags n pi. destruct pi; [destruct j; discriminate|discriminate]. }
    destruct (map g (shuffled key code)); [congruence|].
    rewrite Hom. rewrite (indexOf_from_numbers inv 0 x j Hndinv (Hinv j x Hj)).
    reflexivity.
  - unfold shuffled. fold frags n pi. rewrite !length_map. reflexivity.
  - intros x Hx. rewrite repeat_length, length_map.
    rewrite <- (Forall2_length Henc). unfold shuffled. fold frags n pi.
    rewrite length_map, Hlenpi. apply Hin, Hx.
  - exact Hnd.
  - unfold bind. rewrite Hrun. unfold ret. do 2 f_equal. f_equal.
    rewrite repeat_length, length_map, <- (Forall2_length Henc) in Hlen'.
    unfold shuffled in Hlen'. fold frags n pi in Hlen'.
    rewrite length_map, Hlenpi in Hlen'.
    assert (Ha' : a' = map Some (map g frags)).
    { apply nth_error_ext. intro x.
      destruct (Nat.lt_ge_cases x n) as [Hx|Hx].
      - apply Hin, In_nth_error in Hx. destruct Hx as [j Hj].
        rewrite (Hhit j x Hj). unfold shuffled. fold frags n pi.
        rewrite !nth_error_map, Hj. cbn [option_map].
        assert (Hxn : (x < length frags)%nat).
        { apply Hin. apply (nth_error_In _ _ Hj). }
        rewrite (nth_error_nth' frags [] Hxn). reflexivity.
      - rewrite (proj2 (nth_error_None a' x)) by lia.
        symmetry. apply nth_error_None. rewrite !length_map. exact Hx. }
    rewrite Ha'. apply join_holes_some.
Qed.

(** *** How [decode] fails *)

Lemma pure_reorder (orderMap : list JValue) (ds : list jstring) (i : nat)
    (a : list (option jstring)) :
  pure (reorder orderMap ds i a).
Proof.
  revert i a. induction ds as [|d ds IH]; intros i a; cbn [reorder].
  - apply pure_ret.
  - destruct (indexOf_from 0 orderMap i); [apply IH|apply pure_throw].
Qed.

Lemma pure_as_array (v : JValue) : pure (as_array v).
Proof. destruct v; simpl; auto using pure_ret, pure_throw. Qed.

Lemma pure_vortex_decode (encodedCode key : jstring) : pure (decode encodedCode key).
Proof.
  unfold decode. destruct (is_empty encodedCode || is_empty key); [apply pure_throw|].
  apply pure_try_catch; [|intro; apply pure_throw].
  destruct (search (match_var (js "p")) encodedCode); [|apply pure_throw].
  destruct (search (match_var (js "m")) encodedCode); [|apply pure_throw].
  apply pure_bind; [apply pure_native|]. intro v1.
  apply pure_bind; [apply pure_native|]. intro v2.
  apply pure_bind; [apply pure_as_array|]. intro payload.
  apply pure_bind.
  { apply pure_mapM. intro a. apply pure_bind; [apply pure_native|].
    intro. apply pure_ret. }
  intro ds. apply pure_bind.
  { destruct ds; [apply pure_ret|apply pure_as_array]. }
  intro om. apply pure_bind; [apply pure_reorder|]. intro. apply pure_ret.
Qed.

Lemma bind_throw {A B : Type} (m : M A) (k : A -> M B) (w w' : World) (e : exn) :
  bind m k w = (Throw e, w') ->
  m w = (Throw e, w')
  \/ exists a w1, m w = (Return a, w1) /\ k a w1 = (Throw e, w').
Proof.
  unfold bind. destruct (m w) as [[a|e0] w1].
  - intro H. right. exists a, w1. auto.
  - intros [= <- <-]. left. reflexivity.
Qed.

Lemma try_catch_throw {A : Type} (body : M A) (handler : exn -> M A) (w w' : World)
    (e : exn) :
  try_catch body handler w = (Throw e, w') ->
  exists e0 w1, body w = (Throw e0, w1) /\ handler e0 w1 = (Throw e, w').
Proof.
  unfold try_catch. destruct (body w) as [[a|e0] w1]; [discriminate|].
  intro H. exists e0, w1. auto.
Qed.

Lemma native_throw {A : Type} (n : native_exn) (o : option A) (w w' : World) (e : exn) :
  native n o w = (Throw e, w') -> e = Native n.
Proof. destruct o; simpl; unfold ret, throw; congruence. Qed.

Lemma as_array_throw (v : JValue) (w w' : World) (e : exn) :
  as_array v w = (Throw e, w') -> e = Native TypeError.
Proof. destruct v; simpl; unfold ret, throw; congruence. Qed.

Lemma mapM_throw {A B : Type} (f : A -> M B) (l : list A) (w w' : World) (e : exn) :
  mapM f l w = (Throw e, w') -> exists a w1 w2, f a w1 = (Throw e, w2).
Proof.
  revert w. induction l as [|a l IH]; intro w; cbn [mapM].
  - unfold ret. discriminate.
  - intro H. apply bind_throw in H. destruct H as [H|(b & w1 & _ & H)]; [eauto|].
    apply bind_throw in H. destruct H as [H|(bs & w2 & _ & H)]; [eauto|].
    unfold ret in H. discriminate.
Qed.

Lemma reorder_throw (orderMap : list JValue) (ds : list jstring) (i : nat)
    (a : list (option jstring)) (w w' : World) (e : exn) :
  reorder orderMap ds i a w = (Throw e, w') -> e = Error msg_inconsistent.
Proof.
  revert i a. induction ds as [|d ds IH]; intros i a; cbn [reorder].
  - unfold ret. discriminate.
  - destruct (indexOf_from 0 orderMap i); [apply IH|].
    unfold throw. congruence.
Qed.

(** X9.  Whenever [lanaVortex.decode] fails, what it throws is an [Error]
    of its own: the argument error, or the message [Decoding failed. The
    key might be incorrect or the code is corrupted. ] followed by the
    message of one of five causes: the format error, the inconsistent
    map, or the [SyntaxError] of [JSON.parse], the [TypeError] of a table
    that is not an array, the [InvalidCharacterError] of [atob].  No native
    exception escapes, and the ambient state is as it was. *)
Theorem decode_failure_modes (encodedCode key : jstring) (w w' : World) (e : exn) :
  decode encodedCode key w = (Throw e, w') ->
  w' = w
  /\ (e = Error msg_decode_required
      \/ exists cause, decode_cause cause
           /\ e = Error (msg_decoding_failed ++ exn_message cause)).
Proof.
  intro H. split; [apply (pure_world _ _ _ _ (pure_vortex_decode encodedCode key) H)|].
  unfold decode in H.
  destruct (is_empty encodedCode || is_empty key).
  { left. unfold throw in H. congruence. }
  right. apply try_catch_throw in H. destruct H as (cause & w1 & Hb & H).
  unfold throw in H. injection H as <- _. exists cause. split; [|reflexivity].
  unfold decode_cause.
  destruct (search (match_var (js "p")) encodedCode);
    [|unfold throw in Hb; injection Hb as <- _; auto].
  destruct (search (match_var (js "m")) encodedCode);
    [|unfold throw in Hb; injection Hb as <- _; auto].
  apply bind_throw in Hb. destruct Hb as [Hb|(v1 & w2 & _ & Hb)];
    [apply native_throw in Hb; auto|].
  apply bind_throw in Hb. destruct Hb as [Hb|(v2 & w3 & _ & Hb)];
    [apply native_throw in Hb; auto|].
  apply bind_throw in Hb. destruct Hb as [Hb|(payload & w4 & _ & Hb)];
    [apply as_array_throw in Hb; auto|].
  apply bind_throw in Hb. destruct Hb as [Hb|(ds & w5 & _ & Hb)].
  { apply mapM_throw in Hb. destruct Hb as (a & wa & wb & Hb).
    apply bind_throw in Hb. destruct Hb as [Hb|(s & wc & _ & Hb)];
      [apply native_throw in Hb; auto 6|unfold ret in Hb; discriminate]. }
  apply bind_throw in Hb. destruct Hb as [Hb|(om & w6 & _ & Hb)].
  { destruct ds; [unfold ret in Hb; discriminate|apply as_array_throw in Hb; auto]. }
  apply bind_throw in Hb. destruct Hb as [Hb|(fr & w7 & _ & Hb)];
    [apply reorder_throw in Hb; auto|unfold ret in Hb; discriminate].
Qed.

End LanaVortexMore.

(** *** Concrete runs *)

(** The specification's scenario A. *)
Lemma encode_latin1_witness :
  lanaVortex.encode (E := reference_engine) (js "console.log(1)") (js "ab") sample_world
  = (Return (sample_artifact, lanaVortex.encode_log), sample_world).
Proof.
  refine (eq_trans
            (encode_latin1 (E := reference_engine) (js "console.log(1)") (js "ab")
               sample_world _ _ _ _) _);
    try discriminate; vm_compute; reflexivity.
Defined.

(** A program with a euro sign. *)
Lemma encode_rejects_wide_characters_witness :
  lanaVortex.encode (E := reference_engine) sample_wide_code (js "ab") sample_world
  = (Throw (Native InvalidCharacterError), sample_world).
Proof.
  apply (encode_rejects_wide_characters (E := reference_engine) sample_wide_code
           (js "ab") sample_world).
  - discriminate.
  - discriminate.
  - left. reflexivity.
Defined.

Lemma artifact_payload_found_witness :
  exists encryptedFragments : list jstring,
    search (lanaVortex.match_var (js "p")) sample_artifact
    = Some (JSON_stringify_strings encryptedFragments)
    /\ length encryptedFragments
       = length (lanaVortex.fragment (js "ab") (js "console.log(1)"))
    /\ Reference.JSON_parse (JSON_stringify_strings encryptedFragments)
       = Some (JArray (map JString encryptedFragments)).
Proof.
  apply (artifact_payload_found (E := reference_engine) (js "console.log(1)") (js "ab")
           sample_artifact lanaVortex.encode_log sample_world sample_world).
  vm_compute. reflexivity.
Defined.

(** The tables of scenario A, declared the way [decode] reads them. *)
Lemma decode_restores_tables_witness :
  lanaVortex.decode (E := reference_engine) sample_declarations (js "ab") sample_world
  = (Return (js "console.log(1)", lanaVortex.decode_log), sample_world).
Proof.
  refine (proj2 (decode_restores_tables (E := reference_engine) (js "console.log(1)")
                   (js "ab") (js "ab") sample_declarations (fst sample_tables)
                   (snd sample_tables) sample_world sample_world sample_world
                   _ _ _ _ _) eq_refl);
    try discriminate; vm_compute; reflexivity.
Defined.

(** A text that is no artifact. *)
Lemma decode_failure_modes_witness :
  sample_world = sample_world
  /\ (Error (lanaVortex.msg_decoding_failed ++ lanaVortex.msg_invalid_format)
      = Error lanaVortex.msg_decode_required
      \/ exists cause, decode_cause cause
           /\ Error (lanaVortex.msg_decoding_failed ++ lanaVortex.msg_invalid_format)
              = Error (lanaVortex.msg_decoding_failed
                       ++ exn_message (E := reference_engine) cause)).
Proof.
  apply (decode_failure_modes (E := reference_engine) (js "x") (js "k") sample_world
           sample_world).
  vm_compute. reflexivity.
Defined.

(** ** methods/lexical-scramble.js *)

(** *** The identifiers found *)

Lemma mem_In (x : jstring) (l : list jstring) : mem x l = true <-> In x l.
Proof.
  induction l as [|y l IH]; simpl; [split; [discriminate|tauto]|].
  destruct (list_eq_dec N.eq_dec x y) as [->|Hne].
  - split; auto.
  - rewrite IH. split; [auto|]. intros [H|H]; [congruence|exact H].
Qed.

Lemma mem_not_In (x : jstring) (l : list jstring) : mem x l = false <-> ~ In x l.
Proof.
  rewrite <- mem_In. destruct (mem x l); split; congruence.
Qed.

(** Every match the scan reports is one the matcher granted. *)
Lemma split_matches_hits {A : Type} (m : matcher A) (P : A -> Prop) :
  (forall prev s a n, m prev s = Some (a, n) -> P a) ->
  forall s prev skip, Forall P (hits (split_matches m prev skip s)).
Proof.
  intros Hm. induction s as [|c r IH]; intros prev skip.
  - destruct skip; cbn [split_matches]; [|constructor].
    destruct (m prev []) as [[a n]|] eqn:H0; [|constructor].
    constructor; [apply (Hm _ _ _ _ H0)|constructor].
  - destruct skip as [|k]; cbn [split_matches]; [|apply IH].
    destruct (m prev (c :: r)) as [[a [|k]]|] eqn:H0.
    + constructor; [apply (Hm _ _ _ _ H0)|apply IH].
    + constructor; [apply (Hm _ _ _ _ H0)|apply IH].
    + apply IH.
Qed.

Section LexicalScrambleMore.
Import lexicalScramble.

Lemma match_identifier_shaped (prev : option N) (s name : jstring) (n : nat) :
  match_identifier prev s = Some (name, n) -> identifier_shaped name.
Proof.
  unfold match_identifier. destruct s as [|c r]; [discriminate|].
  destruct (is_identifier_start c) eqn:Hc; [|discriminate].
  intros [= <- _]. exists c, (take_while is_identifier_part r).
  repeat split; [exact Hc|apply take_while_split].
Qed.

(** The [Set] keeps the first occurrence of every name that is no keyword. *)
Lemma add_identifier_spec (found : list jstring) (names : list jstring) :
  NoDup found ->
  NoDup (fold_left add_identifier names found)
  /\ forall name, In name (fold_left add_identifier names found)
                  <-> In name found \/ (In name names /\ mem name keywords = false).
Proof.
  revert found. induction names as [|x names IH]; intros found Hnd.
  - cbn [fold_left]. split; [exact Hnd|]. intro name. cbn [In]. tauto.
  - cbn [fold_left]. unfold add_identifier at 2 4.
    destruct (mem x keywords) eqn:Hk.
    + destruct (IH found Hnd) as [H1 H2]. split; [exact H1|].
      intro name. rewrite H2. cbn [In]. split; [tauto|].
      intros [H|[[->|H] Hn]]; [tauto|congruence|tauto].
    + destruct (mem x found) eqn:Hf.
      * destruct (IH found Hnd) as [H1 H2]. split; [exact H1|].
        intro name. rewrite H2. cbn [In]. split; [tauto|].
        intros [H|[[<-|H] Hn]]; [tauto| |tauto].
        left. apply mem_In, Hf.
      * assert (Hnd' : NoDup (found ++ [x])).
        { apply NoDup_app; [exact Hnd|repeat constructor; simpl; tauto|].
          intros y Hy [<-|[]]. apply mem_not_In in Hf. contradiction. }
        destruct (IH _ Hnd') as [H1 H2]. split; [exact H1|].
        intro name. rewrite H2, in_app_iff. cbn [In]. split.
        -- intros [[H|[<-|[]]]|H]; tauto.
        -- intros [H|[[<-|H] Hn]]; tauto.
Qed.

Lemma getIdentifiers_spec (code : jstring) :
  NoDup (getIdentifiers code)
  /\ forall name,
       In name (getIdentifiers code)
       <-> In name (hits (matches match_identifier (cleanCode code)))
           /\ mem name keywords = false.
Proof.
  unfold getIdentifiers. fold (cleanCode code).
  destruct (add_identifier_spec [] (hits (matches match_identifier (cleanCode code)))
              (NoDup_nil _)) as [Hnd Hin].
  split; [exact Hnd|]. intro name. rewrite Hin. cbn [In]. tauto.
Qed.

(** X10.  [getIdentifiers] returns every name once: the names the
    identifier pattern finds in the code without its comments and strings,
    the words of its keyword list left out, and nothing else.  Each of them
    starts with a letter, an underscore or a dollar sign and goes on with
    letters, digits, underscores and dollar signs. *)
Theorem getIdentifiers_sound (code : jstring) :
  NoDup (getIdentifiers code)
  /\ (forall name,
        In name (getIdentifiers code)
        <-> In name (hits (matches match_identifier (cleanCode code)))
            /\ mem name keywords = false)
  /\ Forall identifier_shaped (getIdentifiers code).
Proof.
  destruct (getIdentifiers_spec code) as [Hnd Hin].
  split; [exact Hnd|]. split; [exact Hin|].
  apply Forall_forall. intros name Hname. apply Hin in Hname.
  destruct Hname as [Hname _].
  pose proof (split_matches_hits match_identifier identifier_shaped
                match_identifier_shaped (cleanCode code) None 0%nat) as Hall.
  rewrite Forall_forall in Hall. apply Hall, Hname.
Qed.

(** *** The rename table *)

Lemma scramble_table (ids : list jstring) (i : nat) (nameMap : list (jstring * jstring))
    (code : jstring) :
  fst (scramble ids i nameMap code)
  = nameMap ++ combine ids (map generateName (seq i (length ids))).
Proof.
  revert i nameMap code. induction ids as [|x ids IH]; intros i nameMap code.
  - simpl. rewrite app_nil_r. reflexivity.
  - cbn [scramble length seq map combine]. rewrite IH, <- app_assoc. reflexivity.
Qed.

Lemma encode_unfold (code : jstring) (w : World) :
  let ids := sort_longest_first (getIdentifiers code) in
  encode code w
  = (Return (minify (snd (scramble ids 0 [] code)),
             JSON_stringify_table
               (combine ids (map generateName (seq 0 (length ids))))), w).
Proof.
  cbv zeta. unfold encode.
  pose proof (scramble_table (sort_longest_first (getIdentifiers code)) 0 [] code) as Ht.
  destruct (scramble (sort_longest_first (getIdentifiers code)) 0 [] code)
    as [nameMap scrambledCode]. cbn [fst snd] in *. rewrite Ht. reflexivity.
Qed.

Lemma insert_longest_first_perm (x : jstring) (l : list jstring) :
  Permutation (x :: l) (insert_longest_first x l).
Proof.
  induction l as [|y l IH]; simpl; [reflexivity|].
  destruct (length x <? length y)%nat; [|reflexivity].
  rewrite perm_swap. apply perm_skip, IH.
Qed.

Lemma sort_longest_first_perm (l : list jstring) :
  Permutation l (sort_longest_first l).
Proof.
  induction l as [|x l IH]; simpl; [reflexivity|].
  rewrite <- insert_longest_first_perm. apply perm_skip, IH.
Qed.

Lemma insert_longest_first_sorted (x : jstring) (l : list jstring) :
  StronglySorted not_shorter l -> StronglySorted not_shorter (insert_longest_first x l).
Proof.
  induction 1 as [|y l Hs IH Hy]; simpl.
  - repeat constructor.
  - destruct (Nat.ltb_spec (length x) (length y)) as [Hlt|Hge].
    + constructor; [exact IH|].
      apply (Permutation_Forall (insert_longest_first_perm x l)).
      constructor; [unfold not_shorter; lia|exact Hy].
    + constructor; [constructor; assumption|].
      constructor; [exact Hge|].
      eapply Forall_impl; [|exact Hy]. unfold not_shorter. intros; lia.
Qed.

Lemma sort_longest_first_sorted (l : list jstring) :
  StronglySorted not_shorter (sort_longest_first l).
Proof.
  induction l as [|x l IH]; simpl; [constructor|].
  apply insert_longest_first_sorted, IH.
Qed.

Lemma generateName_injective (n m : nat) : generateName n = generateName m -> n = m.
Proof.
  intro H. apply (f_equal (NameFacts.value_from 0)) in H.
  rewrite !NameFacts.generateName_value in H. lia.
Qed.

Lemma generateName_NoDup (i n : nat) : NoDup (map generateName (seq i n)).
Proof.
  revert i. induction n as [|n IH]; intro i; cbn [seq map]; constructor.
  - rewrite in_map_iff. intros (j & Hj & Hin).
    apply generateName_injective in Hj. apply in_seq in Hin. lia.
  - apply IH.
Qed.

(** X11.  The table [lexicalScramble.encode] returns pairs every
    identifier found in the code with the generated name of its place in
    the list sorted by length: the identifiers are those of
    [getIdentifiers], each once, no identifier coming before a longer one,
    and the [i]-th gets [generateName i], so no new name is given twice.
    [encode] does not throw and leaves the ambient state alone. *)
Theorem encode_table (code : jstring) (w : World) :
  let ids := sort_longest_first (getIdentifiers code) in
  let names := map generateName (seq 0 (length ids)) in
  encode code w
  = (Return (minify (snd (scramble ids 0 [] code)),
             JSON_stringify_table (combine ids names)), w)
  /\ Permutation (getIdentifiers code) ids
  /\ StronglySorted not_shorter ids
  /\ NoDup ids /\ NoDup names /\ length names = length ids.
Proof.
  cbv zeta. split; [|split; [|split; [|split; [|split]]]].
  - apply encode_unfold.
  - apply sort_longest_first_perm.
  - apply sort_longest_first_sorted.
  - apply (Permutation_NoDup (sort_longest_first_perm _)), getIdentifiers_spec.
  - apply generateName_NoDup.
  - rewrite length_map, length_seq. reflexivity.
Qed.

Lemma nth_error_combine {A B : Type} (l1 : list A) (l2 : list B) (k : nat)
    (a : A) (b : B) :
  nth_error l1 k = Some a -> nth_error l2 k = Some b ->
  nth_error (combine l1 l2) k = Some (a, b).
Proof.
  revert l2 k. induction l1 as [|x l1 IH]; intros [|y l2] [|k] H1 H2;
    try discriminate; cbn [combine nth_error] in *.
  - congruence.
  - apply IH; assumption.
Qed.

Lemma generateName_226 : generateName 226 = js "do".
Proof. vm_compute. reflexivity. Qed.

(** X12.  The generated names are not kept clear of the reserved words:
    the name of index 226 is [do].  Whenever the code has more than 226
    identifiers, the table of [encode] renames one of them to [do], a word
    of the keyword list of [getIdentifiers] itself. *)
Theorem generated_name_is_reserved (code : jstring) (w : World) :
  (226 < length (getIdentifiers code))%nat ->
  let ids := sort_longest_first (getIdentifiers code) in
  let nameMap := combine ids (map generateName (seq 0 (length ids))) in
  exists oldName result,
    encode code w = (Return (result, JSON_stringify_table nameMap), w)
    /\ nth_error nameMap 226 = Some (oldName, js "do")
    /\ In oldName (getIdentifiers code)
    /\ mem (js "do") keywords = true.
Proof.
  intro Hlen. cbv zeta.
  set (ids := sort_longest_first (getIdentifiers code)).
  assert (Hids : (226 < length ids)%nat).
  { unfold ids. rewrite <- (Permutation_length (sort_longest_first_perm _)). exact Hlen. }
  destruct (nth_error ids 226) as [oldName|] eqn:Hold.
  2:{ apply nth_error_None in Hold. lia. }
  exists oldName, (minify (snd (scramble ids 0 [] code))).
  split; [apply encode_unfold|]. split; [|split; [|reflexivity]].
  - apply nth_error_combine; [exact Hold|].
    rewrite nth_error_map.
    rewrite (nth_error_nth' (seq 0 (length ids)) 0%nat) by (rewrite length_seq; exact Hids).
    rewrite seq_nth by exact Hids. cbn [option_map Nat.add].
    rewrite generateName_226. reflexivity.
  - apply (Permutation_in _ (Permutation_sym (sort_longest_first_perm _))).
    apply (nth_error_In _ _ Hold).
Qed.

(** *** The minifier *)

Lemma pair_scan_found (a b : N) (x y : jstring) :
  pair_scan a b false (x ++ a :: b :: y) = true.
Proof.
  rewrite pair_scan_app. cbn [pair_scan]. rewrite !N.eqb_refl.
  cbn [andb orb]. rewrite !orb_true_r. reflexivity.
Qed.

Lemma pair_scan_absent (a b : N) (s : jstring) :
  pair_scan a b false s = false -> forall x y, s <> x ++ a :: b :: y.
Proof.
  intros H x y ->. rewrite pair_scan_found in H. discriminate.
Qed.

Definition starts_with (p : N -> bool) (s : jstring) : bool :=
  match s with c :: _ => p c | [] => false end.

Lemma match_spaces_context_free : context_free match_spaces.
Proof. intros p q s. reflexivity. Qed.

Lemma take_while_length (p : N -> bool) (s : jstring) :
  (length (take_while p s) <= length s)%nat.
Proof.
  induction s as [|c s IH]; simpl; [lia|]. destruct (p c); simpl; lia.
Qed.

Lemma match_spaces_some (prev : option N) (s : jstring) (n : nat) :
  match_spaces prev s = Some (tt, n) ->
  n = length (take_while is_white_space s) /\ (0 < n <= length s)%nat
  /\ starts_with is_white_space s = true.
Proof.
  unfold match_spaces.
  pose proof (take_while_length is_white_space s) as Hl.
  destruct (take_while is_white_space s) as [|c run] eqn:Hrun; [discriminate|].
  intros [= <-]. repeat split; try (simpl in *; lia).
  destruct s as [|d s]; [discriminate|]. simpl in Hrun |- *.
  destruct (is_white_space d); [reflexivity|discriminate].
Qed.

Lemma match_spaces_none (prev : option N) (s : jstring) :
  match_spaces prev s = None -> starts_with is_white_space s = false.
Proof.
  unfold match_spaces. destruct s as [|c s]; [reflexivity|]. simpl.
  destruct (is_white_space c); [discriminate|reflexivity].
Qed.

Lemma match_spaces_progressing : progressing match_spaces.
Proof.
  intros p s [] n H. apply match_spaces_some in H. apply H.
Qed.

Lemma after_run (p : N -> bool) (s : jstring) :
  starts_with p (skipn (length (take_while p s)) s) = false.
Proof.
  induction s as [|c s IH]; [reflexivity|]. simpl.
  destruct (p c) eqn:Hc; simpl; [exact IH|exact Hc].
Qed.

(** The two passes of [minify]. *)
Definition uncomment (s : jstring) : jstring := replace_all match_comment erase s.
Definition collapse (s : jstring) : jstring :=
  replace_all match_spaces (fun _ => js " ") s.

Lemma minify_unfold (code : jstring) : minify code = collapse (uncomment code).
Proof. reflexivity. Qed.

Lemma collapse_cons (c : N) (r : jstring) :
  collapse (c :: r)
  = if is_white_space c
    then 32 :: collapse (skipn (length (take_while is_white_space (c :: r))) (c :: r))
    else c :: collapse r.
Proof.
  unfold collapse.
  rewrite replace_all_cons by (exact match_spaces_context_free || exact match_spaces_progressing).
  destruct (match_spaces None (c :: r)) as [[[] n]|] eqn:Hm.
  - apply match_spaces_some in Hm. destruct Hm as (-> & _ & Hc).
    simpl in Hc. rewrite Hc. reflexivity.
  - apply match_spaces_none in Hm. simpl in Hm. rewrite Hm. reflexivity.
Qed.

Lemma collapse_nil : collapse [] = [].
Proof.
  unfold collapse, replace_all. rewrite matches_nil by exact match_spaces_progressing.
  reflexivity.
Qed.

Lemma collapse_blanks (s : jstring) :
  Forall (fun c => is_white_space c = true -> c = 32) (collapse s)
  /\ forall p, (p = true -> starts_with is_white_space s = false) ->
               pair_scan 32 32 p (collapse s) = false.
Proof.
  induction s as [s IH] using list_length_ind.
  destruct s as [|c r].
  - rewrite collapse_nil. split; [constructor|reflexivity].
  - rewrite collapse_cons. destruct (is_white_space c) eqn:Hc.
    + set (rest := skipn _ (c :: r)).
      assert (Hlen : (length rest < length (c :: r))%nat).
      { unfold rest. rewrite length_skipn. cbn [take_while]. rewrite Hc.
        cbn [length]. lia. }
      destruct (IH rest Hlen) as [H1 H2]. split.
      * constructor; [reflexivity|exact H1].
      * intros p Hp. cbn [pair_scan]. change (32 =? 32) with true.
        destruct p; [specialize (Hp eq_refl); simpl in Hp; congruence|].
        cbn [andb orb]. apply H2. intros _. apply after_run.
    + destruct (IH r ltac:(simpl; lia)) as [H1 H2]. split.
      * constructor; [congruence|exact H1].
      * intros p _. cbn [pair_scan].
        destruct (N.eqb_spec c 32) as [->|_]; [discriminate|].
        rewrite andb_false_r. cbn [orb]. apply H2. discriminate.
Qed.

Lemma collapse_keeps_pair_free (a b : N) (s : jstring) :
  a <> 32 -> b <> 32 ->
  forall p, pair_scan a b p s = false -> pair_scan a b p (collapse s) = false.
Proof.
  intros Ha Hb. induction s as [s IH] using list_length_ind. intros p Hs.
  destruct s as [|c r].
  - rewrite collapse_nil. reflexivity.
  - rewrite collapse_cons. destruct (is_white_space c) eqn:Hc.
    + set (run := take_while is_white_space (c :: r)).
      set (rest := skipn (length run) (c :: r)).
      assert (Hlen : (length rest < length (c :: r))%nat).
      { unfold rest, run. rewrite length_skipn. cbn [take_while]. rewrite Hc.
        cbn [length]. lia. }
      assert (Hsplit : c :: r = run ++ rest).
      { unfold rest, run. apply take_while_split. }
      rewrite Hsplit, pair_scan_app in Hs. apply orb_false_elim in Hs.
      destruct Hs as [_ Hs]. apply pair_scan_weaken in Hs.
      cbn [pair_scan].
      assert (H32 : (32 =? a) = false) by (apply N.eqb_neq; congruence).
      rewrite H32. rewrite (IH rest Hlen false Hs), orb_false_r.
      destruct (N.eqb_spec 32 b) as [<-|]; [congruence|].
      apply andb_false_r.
    + cbn [pair_scan] in Hs |- *. apply orb_false_elim in Hs. destruct Hs as [-> Hs].
      cbn [orb]. apply IH; [simpl; lia|exact Hs].
Qed.

Lemma until_star_slash_length (s : jstring) (n : nat) :
  until_star_slash s = Some n -> (n <= length s)%nat.
Proof.
  revert n. induction s as [|a r IH]; intro n; [discriminate|].
  cbn [until_star_slash]. destruct r as [|b r']; [discriminate|].
  destruct ((a =? 42) && (b =? 47)).
  - intros [= <-]. simpl. lia.
  - destruct (until_star_slash (b :: r')) as [k|]; [|discriminate].
    intros [= <-]. specialize (IH k eq_refl). simpl in *. lia.
Qed.

Lemma rest_of_line_length (s : jstring) : (rest_of_line s <= length s)%nat.
Proof.
  induction s as [|c r IH]; simpl; [lia|]. destruct (is_line_terminator c); simpl; lia.
Qed.

Lemma match_comment_context_free : context_free match_comment.
Proof. intros p q s. reflexivity. Qed.

Lemma match_comment_some (prev : option N) (s : jstring) (n : nat) :
  match_comment prev s = Some (tt, n) ->
  (2 <= n <= length s)%nat /\ starts_with (N.eqb 47) s = true.
Proof.
  unfold match_comment. destruct s as [|a [|b r]]; try discriminate.
  destruct (N.eqb_spec a 47) as [->|]; [|discriminate].
  destruct (b =? 42).
  - destruct (until_star_slash r) as [k|] eqn:Hk; [|discriminate].
    apply until_star_slash_length in Hk. intros [= <-]. simpl. split; [lia|reflexivity].
  - destruct (b =? 47); [|discriminate].
    pose proof (rest_of_line_length r). intros [= <-]. simpl. split; [lia|reflexivity].
Qed.

Lemma match_comment_progressing : progressing match_comment.
Proof. intros p s [] n H. apply match_comment_some in H. lia. Qed.

Lemma match_comment_slash_slash (prev : option N) (r : jstring) :
  match_comment prev (47 :: 47 :: r) <> None.
Proof. simpl. discriminate. Qed.

Lemma uncomment_no_line_comment (s : jstring) :
  forall p, (p = true -> starts_with (N.eqb 47) s = false) ->
            pair_scan 47 47 p (uncomment s) = false.
Proof.
  induction s as [s IH] using list_length_ind. intros p Hp.
  destruct s as [|c r].
  - unfold uncomment, replace_all.
    rewrite matches_nil by exact match_comment_progressing. reflexivity.
  - unfold uncomment.
    rewrite replace_all_cons
      by (exact match_comment_context_free || exact match_comment_progressing).
    destruct (match_comment None (c :: r)) as [[[] n]|] eqn:Hm.
    + apply match_comment_some in Hm. destruct Hm as [Hn Hc].
      destruct p; [specialize (Hp eq_refl); congruence|].
      unfold erase. cbn [app]. apply IH; [rewrite length_skipn; lia|discriminate].
    + cbn [pair_scan]. cbn [starts_with] in Hp.
      assert (Hfirst : (p && (c =? 47)) = false).
      { destruct p; [|reflexivity]. rewrite N.eqb_sym, (Hp eq_refl). reflexivity. }
      rewrite Hfirst. cbn [orb]. apply IH; [simpl; lia|].
      intro Hc. apply N.eqb_eq in Hc. subst c.
      destruct r as [|b r]; [reflexivity|]. cbn [starts_with].
      destruct (N.eqb_spec 47 b) as [<-|]; [|reflexivity].
      exfalso. apply (match_comment_slash_slash None r Hm).
Qed.

(** X13.  The code [lexicalScramble.encode] returns is one line: the only
    white space in it is the blank, so it holds no line terminator and no
    tab; no blank is followed by a blank; and no slash is followed by a
    slash, so no line comment is left (and a [//] inside a string literal
    is cut off with the rest of its line as well). *)
Theorem encode_result_is_one_line (code result table : jstring) (w w' : World) :
  encode code w = (Return (result, table), w') ->
  Forall (fun c => is_white_space c = true -> c = 32) result
  /\ (forall x y, result <> x ++ 32 :: 32 :: y)
  /\ (forall x y, result <> x ++ 47 :: 47 :: y).
Proof.
  intro H. pose proof (encode_unfold code w) as Henc. cbv zeta in Henc.
  rewrite Henc in H. injection H as <- _ _. rewrite minify_unfold.
  destruct (collapse_blanks
              (uncomment (snd (scramble (sort_longest_first (getIdentifiers code)) 0 [] code))))
    as [H1 H2].
  split; [exact H1|]. split; apply pair_scan_absent.
  - apply H2. discriminate.
  - apply collapse_keeps_pair_free; try discriminate.
    apply uncomment_no_line_comment. discriminate.
Qed.

(** *** Names with a dollar sign *)




End LexicalScrambleMore.

(** *** Concrete runs *)

Lemma generated_name_is_reserved_witness :
  exists oldName result,
    lexicalScramble.encode sample_many_names sample_world
    = (Return
         (result,
          lexicalScramble.JSON_stringify_table
            (combine
               (lexicalScramble.sort_longest_first
                  (lexicalScramble.getIdentifiers sample_many_names))
               (map lexicalScramble.generateName
                  (seq 0 (length (lexicalScramble.sort_longest_first
                                    (lexicalScramble.getIdentifiers
                                       sample_many_names))))))),
       sample_world)
    /\ nth_error
         (combine
            (lexicalScramble.sort_longest_first
               (lexicalScramble.getIdentifiers sample_many_names))
            (map lexicalScramble.generateName
               (seq 0 (length (lexicalScramble.sort_longest_first
                                 (lexicalScramble.getIdentifiers
                                    sample_many_names)))))) 226
       = Some (oldName, js "do")
    /\ In oldName (lexicalScramble.getIdentifiers sample_many_names)
    /\ mem (js "do") lexicalScramble.keywords = true.
Proof.
  apply (generated_name_is_reserved sample_many_names sample_world).
  apply Nat.ltb_lt. vm_compute. reflexivity.
Defined.

(** [var  $el\t= 1; // one] becomes [var $el = 1; ]. *)
Lemma encode_result_is_one_line_witness :
  Forall (fun c => is_white_space c = true -> c = 32) (js "var $el = 1; ")
  /\ (forall x y, js "var $el = 1; " <> x ++ 32 :: 32 :: y)
  /\ (forall x y, js "var $el = 1; " <> x ++ 47 :: 47 :: y).
Proof.
  apply (encode_result_is_one_line sample_spaced_code (js "var $el = 1; ")
           (lexicalScramble.JSON_stringify_table [(js "$el", js "a")])
           sample_world sample_world).
  vm_compute. reflexivity.
Defined.


(** ** methods/string-conceal.js *)

Section StringConcealMore.
Context {E : Engine}.
Import stringConceal.

(** *** When [encode] succeeds *)

(** X15.  With a key that is not empty, when the code has a string
    literal and neither the literals nor the key hold a code unit above
    255, [stringConceal.encode] succeeds: it draws two random numbers, for
    the names of the array and of the decoder, and returns the decoder
    prelude with the base64 form of every literal XOR-ed with the key,
    followed by the code with a decoder call in place of every literal;
    the log counts the literals.  The rest of the code may hold any
    character. *)
Theorem conceal_latin1 (code key : jstring) (w : World) :
  key <> [] -> literals code <> [] -> is_latin1 key = true ->
  Forall (fun s => is_latin1 s = true) (literals code) ->
  encode code key w
  = (Return (concealed code key w, encode_log (length (literals code))),
     mkWorld (random_tape w) (2 + drawn w)).
Proof.
  intros Hk Hl Hlk Hall. unfold encode.
  destruct key as [|k key]; [congruence|]. cbn [is_empty].
  set (key' := k :: key) in *. fold (literals code).
  destruct (literals code) as [|l ls] eqn:Hlit; [congruence|]. rewrite <- Hlit in *.
  clear Hlit l ls.
  unfold bind at 1.
  rewrite (mapM_native_all _ _ (fun s => b64_encode (xorCipher s key'))).
  2:{ eapply Forall_impl; [|exact Hall]. intros s Hs. cbv beta.
      rewrite btoa_xor, Hs by exact Hlk. reflexivity. }
  unfold random_suffix, Math_random_base36, bind, ret. cbn [random_tape drawn].
  unfold btoa. rewrite Hlk. cbn [native]. unfold ret, concealed.
  reflexivity.
Qed.

(** X16.  With a key that is not empty and a code that has a string
    literal, [stringConceal.encode] throws the [InvalidCharacterError] of
    [btoa] when the key, or one of the literals under a key of code units
    below 256, holds a code unit above 255.  Nothing catches it. *)
Theorem conceal_rejects_wide_characters (code key : jstring) (w : World) :
  key <> [] -> literals code <> [] ->
  is_latin1 key = false
  \/ (is_latin1 key = true /\ Exists (fun s => is_latin1 s = false) (literals code)) ->
  fst (encode code key w) = Throw (Native InvalidCharacterError).
Proof.
  intros Hk Hl Hwide. unfold encode.
  destruct key as [|k key]; [congruence|]. cbn [is_empty].
  set (key' := k :: key) in *. fold (literals code).
  destruct (literals code) as [|l ls] eqn:Hlit; [congruence|]. rewrite <- Hlit in *.
  clear Hlit l ls.
  unfold bind at 1.
  destruct (mapM_native_outcome InvalidCharacterError
              (fun s => btoa (xorCipher s key')) (literals code) w)
    as [(bs & -> & Hall)|[-> _]]; [|reflexivity].
  unfold random_suffix, Math_random_base36, bind, ret. cbn [random_tape drawn].
  destruct (is_latin1 key') eqn:Hlk.
  - exfalso. destruct Hwide as [|[_ Hex]]; [discriminate|].
    apply Exists_exists in Hex. destruct Hex as (s & Hs & Hw).
    rewrite Forall_forall in Hall. apply (Hall s Hs).
    rewrite btoa_xor, Hw by exact Hlk. reflexivity.
  - unfold btoa. rewrite Hlk. reflexivity.
Qed.

(** *** What [decode] reveals *)

(** X17.  [stringConceal.decode] with the key of [encode] does succeed on
    the artifact: when [encode] concealed at least one literal under a key
    whose base64 form is made of letters, digits and [=] (the random
    draws being renderings, the first not of 0), [decode] returns its
    fixed note and the log that lists the literals of the code, in order,
    without touching the ambient state; line [i] of the log reads
    [i: "s"] for the [i]-th literal [s]. *)
Theorem decode_with_right_key (code key artifact log ek : jstring) (w w' w2 : World) :
  encode code key w = (Return (artifact, log), w') ->
  literals code <> [] -> random_ok w ->
  btoa key = Some ek -> forallb is_key_char ek = true ->
  decode artifact key w2
  = (Return (decode_result, reveal_log (literals code)), w2)
  /\ lists_in_order (reveal_log (literals code)) (literals code).
Proof.
  intros Henc Hlit (Hr1 & Hnz & Hr2) Hek Hchars.
  split; [|apply reveal_log_lists].
  apply conceal_success in Henc. destruct Henc as [Hk [(Hnil & _)|Henc]]; [congruence|].
  destruct Henc as (enc & ek0 & _ & Henc & Hek0 & ->).
  assert (ek0 = ek) as -> by congruence.
  pose proof (encoded_b64 _ _ _ Henc) as Hb64.
  destruct (stringify_strings_shape enc Hb64) as (body & Hjson & Hbody).
  unfold suffix_at in *. rewrite Nat.add_0_r, Nat.add_1_r in *.
  destruct (suffix_of_rendering _ Hr1) as [Ha1 Hne1]. specialize (Hne1 Hnz).
  destruct (suffix_of_rendering _ Hr2) as [Ha2 _].
  unfold decode. destruct key as [|c key]; [congruence|]. cbn [is_empty].
  set (key' := c :: key) in *.
  unfold try_catch.
  rewrite Hjson.
  rewrite search_key_prelude; auto using alphanumeric_not_space.
  2:{ cbn [forallb]. rewrite forallb_app, (plain_not_space _ Hbody).
      reflexivity. }
  rewrite (search_head _ _ _ (match_array_prelude _ _ _ _ _ Hne1 Ha1 Hbody)).
  unfold prelude_tail. rewrite <- !app_assoc.
  rewrite (search_head _ _ ek).
  2:{ apply (match_key_here ek); [apply (btoa_not_empty key'); auto|exact Hchars]. }
  rewrite <- Hjson, (JSON_parse_strings enc Hb64).
  unfold bind at 1, native at 1, ret at 1.
  unfold bind at 1. rewrite Hek. cbn [native]. unfold ret at 1.
  unfold jstring_eqb. destruct (list_eq_dec N.eq_dec ek ek) as [_|Hne]; [|congruence].
  pose proof (reveal_all key' _ _ w2 Henc) as Hrev.
  unfold bind, as_array in Hrev |- *. unfold ret at 1.
  rewrite Hrev. reflexivity.
Qed.

Lemma key_char_absent (c : N) (ek : jstring) :
  is_key_char c = false -> In c ek -> forallb is_key_char ek = false.
Proof.
  intros Hc Hin. destruct (forallb is_key_char ek) eqn:H; [|reflexivity].
  rewrite forallb_forall in H. rewrite (H c Hin) in Hc. discriminate.
Qed.

(** X18.  When the base64 form of the key of [encode] holds a [+] or a
    [/], no key opens the artifact, the right one included: the pattern
    [decode] searches the key with, [var k="([a-zA-Z0-9=]+)";], admits
    neither character, nothing else in the artifact has that shape, and
    [decode] fails with the not-found error for every key that is not
    empty. *)
Theorem decode_cannot_read_plus_or_slash (code key key' artifact log ek : jstring)
    (w w' w2 : World) :
  encode code key w = (Return (artifact, log), w') ->
  literals code <> [] ->
  base36_rendering (random_tape w (drawn w)) ->
  base36_rendering (random_tape w (S (drawn w))) ->
  btoa key = Some ek -> In 43 ek \/ In 47 ek ->
  key' <> [] ->
  decode artifact key' w2 = (Throw (Error (msg_failed ++ msg_not_found)), w2).
Proof.
  intros Henc Hlit Hr1 Hr2 Hek Hplus Hk'.
  assert (Hchars : forallb is_key_char ek = false).
  { destruct Hplus as [H|H];
      [apply (key_char_absent 43 ek eq_refl H)|apply (key_char_absent 47 ek eq_refl H)]. }
  apply conceal_success in Henc. destruct Henc as [Hk [(Hnil & _)|Henc]]; [congruence|].
  destruct Henc as (enc & ek0 & _ & Henc & Hek0 & ->).
  assert (ek0 = ek) as -> by congruence.
  pose proof (encoded_b64 _ _ _ Henc) as Hb64.
  destruct (stringify_strings_shape enc Hb64) as (body & Hjson & Hbody).
  unfold suffix_at in *. rewrite Nat.add_0_r, Nat.add_1_r in *.
  destruct (suffix_of_rendering _ Hr1) as [Ha1 _].
  destruct (suffix_of_rendering _ Hr2) as [Ha2 _].
  unfold decode. destruct key' as [|c key']; [congruence|]. cbn [is_empty].
  unfold try_catch.
  rewrite Hjson.
  rewrite search_key_prelude; auto using alphanumeric_not_space.
  2:{ cbn [forallb]. rewrite forallb_app, (plain_not_space _ Hbody).
      reflexivity. }
  rewrite hidden_key_not_found; auto.
  - destruct (search match_array _); reflexivity.
  - apply b64_no_dq, (btoa_chars is_b64 _ _ eq_refl eq_refl Hek).
  - apply rewritten_code_dq_free, Ha2.
Qed.

(** *** How [decode] fails *)

Lemma pure_conceal_decode (code key : jstring) : pure (decode code key).
Proof.
  unfold decode. destruct (is_empty key); [apply pure_throw|].
  apply pure_try_catch; [|intro; apply pure_throw].
  destruct (search match_array code) as [arrayText|]; [|apply pure_throw].
  destruct (search match_key code) as [encodedKey|]; [|apply pure_throw].
  apply pure_bind; [apply pure_native|]. intro v1.
  apply pure_bind; [apply pure_native|]. intro v2.
  destruct (jstring_eqb v2 encodedKey); [|apply pure_throw].
  apply pure_bind; [apply pure_as_array|]. intro payload.
  apply pure_bind; [|intro; apply pure_ret].
  apply pure_mapM. intro a. apply pure_bind; [apply pure_native|].
  intro. apply pure_ret.
Qed.

(** X19.  Whenever [stringConceal.decode] fails, what it throws is an
    [Error] of its own: the key-required error, or the message [Failed to
    reveal strings. ] followed by the message of one of five causes: the
    array or the key was not found, the key is not the embedded one, or
    the [SyntaxError] of [JSON.parse], the [TypeError] of an array text
    that is no array, the [InvalidCharacterError] of [btoa] or [atob].  No
    native exception escapes, and the ambient state is as it was. *)
Theorem reveal_failure_modes (code key : jstring) (w w' : World) (e : exn) :
  decode code key w = (Throw e, w') ->
  w' = w
  /\ (e = Error msg_decode_key_required
      \/ exists cause, reveal_cause cause
           /\ e = Error (msg_failed ++ exn_message cause)).
Proof.
  intro H. split; [apply (pure_world _ _ _ _ (pure_conceal_decode code key) H)|].
  unfold decode in H.
  destruct (is_empty key).
  { left. unfold throw in H. congruence. }
  right. apply try_catch_throw in H. destruct H as (cause & w1 & Hb & H).
  unfold throw in H. injection H as <- _. exists cause. split; [|reflexivity].
  unfold reveal_cause.
  destruct (search match_array code);
    [|unfold throw in Hb; injection Hb as <- _; auto].
  destruct (search match_key code) as [encodedKey|];
    [|unfold throw in Hb; injection Hb as <- _; auto].
  apply bind_throw in Hb. destruct Hb as [Hb|(v1 & w2 & _ & Hb)];
    [apply native_throw in Hb; auto|].
  apply bind_throw in Hb. destruct Hb as [Hb|(v2 & w3 & _ & Hb)];
    [apply native_throw in Hb; auto 6|].
  destruct (jstring_eqb v2 encodedKey);
    [|unfold throw in Hb; injection Hb as <- _; auto].
  apply bind_throw in Hb. destruct Hb as [Hb|(payload & w4 & _ & Hb)];
    [apply as_array_throw in Hb; auto 6|].
  apply bind_throw in Hb. destruct Hb as [Hb|(ds & w5 & _ & Hb)];
    [|unfold ret in Hb; discriminate].
  apply mapM_throw in Hb. destruct Hb as (a & wa & wb & Hb).
  apply bind_throw in Hb. destruct Hb as [Hb|(s & wc & _ & Hb)];
    [apply native_throw in Hb; auto 6|unfold ret in Hb; discriminate].
Qed.

End StringConcealMore.

(** *** Concrete runs *)

(** [let x = "hi";] under the key [k]. *)
Lemma conceal_latin1_witness :
  stringConceal.encode sample_code (js "k") sample_world
  = (Return (sample_concealed, stringConceal.encode_log 1), sample_world_after).
Proof.
  refine (eq_trans (conceal_latin1 sample_code (js "k") sample_world _ _ _ _) _).
  - discriminate.
  - vm_compute. discriminate.
  - reflexivity.
  - vm_compute. repeat constructor.
  - vm_compute. reflexivity.
Defined.

(** A literal with a euro sign. *)
Lemma conceal_rejects_wide_characters_witness :
  fst (stringConceal.encode sample_wide_code (js "k") sample_world)
  = Throw (Native InvalidCharacterError).
Proof.
  apply (conceal_rejects_wide_characters sample_wide_code (js "k") sample_world).
  - discriminate.
  - vm_compute. discriminate.
  - right. split; [reflexivity|]. vm_compute. constructor. reflexivity.
Defined.

Lemma decode_with_right_key_witness :
  stringConceal.decode (E := reference_engine) sample_concealed (js "k") sample_world
  = (Return (stringConceal.decode_result, stringConceal.reveal_log [js "hi"]),
     sample_world)
  /\ lists_in_order (stringConceal.reveal_log [js "hi"]) [js "hi"].
Proof.
  apply (decode_with_right_key (E := reference_engine) sample_code (js "k")
           sample_concealed (stringConceal.encode_log 1) (js "aw==")
           sample_world sample_world_after sample_world).
  - exact sample_concealed_run.
  - vm_compute. discriminate.
  - exact sample_world_ok.
  - reflexivity.
  - reflexivity.
Defined.

(** The key [>>>], of base64 form [Pj4+], read with itself. *)
Lemma decode_cannot_read_plus_or_slash_witness :
  stringConceal.decode (E := reference_engine)
    (concealed sample_code (js ">>>") sample_world) (js ">>>") sample_world
  = (Throw (Error (stringConceal.msg_failed ++ stringConceal.msg_not_found)),
     sample_world).
Proof.
  apply (decode_cannot_read_plus_or_slash (E := reference_engine) sample_code
           (js ">>>") (js ">>>") (concealed sample_code (js ">>>") sample_world)
           (stringConceal.encode_log 1) (js "Pj4+")
           sample_world sample_world_after sample_world).
  - vm_compute. reflexivity.
  - vm_compute. discriminate.
  - apply sample_world_ok.
  - apply sample_world_ok.
  - reflexivity.
  - left. right. right. right. left. reflexivity.
  - discriminate.
Defined.

(** A text that is no artifact. *)
Lemma reveal_failure_modes_witness :
  sample_world = sample_world
  /\ (Error (stringConceal.msg_failed ++ stringConceal.msg_not_found)
      = Error stringConceal.msg_decode_key_required
      \/ exists cause, reveal_cause cause
           /\ Error (stringConceal.msg_failed ++ stringConceal.msg_not_found)
              = Error (stringConceal.msg_failed
                       ++ exn_message (E := reference_engine) cause)).
Proof.
  apply (reveal_failure_modes (E := reference_engine) (js "x") (js "k") sample_world
           sample_world).
  vm_compute. reflexivity.
Defined.

(** ** Renaming, word by word

    [rename] searches [\b name \b].  For a name of [\w] characters the
    matches are the maximal runs of [\w] characters that equal the name, so
    the renames of [encode] and of [decode] act on the words of the text
    one by one, and on nothing else. *)

Section WordsOfTheCode.
Import lexicalScramble.

Lemma untokens_tokens (s : jstring) : untokens (tokens s) = s.
Proof.
  induction s as [|c r IH]; [reflexivity|]. cbn [tokens].
  destruct (is_word c).
  - destruct (tokens r) as [|[w|d] t]; unfold untokens in *; cbn [map concat token_text app] in *;
      rewrite <- IH; reflexivity.
  - unfold untokens in *. cbn [map concat token_text app]. rewrite IH. reflexivity.
Qed.

Definition is_Word (t : token) : bool := match t with Word _ => true | Other _ => false end.

(** Well-formed token lists: what [tokens] returns. *)
Fixpoint wf (l : list token) : Prop :=
  match l with
  | [] => True
  | Word w :: t =>
      w <> [] /\ forallb is_word w = true
      /\ match t with Word _ :: _ => False | _ => True end /\ wf t
  | Other c :: t => is_word c = false /\ wf t
  end.

Lemma tokens_wf (s : jstring) : wf (tokens s).
Proof.
  induction s as [|c r IH]; [exact I|]. cbn [tokens].
  destruct (is_word c) eqn:Hc.
  - destruct (tokens r) as [|[w|d] t]; cbn [wf] in *.
    + repeat split; [discriminate|cbn; rewrite Hc; reflexivity].
    + destruct IH as (Hw & Hall & Hadj & Hwf).
      repeat split; [discriminate|cbn [forallb]; rewrite Hc, Hall; reflexivity|exact Hadj|exact Hwf].
    + repeat split; [discriminate|cbn; rewrite Hc; reflexivity|apply IH|apply IH].
  - cbn [wf]. split; [exact Hc|exact IH].
Qed.

Lemma tokens_word_app (w : jstring) (r : jstring) :
  forallb is_word w = true -> w <> [] ->
  match r with c :: _ => is_word c = false | [] => True end ->
  tokens (w ++ r) = Word w :: tokens r.
Proof.
  intros Hw Hne Hr. induction w as [|c w IH]; [congruence|].
  cbn [forallb] in Hw. apply andb_prop in Hw. destruct Hw as [Hc Hw].
  cbn [app tokens]. rewrite Hc.
  destruct w as [|d w].
  - cbn [app]. destruct r as [|e r]; [reflexivity|].
    cbn [tokens]. rewrite Hr. reflexivity.
  - rewrite (IH Hw ltac:(discriminate)). reflexivity.
Qed.

Lemma tokens_untokens (l : list token) : wf l -> tokens (untokens l) = l.
Proof.
  induction l as [|[w|c] t IH]; intro H; [reflexivity| |].
  - cbn [wf] in H. destruct H as (Hne & Hall & Hadj & Hwf).
    unfold untokens. cbn [map concat token_text]. fold (untokens t).
    rewrite tokens_word_app; auto.
    + rewrite (IH Hwf). reflexivity.
    + destruct t as [|[w'|c'] t']; [exact I|contradiction|].
      unfold untokens. cbn. apply Hwf.
  - cbn [wf] in H. destruct H as [Hc Hwf].
    unfold untokens. cbn [map concat token_text app]. fold (untokens t).
    cbn [tokens]. rewrite Hc, (IH Hwf). reflexivity.
Qed.


Definition keeps_words (f : jstring -> jstring) : Prop :=
  forall w, w <> [] -> forallb is_word w = true ->
            f w <> [] /\ forallb is_word (f w) = true.

Lemma map_words_wf (f : jstring -> jstring) (l : list token) :
  keeps_words f -> wf l -> wf (map (map_words f) l).
Proof.
  intro Hf. induction l as [|[w|c] t IH]; intro H; [exact I| |].
  - cbn [wf] in H. destruct H as (Hne & Hall & Hadj & Hwf).
    cbn [map map_words wf]. destruct (Hf w Hne Hall) as [H1 H2].
    repeat split; auto.
    destruct t as [|[w'|c'] t']; [exact I|contradiction|exact I].
  - cbn [wf] in H. cbn [map map_words wf]. split; [apply H|apply IH, H].
Qed.


Definition last_seen (prev : option N) (x : jstring) : option N :=
  fold_left (fun _ c => Some c) x prev.

Definition seen_word (prev : option N) : bool :=
  match prev with Some c => is_word c | None => false end.

Lemma split_matches_skip_app {A : Type} (m : matcher A) (p : option N) (x y : jstring) :
  split_matches m p (length x) (x ++ y) = split_matches m (last_seen p x) 0 y.
Proof.
  revert p. induction x as [|c x IH]; intro p; [reflexivity|].
  cbn [length app split_matches]. apply IH.
Qed.

Lemma last_seen_word (p : option N) (x : jstring) :
  forallb is_word x = true -> seen_word p = true -> seen_word (last_seen p x) = true.
Proof.
  revert p. induction x as [|c x IH]; intros p Hx Hp; [exact Hp|].
  cbn [forallb] in Hx. apply andb_prop in Hx. destruct Hx as [Hc Hx].
  apply (IH (Some c) Hx Hc).
Qed.

Lemma last_seen_nonempty (p q : option N) (x : jstring) :
  x <> [] -> last_seen p x = last_seen q x.
Proof. destruct x; [congruence|reflexivity]. Qed.

Lemma word_not_dollar (c : N) : is_word c = true -> (c =? 36) = false.
Proof.
  unfold is_word, is_letter, is_decimal_digit. cases_on_tests.
Qed.

Lemma match_atoms_word (name : jstring) (prev : option N) (s : jstring) :
  forallb is_word name = true ->
  match_atoms (pattern_of_name name) prev s
  = match strip_prefix name s with
    | Some rest => Some (length name, last_seen prev name, rest)
    | None => None
    end.
Proof.
  revert prev s. induction name as [|c name IH]; intros prev s H; [reflexivity|].
  cbn [forallb] in H. apply andb_prop in H. destruct H as [Hc H].
  cbn [pattern_of_name map]. rewrite (word_not_dollar c Hc).
  fold (pattern_of_name name). cbn [match_atoms strip_prefix].
  destruct s as [|d r]; [reflexivity|].
  destruct (N.eqb_spec c d) as [->|]; [|reflexivity].
  rewrite (IH (Some d) r H). destruct (strip_prefix name r); reflexivity.
Qed.

Section Rename.
Variable name : jstring.
Variable text : jstring.      (* the replacement text *)
Hypothesis name_not_empty : name <> [].
Hypothesis name_word : forallb is_word name = true.

Definition render (p : piece unit) : jstring :=
  match p with Kept c => [c] | Hit _ => text end.

Definition rename_token (t : token) : jstring :=
  match t with
  | Word w => if jstring_eqb w name then text else w
  | Other c => [c]
  end.

Lemma no_match_at_other (prev : option N) (c : N) (r : jstring) :
  is_word c = false -> match_name name prev (c :: r) = None.
Proof.
  intro Hc. unfold match_name.
  destruct (word_boundary prev (c :: r)); [|reflexivity].
  rewrite match_atoms_word by exact name_word.
  destruct name as [|n0 name']; [congruence|].
  cbn [forallb] in name_word. apply andb_prop in name_word.
  destruct name_word as [Hn0 _]. cbn [strip_prefix].
  destruct (N.eqb_spec n0 c) as [->|]; [congruence|reflexivity].
Qed.

Lemma no_match_at_end (prev : option N) : match_name name prev [] = None.
Proof.
  unfold match_name. destruct (word_boundary prev []); [|reflexivity].
  rewrite match_atoms_word by exact name_word.
  destruct name; [congruence|reflexivity].
Qed.

Lemma no_match_inside (prev : option N) (c : N) (r : jstring) :
  seen_word prev = true -> is_word c = true -> match_name name prev (c :: r) = None.
Proof.
  intros Hp Hc. unfold match_name, word_boundary. fold (seen_word prev).
  rewrite Hp, Hc. reflexivity.
Qed.

Lemma inside_word (x y : jstring) (prev : option N) :
  seen_word prev = true -> forallb is_word x = true ->
  flat_map render (split_matches (match_name name) prev 0 (x ++ y))
  = x ++ flat_map render (split_matches (match_name name) (last_seen prev x) 0 y).
Proof.
  revert prev. induction x as [|c x IH]; intros prev Hp Hx; [reflexivity|].
  cbn [forallb] in Hx. apply andb_prop in Hx. destruct Hx as [Hc Hx].
  cbn [app split_matches]. rewrite (no_match_inside prev c _ Hp Hc).
  cbn [flat_map render app]. rewrite (IH (Some c) Hc Hx). reflexivity.
Qed.

Lemma run_split (s : jstring) :
  s = take_while is_word s ++ skipn (length (take_while is_word s)) s
  /\ forallb is_word (take_while is_word s) = true
  /\ starts_with is_word (skipn (length (take_while is_word s)) s) = false.
Proof.
  destruct (take_while_split is_word s) as [H1 H2].
  split; [exact H1|]. split; [exact H2|apply after_run].
Qed.

Lemma starts_with_false (p : N -> bool) (s : jstring) :
  starts_with p s = false -> match s with c :: _ => p c = false | [] => True end.
Proof. destruct s; simpl; auto. Qed.

Lemma jstring_eqb_refl (a : jstring) : jstring_eqb a a = true.
Proof. unfold jstring_eqb. destruct (list_eq_dec N.eq_dec a a); congruence. Qed.

Lemma scan_tokens (s : jstring) :
  forall prev, seen_word prev && starts_with is_word s = false ->
  flat_map render (split_matches (match_name name) prev 0 s)
  = concat (map rename_token (tokens s)).
Proof.
  induction s as [s IH] using list_length_ind. intros prev Hstart.
  destruct s as [|c r].
  - cbn [split_matches]. rewrite no_match_at_end. reflexivity.
  - destruct (is_word c) eqn:Hc.
    + (* a word starts here *)
      cbn [starts_with] in Hstart. rewrite Hc, andb_true_r in Hstart.
      destruct (run_split (c :: r)) as (Hsplit & Hrun & Hafter).
      set (W := take_while is_word (c :: r)) in *.
      set (rest := skipn (length W) (c :: r)) in *.
      assert (HW : exists W', W = c :: W').
      { unfold W. cbn [take_while]. rewrite Hc. eauto. }
      destruct HW as [W' HW].
      assert (Hne : W <> []) by (rewrite HW; discriminate).
      assert (Hlen : (length rest < length (c :: r))%nat).
      { unfold rest. rewrite length_skipn, HW. cbn [length]. lia. }
      assert (Hr : r = W' ++ rest).
      { rewrite HW in Hsplit. cbn [app] in Hsplit. congruence. }
      rewrite Hsplit at 2.
      rewrite (tokens_word_app W rest Hrun Hne (starts_with_false _ _ Hafter)).
      cbn [map concat rename_token].
      assert (Hrest : forall p, seen_word p = true ->
                flat_map render (split_matches (match_name name) p 0 rest)
                = concat (map rename_token (tokens rest))).
      { intros p Hp. apply (IH rest Hlen). rewrite Hafter. apply andb_false_r. }
      cbn [split_matches].
      destruct (match_name name prev (c :: r)) as [[[] n]|] eqn:Hm.
      * (* the pattern matches: the word is the name *)
        unfold match_name, word_boundary in Hm. fold (seen_word prev) in Hm.
        rewrite Hstart, Hc in Hm. cbn [xorb] in Hm.
        rewrite match_atoms_word in Hm by exact name_word.
        destruct (strip_prefix name (c :: r)) as [rest'|] eqn:Hpre; [|discriminate].
        apply strip_prefix_app in Hpre.
        cbv beta iota in Hm.
        assert (Hlast : seen_word (last_seen prev name) = true).
        { rewrite (last_seen_nonempty prev (Some c) name name_not_empty).
          apply last_seen_word; [exact name_word|exact Hc]. }
        fold (seen_word (last_seen prev name)) in Hm. rewrite Hlast in Hm.
        cbn [xorb] in Hm. fold (starts_with is_word rest') in Hm.
        destruct (starts_with is_word rest') eqn:Hb; [discriminate|].
        cbn [negb] in Hm. injection Hm as <-.
        assert (HWn : W = name).
        { unfold W. rewrite Hpre. apply take_while_app; [exact name_word|].
          apply starts_with_false, Hb. }
        assert (Hrest' : rest' = rest).
        { unfold rest. rewrite HWn, Hpre. symmetry. apply skipn_length_app. }
        subst rest'. rewrite HWn, jstring_eqb_refl.
        assert (Hn : length name = S (length W')) by (rewrite <- HWn, HW; reflexivity).
        rewrite Hn. cbn [flat_map render].
        rewrite Hr, split_matches_skip_app, Hrest; [reflexivity|].
        apply last_seen_word; [|exact Hc].
        rewrite HW in Hrun. cbn [forallb] in Hrun. apply andb_prop in Hrun. apply Hrun.
      * (* no match: the word stays *)
        assert (HWn : jstring_eqb W name = false).
        { apply jstring_eqb_neq. intro HWn.
          unfold match_name, word_boundary in Hm. fold (seen_word prev) in Hm.
          rewrite Hstart, Hc in Hm. cbn [xorb] in Hm.
          rewrite match_atoms_word in Hm by exact name_word.
          rewrite Hsplit, HWn, strip_prefix_exact in Hm.
          unfold word_boundary in Hm. fold (seen_word (last_seen prev name)) in Hm.
          rewrite (last_seen_nonempty prev (Some c) name name_not_empty) in Hm.
          rewrite (last_seen_word (Some c) name name_word Hc) in Hm.
          cbn [xorb] in Hm. fold (starts_with is_word rest) in Hm.
          rewrite Hafter in Hm. discriminate. }
        rewrite HWn. cbn [flat_map render app].
        rewrite Hr, (inside_word W' rest (Some c) Hc).
        2:{ rewrite HW in Hrun. cbn [forallb] in Hrun. apply andb_prop in Hrun. apply Hrun. }
        rewrite Hrest.
        -- rewrite HW. reflexivity.
        -- apply last_seen_word; [|exact Hc].
           rewrite HW in Hrun. cbn [forallb] in Hrun. apply andb_prop in Hrun. apply Hrun.
    + (* a character outside words *)
      cbn [split_matches tokens]. rewrite Hc, (no_match_at_other prev c r Hc).
      cbn [flat_map render map concat rename_token app]. f_equal.
      apply IH; [simpl; lia|]. cbn [seen_word]. rewrite Hc. reflexivity.
Qed.

End Rename.

(** [rename] rewrites exactly the words that are the name. *)
Lemma rename_tokens (name to s : jstring) :
  name <> [] -> forallb is_word name = true ->
  rename name to s = concat (map (rename_token name (substitution to)) (tokens s)).
Proof.
  intros Hne Hw. unfold rename, replace_all, matches.
  rewrite <- (scan_tokens name (substitution to) Hne Hw s None) by reflexivity.
  apply flat_map_ext. intros [c|[]]; reflexivity.
Qed.



Lemma swap_keeps_words (name to : jstring) : plain_word to -> keeps_words (swap name to).
Proof.
  intros [H1 H2] w Hne Hw. unfold swap. destruct (jstring_eqb w name); auto.
Qed.

Lemma substitution_plain (name : jstring) :
  forallb (fun c => negb (c =? 36)) name = true -> substitution name = name.
Proof.
  induction name as [|a r IH]; [reflexivity|]. cbn [forallb].
  intro H. apply andb_prop in H. destruct H as [Ha Hr].
  apply negb_true_iff in Ha. cbn [substitution]. rewrite Ha. cbn [andb].
  destruct r as [|b r']; [reflexivity|]. rewrite (IH Hr). reflexivity.
Qed.

(** X20.  For a name made of [\w] characters and a replacement without
    [$], [rename] rewrites the text word by word: every maximal run of
    [\w] characters equal to the name becomes the replacement, wherever it
    stands (inside a string literal or a comment too), and every other
    character stays. *)
Theorem rename_rewrites_whole_words (name to s : jstring) :
  plain_word name ->
  forallb (fun c => negb (c =? 36)) to = true ->
  rename name to s = untokens (map (map_words (swap name to)) (tokens s)).
Proof.
  intros [Hne Hw] Hto. rewrite rename_tokens by assumption.
  rewrite (substitution_plain to Hto). unfold untokens. rewrite map_map.
  f_equal. apply map_ext. intros [w|c]; cbn [rename_token map_words token_text swap];
    reflexivity.
Qed.

Lemma word_no_dollar (w : jstring) :
  forallb is_word w = true -> forallb (fun c => negb (c =? 36)) w = true.
Proof.
  apply forallb_impl. intros c Hc. rewrite (word_not_dollar c Hc). reflexivity.
Qed.

Lemma rename_words (name to s : jstring) :
  plain_word name -> plain_word to ->
  tokens (rename name to s) = map (map_words (swap name to)) (tokens s).
Proof.
  intros [Hn1 Hn2] Hto. rewrite rename_tokens by assumption.
  rewrite (substitution_plain to) by (apply word_no_dollar, Hto).
  replace (concat (map (rename_token name to) (tokens s)))
    with (untokens (map (map_words (swap name to)) (tokens s))).
  - apply tokens_untokens, map_words_wf; [apply swap_keeps_words, Hto|apply tokens_wf].
  - unfold untokens. rewrite map_map. f_equal. apply map_ext.
    intros [w|c]; reflexivity.
Qed.

(** Renaming in sequence, word by word. *)
Fixpoint fwd (pairs : list (jstring * jstring)) (w : jstring) : jstring :=
  match pairs with
  | [] => w
  | (old, new) :: r => fwd r (swap old new w)
  end.

Fixpoint back (pairs : list (jstring * jstring)) (w : jstring) : jstring :=
  match pairs with
  | [] => w
  | (old, new) :: r => back r (swap new old w)
  end.

Lemma map_words_compose (f g : jstring -> jstring) (l : list token) :
  map (map_words g) (map (map_words f) l) = map (map_words (fun w => g (f w))) l.
Proof. rewrite map_map. apply map_ext. intros [w|c]; reflexivity. Qed.

Lemma generateName_word (n : nat) : plain_word (generateName n).
Proof.
  induction n as [n IH] using lt_wf_ind. rewrite NameFacts.generateName_unfold.
  assert (Hd : forall d, (d < 53)%nat -> is_word (nth d alphabet 0) = true).
  { intros d Hd.
    assert (Hall : forallb (fun d => is_word (nth d alphabet 0)) (seq 0 53) = true)
      by (vm_compute; reflexivity).
    rewrite forallb_forall in Hall. apply Hall, in_seq. lia. }
  pose proof (Hd (n mod 53)%nat (Nat.mod_upper_bound n 53 ltac:(lia))) as Hc.
  destruct (n / 53)%nat as [|q] eqn:Hq.
  - split; [discriminate|]. cbn [forallb]. rewrite Hc. reflexivity.
  - destruct (IH q) as [H1 H2]; [pose proof (Nat.div_mod_eq n 53); lia|].
    split.
    + intro H. apply app_eq_nil in H. destruct H; discriminate.
    + rewrite forallb_app, H2. cbn [forallb]. rewrite Hc. reflexivity.
Qed.

Lemma scramble_tokens (ids : list jstring) (i : nat) (m : list (jstring * jstring))
    (code : jstring) :
  Forall plain_word ids ->
  tokens (snd (scramble ids i m code))
  = map (map_words (fwd (combine ids (map generateName (seq i (length ids))))))
        (tokens code).
Proof.
  intro H. revert i m code. induction H as [|x ids Hx _ IH]; intros i m code.
  - cbn [scramble snd length seq map combine fwd].
    rewrite <- (map_id (tokens code)) at 1. apply map_ext. intros [w|c]; reflexivity.
  - cbn [scramble length seq map combine]. rewrite IH.
    rewrite (rename_words x (generateName i) code Hx (generateName_word i)).
    rewrite map_words_compose. reflexivity.
Qed.

Lemma restore_tokens {E : Engine} (entries : list (jstring * jstring)) (s : jstring) :
  Forall (fun kv => plain_word (fst kv) /\ plain_word (snd kv)) entries ->
  tokens (restore entries s) = map (map_words (back entries)) (tokens s).
Proof.
  intro H. revert s. induction H as [|[old new] entries [Ho Hn] _ IH]; intro s.
  - cbn [restore back]. rewrite <- (map_id (tokens s)) at 1.
    apply map_ext. intros [w|c]; reflexivity.
  - cbn [restore]. rewrite IH. cbn [fst snd] in *.
    rewrite (rename_words new old s Hn Ho), map_words_compose. reflexivity.
Qed.

(** What the two sequences do to one word. *)
Lemma swap_other (name to w : jstring) : w <> name -> swap name to w = w.
Proof. intro H. unfold swap. rewrite jstring_eqb_neq by exact H. reflexivity. Qed.

Lemma swap_same (name to : jstring) : swap name to name = to.
Proof. unfold swap. rewrite jstring_eqb_refl. reflexivity. Qed.

Lemma fwd_outside (pairs : list (jstring * jstring)) (w : jstring) :
  ~ In w (map fst pairs) -> fwd pairs w = w.
Proof.
  induction pairs as [|[old new] r IH]; [reflexivity|]. cbn [map fst In fwd].
  intro H. rewrite swap_other by (intro; apply H; left; congruence).
  apply IH. tauto.
Qed.

Lemma back_outside (pairs : list (jstring * jstring)) (w : jstring) :
  ~ In w (map snd pairs) -> back pairs w = w.
Proof.
  induction pairs as [|[old new] r IH]; [reflexivity|]. cbn [map snd In back].
  intro H. rewrite swap_other by (intro; apply H; left; congruence).
  apply IH. tauto.
Qed.

Lemma fwd_inside (pairs : list (jstring * jstring)) (old new : jstring) :
  In (old, new) pairs -> NoDup (map fst pairs) ->
  (forall g, In g (map snd pairs) -> ~ In g (map fst pairs)) ->
  fwd pairs old = new.
Proof.
  induction pairs as [|[o n] r IH]; [contradiction|].
  cbn [map fst snd In fwd]. intros Hin Hnd Hdis.
  inversion Hnd as [|? ? Hnotin Hnd']; subst.
  destruct (list_eq_dec N.eq_dec old o) as [->|Hne].
  - assert (new = n) as ->.
    { destruct Hin as [[= <-]|Hin]; [reflexivity|].
      exfalso. apply Hnotin. apply (in_map fst) in Hin. exact Hin. }
    rewrite swap_same. apply fwd_outside.
    intro H. apply (Hdis n); [left; reflexivity|right; exact H].
  - rewrite swap_other by exact Hne.
    apply IH; auto.
    + destruct Hin as [[= <- <-]|Hin]; [congruence|exact Hin].
    + intros g Hg Hg'. apply (Hdis g); [right; exact Hg|right; exact Hg'].
Qed.

Lemma back_inside (pairs : list (jstring * jstring)) (old new : jstring) :
  In (old, new) pairs -> NoDup (map snd pairs) ->
  (forall g, In g (map snd pairs) -> ~ In g (map fst pairs)) ->
  back pairs new = old.
Proof.
  induction pairs as [|[o n] r IH]; [contradiction|].
  cbn [map fst snd In back]. intros Hin Hnd Hdis.
  inversion Hnd as [|? ? Hnotin Hnd']; subst.
  destruct (list_eq_dec N.eq_dec new n) as [->|Hne].
  - assert (old = o) as ->.
    { destruct Hin as [[= <-]|Hin]; [reflexivity|].
      exfalso. apply Hnotin. apply (in_map snd) in Hin. exact Hin. }
    rewrite swap_same. apply back_outside.
    intro H. apply (Hdis o); [right; exact H|left; reflexivity].
  - rewrite swap_other by exact Hne.
    apply IH; auto.
    + destruct Hin as [[= <- <-]|Hin]; [congruence|exact Hin].
    + intros g Hg Hg'. apply (Hdis g); [right; exact Hg|right; exact Hg'].
Qed.


(** *** Collapsing white space, by characters and by tokens *)

Fixpoint collapse_from (in_run : bool) (s : jstring) : jstring :=
  match s with
  | [] => []
  | c :: r =>
      if is_white_space c
      then (if in_run then [] else [32]) ++ collapse_from true r
      else c :: collapse_from false r
  end.

Lemma collapse_from_run (s : jstring) :
  collapse_from true s
  = collapse_from false (skipn (length (take_while is_white_space s)) s).
Proof.
  induction s as [|c r IH]; [reflexivity|]. cbn [take_while].
  destruct (is_white_space c) eqn:Hc.
  - cbn [length skipn collapse_from]. rewrite Hc. exact IH.
  - cbn [length skipn collapse_from]. rewrite Hc. reflexivity.
Qed.

Lemma collapse_as_scan (s : jstring) : collapse s = collapse_from false s.
Proof.
  induction s as [s IH] using list_length_ind. destruct s as [|c r].
  - apply collapse_nil.
  - rewrite collapse_cons. cbn [collapse_from].
    destruct (is_white_space c) eqn:Hc.
    + cbn [app]. f_equal. rewrite IH.
      * cbn [take_while]. rewrite Hc. cbn [length skipn]. symmetry.
        apply collapse_from_run.
      * rewrite length_skipn. cbn [take_while]. rewrite Hc. cbn [length]. lia.
    + f_equal. apply IH. simpl. lia.
Qed.

Fixpoint collapse_tokens (in_run : bool) (l : list token) : list token :=
  match l with
  | [] => []
  | Other c :: t =>
      if is_white_space c
      then (if in_run then [] else [Other 32]) ++ collapse_tokens true t
      else Other c :: collapse_tokens false t
  | Word w :: t => Word w :: collapse_tokens false t
  end.

Lemma word_range (c : N) : is_word c = true -> 48 <= c <= 122.
Proof.
  unfold is_word, is_letter, is_decimal_digit. cases_on_tests.
Qed.

Lemma white_space_not_word (c : N) : is_white_space c = true -> is_word c = false.
Proof.
  intro Hws. destruct (is_word c) eqn:Hw; [|reflexivity].
  apply word_range in Hw. unfold is_white_space in Hws.
  repeat match type of Hws with
         | context [c =? ?k] => rewrite (proj2 (N.eqb_neq c k)) in Hws by lia
         end.
  rewrite (proj2 (N.leb_gt 8192 c)) in Hws by lia. discriminate.
Qed.

Lemma collapse_tokens_head (l : list token) :
  match collapse_tokens false l with
  | Word _ :: _ => match l with Word _ :: _ => True | _ => False end
  | _ => match l with Word _ :: _ => False | _ => True end
  end.
Proof.
  destruct l as [|[w|c] t]; cbn [collapse_tokens]; auto.
  destruct (is_white_space c); cbn [app]; auto.
Qed.

Lemma tokens_collapse_from (s : jstring) (b : bool) :
  tokens (collapse_from b s) = collapse_tokens b (tokens s).
Proof.
  revert b. induction s as [|c r IH]; intro b; [reflexivity|].
  cbn [collapse_from tokens].
  destruct (is_white_space c) eqn:Hws.
  - rewrite (white_space_not_word c Hws). cbn [collapse_tokens]. rewrite Hws.
    destruct b; cbn [app tokens]; rewrite ?IH; [reflexivity|].
    change (is_word 32) with false. cbn iota. reflexivity.
  - cbn [tokens]. rewrite (IH false).
    destruct (is_word c) eqn:Hw.
    + pose proof (collapse_tokens_head (tokens r)) as Hh.
      destruct (tokens r) as [|[w|d] t] eqn:Ht; cbn [collapse_tokens] in *.
      * reflexivity.
      * reflexivity.
      * destruct (is_white_space d); cbn [app collapse_tokens] in *; reflexivity.
    + cbn [collapse_tokens]. rewrite Hws. reflexivity.
Qed.

Lemma tokens_collapse (s : jstring) :
  tokens (collapse s) = collapse_tokens false (tokens s).
Proof. rewrite collapse_as_scan. apply tokens_collapse_from. Qed.

Lemma collapse_tokens_map (f : jstring -> jstring) (l : list token) (b : bool) :
  collapse_tokens b (map (map_words f) l) = map (map_words f) (collapse_tokens b l).
Proof.
  revert b. induction l as [|[w|c] t IH]; intro b; [reflexivity| |].
  - cbn [map map_words collapse_tokens]. rewrite IH. reflexivity.
  - cbn [map map_words collapse_tokens].
    destruct (is_white_space c); [|cbn [map map_words]; rewrite IH; reflexivity].
    rewrite map_app, IH. destruct b; reflexivity.
Qed.

Lemma collapse_tokens_words (l : list token) (b : bool) (w : jstring) :
  In (Word w) (collapse_tokens b l) -> In (Word w) l.
Proof.
  revert b. induction l as [|[v|c] t IH]; intro b; [auto| |].
  - cbn [collapse_tokens]. intros [H|H]; [left; exact H|right; apply (IH _ H)].
  - cbn [collapse_tokens]. destruct (is_white_space c).
    + rewrite in_app_iff. intros [H|H]; [|right; apply (IH _ H)].
      destruct b; [contradiction|]. destruct H as [H|[]]. discriminate.
    + intros [H|H]; [discriminate|right; apply (IH _ H)].
Qed.

Lemma in_words (s w : jstring) : In w (words s) <-> In (Word w) (tokens s).
Proof.
  unfold words. rewrite in_flat_map. split.
  - intros ([v|c] & Hin & H); [|contradiction].
    destruct H as [<-|[]]. exact Hin.
  - intro H. exists (Word w). split; [exact H|left; reflexivity].
Qed.

Lemma map_words_id (f : jstring -> jstring) (l : list token) :
  (forall w, In (Word w) l -> f w = w) -> map (map_words f) l = l.
Proof.
  intro H. rewrite <- (map_id l) at 2. apply map_ext_in.
  intros [w|c] Hin; [|reflexivity]. cbn [map_words]. rewrite (H w Hin). reflexivity.
Qed.

(** *** Texts without a slash have no comment *)

Lemma uncomment_no_slash (s : jstring) :
  forallb (fun c => negb (c =? 47)) s = true -> uncomment s = s.
Proof.
  induction s as [|c r IH]; intro H.
  - unfold uncomment, replace_all. rewrite matches_nil by exact match_comment_progressing.
    reflexivity.
  - cbn [forallb] in H. apply andb_prop in H. destruct H as [Hc Hr].
    apply negb_true_iff in Hc. unfold uncomment.
    rewrite replace_all_cons
      by (exact match_comment_context_free || exact match_comment_progressing).
    assert (Hm : match_comment None (c :: r) = None).
    { unfold match_comment. destruct r; [reflexivity|]. rewrite Hc. reflexivity. }
    rewrite Hm. f_equal. apply IH, Hr.
Qed.

(** *** Characters a replacement can bring in *)

Lemma split_matches_chars {A : Type} (m : matcher A) (f : A -> jstring) (P : N -> bool) :
  (forall a, forallb P (f a) = true) ->
  forall s prev skip, forallb P s = true ->
    forallb P (flat_map (fun p => match p with Kept c => [c] | Hit a => f a end)
                 (split_matches m prev skip s)) = true.
Proof.
  intros Hf. induction s as [|c r IH]; intros prev skip Hs.
  - destruct skip; cbn [split_matches]; [|reflexivity].
    destruct (m prev []) as [[a n]|]; [|reflexivity].
    cbn [flat_map]. rewrite app_nil_r. apply Hf.
  - cbn [forallb] in Hs. apply andb_prop in Hs. destruct Hs as [Hc Hr].
    destruct skip as [|k]; cbn [split_matches]; [|apply IH, Hr].
    destruct (m prev (c :: r)) as [[a [|k]]|]; cbn [flat_map];
      rewrite ?forallb_app, ?Hf; cbn [forallb]; rewrite ?Hc, ?IH; auto.
Qed.

Lemma replace_all_chars {A : Type} (m : matcher A) (f : A -> jstring) (P : N -> bool)
    (s : jstring) :
  (forall a, forallb P (f a) = true) -> forallb P s = true ->
  forallb P (replace_all m f s) = true.
Proof. intros Hf Hs. apply split_matches_chars; assumption. Qed.

Lemma split_matches_hit_chars (P : N -> bool) (s : jstring) :
  forall prev skip, forallb P s = true ->
    Forall (fun a => forallb P a = true)
      (hits (split_matches match_identifier prev skip s)).
Proof.
  assert (Hm : forall prev s a n, forallb P s = true ->
                 match_identifier prev s = Some (a, n) -> forallb P a = true).
  { intros prev t a n Ht. unfold match_identifier. destruct t as [|c r]; [discriminate|].
    destruct (is_identifier_start c); [|discriminate]. intros [= <- _].
    cbn [forallb] in Ht |- *. apply andb_prop in Ht. destruct Ht as [Hc Hr].
    rewrite Hc. cbn [andb].
    destruct (take_while_split is_identifier_part r) as [Hsplit _].
    rewrite Hsplit, forallb_app in Hr. apply andb_prop in Hr. apply Hr. }
  induction s as [|c r IH]; intros prev skip Hs.
  - destruct skip; cbn [split_matches]; [|constructor].
    destruct (match_identifier prev []) as [[a n]|] eqn:H0; [|constructor].
    constructor; [apply (Hm _ _ _ _ Hs H0)|constructor].
  - assert (Hr : forallb P r = true).
    { cbn [forallb] in Hs. apply andb_prop in Hs. apply Hs. }
    destruct skip as [|k]; cbn [split_matches]; [|apply IH, Hr].
    destruct (match_identifier prev (c :: r)) as [[a [|k]]|] eqn:H0.
    + constructor; [apply (Hm _ _ _ _ Hs H0)|apply IH, Hr].
    + constructor; [apply (Hm _ _ _ _ Hs H0)|apply IH, Hr].
    + apply IH, Hr.
Qed.

Lemma identifier_part_word (c : N) :
  is_identifier_part c = true -> (c =? 36) = false -> is_word c = true.
Proof.
  unfold is_identifier_part, is_identifier_start, is_word. intros H H36.
  rewrite H36, orb_false_r in H.
  destruct (is_letter c); [reflexivity|]. cbn [orb] in *.
  destruct (c =? 95); [apply orb_true_r|]. cbn [orb] in H. rewrite H. reflexivity.
Qed.

Lemma identifiers_plain (code : jstring) :
  forallb (fun c => negb (c =? 36)) code = true ->
  Forall plain_word (getIdentifiers code).
Proof.
  intro Hcode. apply Forall_forall. intros name Hin.
  destruct (getIdentifiers_spec code) as [_ Hiff].
  apply Hiff in Hin. destruct Hin as [Hin _].
  pose proof (split_matches_hits match_identifier identifier_shaped
                match_identifier_shaped (cleanCode code) None 0%nat) as Hshape.
  rewrite Forall_forall in Hshape. destruct (Hshape name Hin) as (c & r & -> & Hc & Hr).
  assert (Hclean : forallb (fun c => negb (c =? 36)) (cleanCode code) = true).
  { unfold cleanCode. apply replace_all_chars; [reflexivity|].
    apply replace_all_chars; [reflexivity|exact Hcode]. }
  pose proof (split_matches_hit_chars _ _ None 0%nat Hclean) as Hall.
  rewrite Forall_forall in Hall. specialize (Hall _ Hin).
  split; [discriminate|].
  assert (Hpart : forallb is_identifier_part (c :: r) = true).
  { cbn [forallb]. rewrite Hr. unfold is_identifier_part. rewrite Hc. reflexivity. }
  revert Hall Hpart. generalize (c :: r). clear. intro l.
  induction l as [|x l IH]; [reflexivity|]. cbn [forallb].
  intros H1 H2. apply andb_prop in H1, H2. destruct H1 as [Hx1 Hl1], H2 as [Hx2 Hl2].
  apply negb_true_iff in Hx1. rewrite (identifier_part_word x Hx2 Hx1), (IH Hl1 Hl2).
  reflexivity.
Qed.


Lemma word_not_slash (w : jstring) :
  forallb is_word w = true -> forallb (fun c => negb (c =? 47)) w = true.
Proof.
  apply forallb_impl. intros c Hc. apply word_range in Hc.
  rewrite (proj2 (N.eqb_neq c 47)) by lia. reflexivity.
Qed.

Lemma scramble_no_slash (ids : list jstring) (i : nat) (m : list (jstring * jstring))
    (code : jstring) :
  forallb (fun c => negb (c =? 47)) code = true ->
  forallb (fun c => negb (c =? 47)) (snd (scramble ids i m code)) = true.
Proof.
  revert i m code. induction ids as [|x ids IH]; intros i m code H; [exact H|].
  cbn [scramble]. apply IH. unfold rename. apply replace_all_chars; [|exact H].
  intros _. destruct (generateName_word i) as [_ Hw].
  rewrite substitution_plain by (apply word_no_dollar, Hw).
  apply word_not_slash, Hw.
Qed.

Lemma combine_fst {A B : Type} (l1 : list A) (l2 : list B) :
  length l1 = length l2 -> map fst (combine l1 l2) = l1.
Proof.
  revert l2. induction l1 as [|a l1 IH]; intros [|b l2] H; try discriminate;
    [reflexivity|]. cbn [combine map fst]. rewrite IH by (simpl in H; lia). reflexivity.
Qed.

Lemma combine_snd {A B : Type} (l1 : list A) (l2 : list B) :
  length l1 = length l2 -> map snd (combine l1 l2) = l2.
Proof.
  revert l2. induction l1 as [|a l1 IH]; intros [|b l2] H; try discriminate;
    [reflexivity|]. cbn [combine map snd]. rewrite IH by (simpl in H; lia). reflexivity.
Qed.

Lemma word_identifier_part (w : jstring) :
  forallb is_word w = true -> forallb is_identifier_part w = true.
Proof.
  apply forallb_impl. intros c. unfold is_word, is_identifier_part, is_identifier_start.
  destruct (is_letter c), (is_decimal_digit c), (c =? 95), (c =? 36); auto.
Qed.

(** *** The round trip, when no name collides *)

Section RoundTrip.
Context {E : Engine}.

Lemma table_entries_plain (nameMap : list (jstring * jstring)) :
  Forall (fun kv => plain_word (fst kv) /\ plain_word (snd kv)) nameMap ->
  table_entries (map (fun kv => (fst kv, JString (snd kv))) nameMap) = Some nameMap.
Proof.
  induction 1 as [|[k v] r [[_ Hk] [_ Hv]] _ IH]; [reflexivity|].
  cbn [map fst snd table_entries] in *.
  rewrite (word_identifier_part k Hk), (word_identifier_part v Hv), IH. reflexivity.
Qed.

Lemma insert_longest_value_perm (x : jstring * jstring) (l : list (jstring * jstring)) :
  Permutation (x :: l) (insert_longest_value x l).
Proof.
  induction l as [|y l IH]; simpl; [reflexivity|].
  destruct (length (snd x) <? length (snd y))%nat; [|reflexivity].
  rewrite perm_swap. apply perm_skip, IH.
Qed.

Lemma sorted_entries_perm (l : list (jstring * jstring)) :
  Permutation l (fold_right insert_longest_value [] l).
Proof.
  induction l as [|x l IH]; simpl; [reflexivity|].
  rewrite <- insert_longest_value_perm. apply perm_skip, IH.
Qed.

Lemma table_not_empty (nameMap : list (jstring * jstring)) :
  is_empty (JSON_stringify_table nameMap) = false.
Proof. destruct nameMap; reflexivity. Qed.


(** What [decode] makes of the scrambled code and its table, when no
    generated name is already a word of the code. *)
Lemma decode_scrambled (code : jstring) (w2 : World) :
  let ids := sort_longest_first (getIdentifiers code) in
  let names := map generateName (seq 0 (length ids)) in
  let table := JSON_stringify_table (combine ids names) in
  forallb (fun c => negb ((c =? 36) || (c =? 47))) code = true ->
  (forall g, In g names -> ~ In g ids /\ ~ In g (words code)) ->
  JSON_parse table
  = Some (JObject (map (fun kv => (fst kv, JString (snd kv))) (combine ids names))) ->
  option_map (fun m => m w2) (decode (minify (snd (scramble ids 0 [] code))) table)
  = Some (Return (minify code, decode_log), w2).
Proof.
  intros ids names table Hchars Hfresh Hparse.
  assert (Hdollar : forallb (fun c => negb (c =? 36)) code = true).
  { eapply forallb_impl; [|exact Hchars]. intros c H. cbv beta in H.
    destruct (c =? 36); [discriminate|reflexivity]. }
  assert (Hslash : forallb (fun c => negb (c =? 47)) code = true).
  { eapply forallb_impl; [|exact Hchars]. intros c H. cbv beta in H.
    destruct (c =? 47); [rewrite orb_true_r in H; discriminate|reflexivity]. }
  assert (Hids : Forall plain_word ids).
  { apply (Permutation_Forall (sort_longest_first_perm _)), identifiers_plain, Hdollar. }
  assert (Hlen : length ids = length names).
  { unfold names. rewrite length_map, length_seq. reflexivity. }
  set (pairs := combine ids names) in *.
  assert (Hfst : map fst pairs = ids) by (apply combine_fst, Hlen).
  assert (Hsnd : map snd pairs = names) by (apply combine_snd, Hlen).
  assert (Hpairs : Forall (fun kv => plain_word (fst kv) /\ plain_word (snd kv)) pairs).
  { apply Forall_forall. intros [k v] Hin. cbn [fst snd]. split.
    - rewrite Forall_forall in Hids. apply Hids. rewrite <- Hfst.
      apply (in_map fst _ _ Hin).
    - assert (Hv : In v names) by (rewrite <- Hsnd; apply (in_map snd _ _ Hin)).
      unfold names in Hv. apply in_map_iff in Hv. destruct Hv as (n & <- & _).
      apply generateName_word. }
  subst table. fold pairs in Hparse |- *.
  unfold decode. rewrite table_not_empty, Hparse.
  rewrite (table_entries_plain pairs Hpairs). cbn [option_map]. unfold ret.
  apply (f_equal (fun r : jstring => Some (Return (r, decode_log), w2))).
  set (L := fold_right insert_longest_value [] pairs).
  assert (HL : Permutation pairs L) by apply sorted_entries_perm.
  assert (HLpairs : Forall (fun kv => plain_word (fst kv) /\ plain_word (snd kv)) L)
    by (apply (Permutation_Forall HL), Hpairs).
  set (scrambled := snd (scramble ids 0 [] code)).
  assert (Hmin : minify scrambled = collapse scrambled).
  { rewrite minify_unfold, uncomment_no_slash; [reflexivity|].
    apply scramble_no_slash, Hslash. }
  assert (Hmin' : minify code = collapse code).
  { rewrite minify_unfold, uncomment_no_slash; [reflexivity|exact Hslash]. }
  rewrite Hmin, Hmin'.
  rewrite <- (untokens_tokens (restore L (collapse scrambled))).
  rewrite <- (untokens_tokens (collapse code)).
  rewrite (restore_tokens L _ HLpairs), !tokens_collapse.
  unfold scrambled. rewrite (scramble_tokens ids 0 [] code Hids).
  fold names. fold pairs.
  rewrite collapse_tokens_map, map_words_compose.
  apply (f_equal untokens). apply map_words_id. intros v Hv.
  apply collapse_tokens_words, in_words in Hv.
  assert (Hnd : NoDup ids).
  { apply (Permutation_NoDup (sort_longest_first_perm _)), getIdentifiers_spec. }
  assert (Hdis : forall g, In g (map snd pairs) -> ~ In g (map fst pairs)).
  { intros g Hg. rewrite Hsnd in Hg. rewrite Hfst. apply (Hfresh g Hg). }
  assert (HdisL : forall g, In g (map snd L) -> ~ In g (map fst L)).
  { intros g Hg Hg'.
    apply (Permutation_in _ (Permutation_sym (Permutation_map snd HL))) in Hg.
    apply (Permutation_in _ (Permutation_sym (Permutation_map fst HL))) in Hg'.
    apply (Hdis g Hg Hg'). }
  destruct (in_dec (list_eq_dec N.eq_dec) v ids) as [Hin|Hout].
  - rewrite <- Hfst in Hin. apply in_map_iff in Hin.
    destruct Hin as ([v' g] & Hv' & Hin). cbn [fst] in Hv'. subst v'.
    rewrite (fwd_inside pairs v g Hin); [|rewrite Hfst; exact Hnd|exact Hdis].
    apply back_inside; [apply (Permutation_in _ HL), Hin| |exact HdisL].
    apply (Permutation_NoDup (Permutation_map snd HL)). rewrite Hsnd.
    apply generateName_NoDup.
  - rewrite (fwd_outside pairs v) by (rewrite Hfst; exact Hout).
    apply back_outside. intro Hg.
    apply (Permutation_in _ (Permutation_sym (Permutation_map snd HL))) in Hg.
    rewrite Hsnd in Hg. apply (Hfresh v Hg), Hv.
Qed.


(** X21.  Where the code has no [$] and no [/], no generated name is an
    identifier or a word of the code, and [JSON.parse] reads the table back
    as it was written, [decode] undoes [encode] up to minification: from
    the result and the table of [encode] it returns the minified code. *)
Theorem round_trip_without_collisions (code : jstring) (w w2 : World) :
  let ids := sort_longest_first (getIdentifiers code) in
  let names := map generateName (seq 0 (length ids)) in
  let table := JSON_stringify_table (combine ids names) in
  forallb (fun c => negb ((c =? 36) || (c =? 47))) code = true ->
  (forall g, In g names -> ~ In g ids /\ ~ In g (words code)) ->
  JSON_parse table
  = Some (JObject (map (fun kv => (fst kv, JString (snd kv))) (combine ids names))) ->
  exists result,
    encode code w = (Return (result, table), w)
    /\ option_map (fun m => m w2) (decode result table)
       = Some (Return (minify code, decode_log), w2).
Proof.
  intros ids names table Hchars Hfresh Hparse.
  exists (minify (snd (scramble ids 0 [] code))).
  split; [apply encode_unfold|].
  apply decode_scrambled; assumption.
Qed.

End RoundTrip.
End WordsOfTheCode.

(** *** Concrete runs *)

Lemma rename_rewrites_whole_words_witness :
  lexicalScramble.rename (js "x") (js "a") (js "x = 'x' + xx; // x")
  = js "a = 'a' + xx; // a".
Proof.
  refine (eq_trans
            (rename_rewrites_whole_words (js "x") (js "a") (js "x = 'x' + xx; // x") _ _) _).
  - split; [discriminate|reflexivity].
  - reflexivity.
  - vm_compute. reflexivity.
Defined.

Lemma round_trip_without_collisions_witness :
  exists result,
    lexicalScramble.encode sample_function sample_world
    = (Return (result,
               lexicalScramble.JSON_stringify_table
                 [(js "second", js "a"); (js "first", js "b"); (js "add", js "c")]),
       sample_world)
    /\ option_map (fun m => m sample_world)
         (lexicalScramble.decode (E := reference_engine) result
            (lexicalScramble.JSON_stringify_table
               [(js "second", js "a"); (js "first", js "b"); (js "add", js "c")]))
       = Some (Return (js "function add(first, second) { return first + second; }",
                       lexicalScramble.decode_log), sample_world).
Proof.
  refine (round_trip_without_collisions (E := reference_engine) sample_function
            sample_world sample_world _ _ _).
  - vm_compute. reflexivity.
  - intros g Hg. vm_compute in Hg.
    repeat (destruct Hg as [<-|Hg]; [split; vm_compute; intuition discriminate|]).
    contradiction.
  - vm_compute. reflexivity.
Defined.

(** ** main.js *)

Definition no_cr (c : N) : bool := negb (c =? 13).

Lemma normalize_newlines_plain (s : jstring) :
  forallb no_cr s = true -> normalize_newlines s = s.
Proof.
  induction s as [|c r IH]; [reflexivity|]. cbn [forallb normalize_newlines].
  intro H. apply andb_prop in H. destruct H as [Hc Hr].
  unfold no_cr in Hc. apply negb_true_iff in Hc. rewrite Hc, (IH Hr). reflexivity.
Qed.

(** The panes as text areas. *)
Definition textarea_document : Document :=
  {| value_after_set := normalize_newlines;
     value_after_set_plain := normalize_newlines_plain |}.

Lemma no_cr_of_b64 (c : N) : is_b64 c = true -> no_cr c = true.
Proof.
  intro H. apply is_b64_range in H. unfold no_cr.
  destruct (N.eqb_spec c 13); [lia|reflexivity].
Qed.

Lemma no_cr_of_digit (c : N) : is_decimal_digit c = true -> no_cr c = true.
Proof. unfold is_decimal_digit, no_cr. cases_on_tests. Qed.

Lemma no_cr_of_word (c : N) : is_word c = true -> no_cr c = true.
Proof.
  intro H. apply word_range in H. unfold no_cr.
  destruct (N.eqb_spec c 13); [lia|reflexivity].
Qed.

Lemma wrapper_no_cr (payload orderMap decoderKey : jstring) :
  forallb no_cr payload = true -> forallb no_cr orderMap = true ->
  forallb no_cr decoderKey = true ->
  forallb no_cr (lanaVortex.wrapper payload orderMap decoderKey) = true.
Proof.
  intros Hp Ho Hk. unfold lanaVortex.wrapper.
  rewrite !forallb_app, Hp, Ho, Hk. vm_compute. reflexivity.
Qed.

Section MainPage.
Context {E : Engine} {D : Document}.
Import main.

Lemma stored_plain (s : jstring) : forallb no_cr s = true -> value_after_set s = s.
Proof. apply value_after_set_plain. Qed.

(** *** The fragment cipher, through the page *)

Lemma lana_artifact_shape (code key artifact log : jstring) (w w' : World) :
  lanaVortex.encode code key w = (Return (artifact, log), w') ->
  exists payload orderMap decoderKey,
    artifact = lanaVortex.wrapper payload orderMap decoderKey
    /\ forallb not_space payload = true /\ forallb not_space orderMap = true
    /\ forallb not_space decoderKey = true
    /\ forallb no_cr artifact = true.
Proof.
  intro H. apply encode_success in H.
  destruct H as (enc & dk & _ & _ & Hm & Hdk & -> & _).
  apply encrypted_b64 in Hm.
  exists (JSON_stringify_strings enc),
         (JSON_stringify_numbers
            (lanaVortex.originalOrderMap key (length (lanaVortex.fragment key code)))), dk.
  split; [reflexivity|].
  split; [apply stringify_strings_chars; auto using b64_not_space|].
  split; [apply stringify_numbers_chars; auto using digit_not_space|].
  split; [apply (btoa_chars not_space _ _ eq_refl eq_refl Hdk)|].
  apply wrapper_no_cr.
  - apply stringify_strings_chars; auto using no_cr_of_b64.
  - apply stringify_numbers_chars; auto using no_cr_of_digit.
  - apply (btoa_chars no_cr _ _ eq_refl eq_refl Hdk).
Qed.

Lemma decode_wrapper_fails (payload orderMap decoderKey key : jstring) (w : World) :
  forallb not_space payload = true -> forallb not_space orderMap = true ->
  forallb not_space decoderKey = true ->
  lanaVortex.decode (lanaVortex.wrapper payload orderMap decoderKey) key w
  = (Throw (Error (if is_empty key then lanaVortex.msg_decode_required
                   else lanaVortex.msg_decoding_failed ++ lanaVortex.msg_invalid_format)),
     w).
Proof.
  intros Hp Ho Hk. unfold lanaVortex.decode. rewrite wrapper_not_empty.
  destruct key as [|k key]; [reflexivity|].
  cbn [is_empty orb]. unfold try_catch.
  rewrite wrapper_has_no_var_m by assumption.
  destruct (search (lanaVortex.match_var (js "p")) _); reflexivity.
Qed.

Lemma error_is_no_success (x : jstring) (text : jstring) :
  hd 0 text <> 69 -> js "Error: " ++ x <> text.
Proof. intros H Heq. apply H. rewrite <- Heq. reflexivity. Qed.

(** X22.  The page cannot undo the fragment cipher.  After a click on
    obfuscate that succeeded with Lana-Vortex, a click on deobfuscate, on
    any page that still shows that output and that method, ends in an
    error notification whatever key is typed, and changes nothing else:
    the key-required message for an empty key, the format error of
    [lanaVortex.decode] for every other key. *)
Theorem page_cannot_undo_lana_vortex (p p1 q : Page) (w w1 w2 : World) :
  methodSelect_value p = lana_vortex ->
  obfuscateBtn_click p w = (Return p1, w1) ->
  notification_textContent p1 = js "Kode berhasil di-obfuscate!" ->
  methodSelect_value q = lana_vortex ->
  codeOutput_value q = codeOutput_value p1 ->
  option_map (fun run => run w2) (deobfuscateBtn_click q)
  = Some (Return
            (showNotification
               (js "Error: "
                ++ (if is_empty (secretKeyInput_value q)
                    then lanaVortex.msg_decode_required
                    else lanaVortex.msg_decoding_failed ++ lanaVortex.msg_invalid_format))
               true q),
          w2).
Proof.
  intros Hm Hclick Htext Hq Hout.
  unfold obfuscateBtn_click in Hclick. rewrite Hm in Hclick.
  destruct (is_empty (codeInput_value p)).
  { injection Hclick as <- _. cbn [showNotification notification_textContent] in Htext.
    vm_compute in Htext. discriminate. }
  unfold try_catch, bind, handler_encode in Hclick.
  destruct (lanaVortex.encode (codeInput_value p) (secretKeyInput_value p) w)
    as [[[result map]|e] w'] eqn:Henc.
  2:{ injection Hclick as <- _. cbn [showNotification notification_textContent] in Htext.
      exfalso. revert Htext. apply error_is_no_success. vm_compute. discriminate. }
  injection Hclick as <- _.
  cbn [showNotification set_mapOutput set_codeOutput codeOutput_value] in Hout.
  destruct (lana_artifact_shape _ _ _ _ _ _ Henc) as (pl & om & dk & -> & Hp & Ho & Hk & Hcr).
  rewrite (stored_plain _ Hcr) in Hout.
  unfold deobfuscateBtn_click. rewrite Hout, wrapper_not_empty, Hq.
  cbn [methods deobfuscateRequiresMap handler_decode option_map].
  unfold try_catch, bind. rewrite (decode_wrapper_fails pl om dk _ w2 Hp Ho Hk).
  reflexivity.
Qed.

(** *** The string concealer, through the page *)

Lemma reveal_result (code key result log : jstring) (w w' : World) :
  stringConceal.decode code key w = (Return (result, log), w') ->
  result = stringConceal.decode_result.
Proof.
  unfold stringConceal.decode. destruct (is_empty key); [discriminate|].
  unfold try_catch.
  match goal with
  | |- context [match ?body w with _ => _ end] => destruct (body w) as [[x|e] w1] eqn:Hb
  end; [|discriminate].
  intros [= -> ->]. revert Hb.
  destruct (search stringConceal.match_array code) as [arrayText|]; [|discriminate].
  destruct (search stringConceal.match_key code) as [encodedKey|]; [|discriminate].
  unfold bind, native, ret, throw.
  destruct (JSON_parse arrayText) as [parsed|]; [|discriminate].
  destruct (btoa key) as [ownKey|]; [|discriminate].
  destruct (jstring_eqb ownKey encodedKey); [|discriminate].
  destruct (as_array parsed w) as [[arr|e] w2]; [|discriminate].
  match goal with
  | |- context [mapM ?f arr w2] => destruct (mapM f arr w2) as [[l|e] w3]
  end; [|discriminate].
  intros [= <- _ _]. reflexivity.
Qed.

(** X23.  Revealing strings costs the source.  When a click on deobfuscate
    succeeds with String Concealment, the input pane no longer holds what
    the user had there: it holds the fixed two-line note of
    [stringConceal.decode], while the output pane and the key stay. *)
Theorem reveal_click_replaces_source (q q' : Page) (w w' : World) :
  methodSelect_value q = string_conceal ->
  option_map (fun run => run w) (deobfuscateBtn_click q) = Some (Return q', w') ->
  notification_textContent q' = js "Proses deobfuscate berhasil!" ->
  codeInput_value q' = stringConceal.decode_result
  /\ codeOutput_value q' = codeOutput_value q
  /\ secretKeyInput_value q' = secretKeyInput_value q.
Proof.
  intros Hq Hclick Htext. unfold deobfuscateBtn_click in Hclick. rewrite Hq in Hclick.
  destruct (is_empty (codeOutput_value q)).
  { cbn [option_map] in Hclick. injection Hclick as <- _.
    cbn [showNotification notification_textContent] in Htext.
    vm_compute in Htext. discriminate. }
  cbn [methods deobfuscateRequiresMap handler_decode option_map] in Hclick.
  unfold try_catch, bind in Hclick.
  destruct (stringConceal.decode (codeOutput_value q) (secretKeyInput_value q) w)
    as [[[result log]|e] w1] eqn:Hdec.
  2:{ injection Hclick as <- _. cbn [showNotification notification_textContent] in Htext.
      exfalso. revert Htext. apply error_is_no_success. vm_compute. discriminate. }
  injection Hclick as <- _.
  apply reveal_result in Hdec. subst result.
  cbn [showNotification set_mapOutput set_codeInput codeInput_value codeOutput_value
       secretKeyInput_value].
  split; [|split; reflexivity].
  apply stored_plain. vm_compute. reflexivity.
Qed.

End MainPage.

(** *** The identifier renamer, through the page *)

Section MainPageScramble.
Context {E : Engine} {D : Document}.
Import main lexicalScramble.

Lemma word_not_backslash (c : N) : is_word c = true -> (c =? backslash) = false.
Proof.
  unfold is_word, is_letter, is_decimal_digit, backslash. intro H.
  destruct (N.eqb_spec c 92) as [->|]; [vm_compute in H; discriminate|reflexivity].
Qed.

Lemma json_quote_body_word (s : jstring) :
  forallb is_word s = true -> json_quote_body s = s.
Proof.
  induction s as [|c r IH]; simpl; [reflexivity|].
  intro H. apply andb_prop in H. destruct H as [Hc Hr].
  pose proof (word_not_backslash c Hc) as Hb. unfold backslash in Hb.
  apply word_range in Hc.
  replace (is_lead_surrogate c) with false
    by (unfold is_lead_surrogate; cases_on_tests).
  replace (json_escape_unit c) with [c].
  - simpl. rewrite IH by assumption. reflexivity.
  - unfold json_escape_unit, is_trail_surrogate, dq, backslash. rewrite Hb.
    cases_on_tests.
Qed.

Lemma table_no_cr (nameMap : list (jstring * jstring)) :
  Forall (fun kv => plain_word (fst kv) /\ plain_word (snd kv)) nameMap ->
  forallb no_cr (JSON_stringify_table nameMap) = true.
Proof.
  intro H. unfold JSON_stringify_table. destruct nameMap as [|kv r]; [reflexivity|].
  rewrite !forallb_app, forallb_join; [reflexivity|reflexivity|].
  rewrite Forall_map. eapply Forall_impl; [|exact H].
  intros [k v] [[_ Hk] [_ Hv]]. cbn [fst snd] in *. unfold json_member, json_quote.
  cbn [fst snd]. rewrite (json_quote_body_word k Hk), (json_quote_body_word v Hv).
  rewrite !forallb_app. cbn [forallb]. rewrite !forallb_app.
  rewrite (forallb_impl _ _ _ no_cr_of_word Hk), (forallb_impl _ _ _ no_cr_of_word Hv).
  reflexivity.
Qed.

Lemma collapse_no_cr (s : jstring) : forallb no_cr (collapse s) = true.
Proof.
  destruct (collapse_blanks s) as [H _]. apply forallb_forall. intros c Hc.
  rewrite Forall_forall in H. specialize (H c Hc). unfold no_cr.
  destruct (N.eqb_spec c 13) as [->|]; [|reflexivity].
  specialize (H eq_refl). discriminate.
Qed.

Lemma collapse_not_empty (s : jstring) : s <> [] -> is_empty (collapse s) = false.
Proof.
  destruct s as [|c r]; [congruence|]. intros _. rewrite collapse_cons.
  destruct (is_white_space c); reflexivity.
Qed.

Lemma scramble_not_empty (ids : list jstring) (i : nat) (m : list (jstring * jstring))
    (code : jstring) :
  Forall plain_word ids -> code <> [] -> snd (scramble ids i m code) <> [].
Proof.
  intros Hids Hcode Hnil.
  pose proof (scramble_tokens ids i m code Hids) as Ht. rewrite Hnil in Ht.
  destruct code as [|c r]; [congruence|].
  cbn [tokens] in Ht. destruct (is_word c); [|discriminate].
  destruct (tokens r) as [|[x|d] t]; discriminate.
Qed.

Lemma scramble_pairs_plain (code : jstring) :
  let ids := sort_longest_first (getIdentifiers code) in
  forallb (fun c => negb (c =? 36)) code = true ->
  Forall plain_word ids
  /\ Forall (fun kv => plain_word (fst kv) /\ plain_word (snd kv))
       (combine ids (map generateName (seq 0 (length ids)))).
Proof.
  intros ids Hdollar.
  assert (Hids : Forall plain_word ids).
  { apply (Permutation_Forall (sort_longest_first_perm _)), identifiers_plain, Hdollar. }
  split; [exact Hids|].
  apply Forall_forall. intros [k v] Hin. cbn [fst snd]. split.
  - rewrite Forall_forall in Hids. apply Hids. apply (in_combine_l _ _ _ _ Hin).
  - apply in_combine_r, in_map_iff in Hin. destruct Hin as (n & <- & _).
    apply generateName_word.
Qed.

(** X24.  The page does undo the identifier renamer, up to minification.
    With Lexical Scramble selected and a source without [$] and [/] in
    which no generated name is a word already ([JSON.parse] reading the
    table back as written), a click on obfuscate followed by a click on
    deobfuscate succeeds and leaves the minified source in the input pane:
    the second click takes the code from the output pane and the table
    from the map pane. *)
Theorem page_restores_scrambled_code (p : Page) (w w2 : World) :
  let code := codeInput_value p in
  let ids := sort_longest_first (getIdentifiers code) in
  let names := map generateName (seq 0 (length ids)) in
  let table := JSON_stringify_table (combine ids names) in
  methodSelect_value p = lexical_scramble ->
  code <> [] ->
  forallb (fun c => negb ((c =? 36) || (c =? 47))) code = true ->
  (forall g, In g names -> ~ In g ids /\ ~ In g (words code)) ->
  JSON_parse table
  = Some (JObject (map (fun kv => (fst kv, JString (snd kv))) (combine ids names))) ->
  exists p1 p2,
    obfuscateBtn_click p w = (Return p1, w)
    /\ mapOutput_value p1 = table
    /\ option_map (fun run => run w2) (deobfuscateBtn_click p1) = Some (Return p2, w2)
    /\ codeInput_value p2 = minify code
    /\ codeOutput_value p2 = codeOutput_value p1
    /\ notification_textContent p2 = js "Proses deobfuscate berhasil!".
Proof.
  intros code ids names table Hm Hcode Hchars Hfresh Hparse.
  assert (Hdollar : forallb (fun c => negb (c =? 36)) code = true).
  { eapply forallb_impl; [|exact Hchars]. intros c H. cbv beta in H.
    destruct (c =? 36); [discriminate|reflexivity]. }
  assert (Hslash : forallb (fun c => negb (c =? 47)) code = true).
  { eapply forallb_impl; [|exact Hchars]. intros c H. cbv beta in H.
    destruct (c =? 47); [rewrite orb_true_r in H; discriminate|reflexivity]. }
  destruct (scramble_pairs_plain code Hdollar) as [Hids Hpairs].
  fold ids in Hids, Hpairs. fold names in Hpairs.
  set (scrambled := snd (scramble ids 0 [] code)).
  assert (Hresult : minify scrambled = collapse scrambled).
  { rewrite minify_unfold, uncomment_no_slash; [reflexivity|].
    apply scramble_no_slash, Hslash. }
  assert (Hstored : value_after_set (minify scrambled) = minify scrambled).
  { apply value_after_set_plain. rewrite Hresult. apply collapse_no_cr. }
  assert (Hfull : is_empty (minify scrambled) = false).
  { rewrite Hresult. apply collapse_not_empty, scramble_not_empty; assumption. }
  assert (Htable : value_after_set table = table).
  { apply value_after_set_plain, table_no_cr, Hpairs. }
  pose proof (decode_scrambled code w2 Hchars Hfresh Hparse) as Hdec.
  fold ids in Hdec. fold scrambled in Hdec. fold names in Hdec. fold table in Hdec.
  unfold obfuscateBtn_click. fold code. rewrite Hm.
  destruct (is_empty code) eqn:He; [destruct code; [congruence|discriminate]|].
  unfold try_catch, bind, handler_encode.
  pose proof (encode_unfold code w) as Henc. cbv zeta in Henc.
  fold ids in Henc. fold scrambled in Henc. fold names in Henc. fold table in Henc.
  rewrite Henc. unfold ret, or_else. cbv beta iota.
  change (JSON_stringify_table (combine ids names)) with table.
  rewrite (table_not_empty (combine ids names) : is_empty table = false).
  eexists. eexists. split; [reflexivity|].
  cbn [showNotification set_mapOutput set_codeOutput mapOutput_value].
  split; [exact Htable|].
  unfold deobfuscateBtn_click.
  cbn [showNotification set_mapOutput set_codeOutput mapOutput_value codeOutput_value
       methodSelect_value secretKeyInput_value].
  rewrite Hstored, Htable, Hfull, Hm.
  cbn [methods deobfuscateRequiresMap handler_decode].
  destruct (decode (minify scrambled) table) as [run|]; [|discriminate].
  cbn [option_map] in *. injection Hdec as Hdec.
  unfold try_catch, bind. rewrite Hdec. unfold ret.
  split; [reflexivity|].
  cbn [showNotification set_mapOutput set_codeInput codeInput_value codeOutput_value
       notification_textContent].
  split; [|split; [|reflexivity]].
  - apply value_after_set_plain.
    rewrite minify_unfold, uncomment_no_slash by exact Hslash. apply collapse_no_cr.
  - cbn [showNotification set_mapOutput set_codeOutput codeOutput_value].
    rewrite ?Hstored. reflexivity.
Qed.

End MainPageScramble.

(** *** Concrete runs *)

Lemma page_cannot_undo_lana_vortex_witness :
  option_map (fun run => run sample_world)
    (main.deobfuscateBtn_click (E := reference_engine) (D := textarea_document)
       sample_lana_page_after)
  = Some (Return
            (main.showNotification
               (js "Error: " ++ lanaVortex.msg_decoding_failed
                ++ lanaVortex.msg_invalid_format)
               true sample_lana_page_after),
          sample_world).
Proof.
  apply (page_cannot_undo_lana_vortex (E := reference_engine) (D := textarea_document)
           (sample_page main.lana_vortex (js "ab") (js "console.log(1)"))
           sample_lana_page_after sample_lana_page_after
           sample_world sample_world sample_world).
  - reflexivity.
  - vm_compute. reflexivity.
  - reflexivity.
  - reflexivity.
  - reflexivity.
Defined.

Lemma reveal_click_replaces_source_witness :
  main.codeInput_value sample_conceal_page_after = sample_code
  /\ exists q',
       option_map (fun run => run sample_world)
         (main.deobfuscateBtn_click (E := reference_engine) (D := textarea_document)
            sample_conceal_page_after)
       = Some (Return q', sample_world)
       /\ main.codeInput_value q' = stringConceal.decode_result
       /\ main.codeOutput_value q' = sample_concealed
       /\ main.secretKeyInput_value q' = js "k".
Proof.
  split; [reflexivity|].
  exists (main.mkPage main.string_conceal (js "k") stringConceal.decode_result
            sample_concealed (stringConceal.reveal_log [js "hi"]) [] [] []
            (js "Proses deobfuscate berhasil!") (js "#238636") true 2).
  assert (Hrun : option_map (fun run => run sample_world)
                   (main.deobfuscateBtn_click (E := reference_engine)
                      (D := textarea_document) sample_conceal_page_after)
                 = Some (Return
                           (main.mkPage main.string_conceal (js "k")
                              stringConceal.decode_result sample_concealed
                              (stringConceal.reveal_log [js "hi"]) [] [] []
                              (js "Proses deobfuscate berhasil!") (js "#238636") true 2),
                         sample_world))
    by (vm_compute; reflexivity).
  split; [exact Hrun|].
  exact (reveal_click_replaces_source (E := reference_engine) (D := textarea_document)
           sample_conceal_page_after _ sample_world sample_world
           eq_refl Hrun eq_refl).
Defined.

Lemma page_restores_scrambled_code_witness :
  exists p1 p2,
    main.obfuscateBtn_click (E := reference_engine) (D := textarea_document)
      (sample_page main.lexical_scramble [] sample_function) sample_world
    = (Return p1, sample_world)
    /\ main.mapOutput_value p1
       = lexicalScramble.JSON_stringify_table
           [(js "second", js "a"); (js "first", js "b"); (js "add", js "c")]
    /\ option_map (fun run => run sample_world)
         (main.deobfuscateBtn_click (E := reference_engine) (D := textarea_document) p1)
       = Some (Return p2, sample_world)
    /\ main.codeInput_value p2 = js "function add(first, second) { return first + second; }"
    /\ main.codeOutput_value p2 = main.codeOutput_value p1
    /\ main.notification_textContent p2 = js "Proses deobfuscate berhasil!".
Proof.
  refine (page_restores_scrambled_code (E := reference_engine) (D := textarea_document)
            (sample_page main.lexical_scramble [] sample_function)
            sample_world sample_world _ _ _ _ _).
  - reflexivity.
  - discriminate.
  - vm_compute. reflexivity.
  - intros g Hg. vm_compute in Hg.
    repeat (destruct Hg as [<-|Hg]; [split; vm_compute; intuition discriminate|]).
    contradiction.
  - vm_compute. reflexivity.
Defined.
